(** * Softmax and hinge objectives of [loss_grad_softmax.py]

    A shallow embedding of the three objective functions of
    [src/loss_grad_softmax.py] over the real numbers, and the properties
    of the specification that concern them.

    Language.  The source is Python 2 with numpy: [xrange(n)] and
    [range(n)] are the indices 0 to n - 1.

    Arrays.  A numpy array is a shape and a block of entries.  The three
    functions take [W] of shape (K, D), [X] of shape (D, N) and [y] of
    shape (N,); here the shape is carried by the parameters [K], [D], [N]
    and the entries by an index function, so that arguments whose shapes
    disagree cannot be written down.  Entries outside the shape are never
    read.

    Numbers.  The functions are given over the real numbers first, with
    exact arithmetic; the one float effect that is kept there is a
    division of a numpy float by the integer zero, which yields nan or
    inf and no real number.  What is proved over the real numbers is the
    algebra of what the code computes.  Module [F64] gives the functions
    again over binary64, with rounding, overflow, underflow and nan, for
    what the code returns where the two differ.

    Stores.  Over the real numbers the functions are given on values,
    where an in-place operation binds the name to the new entries; module
    [Store] gives them again over a store of array objects, where an
    in-place operation writes a cell.  The runs over the store return
    what the functions on the values return ([objectives_refine]). *)

From Stdlib Require Import Reals Lra Lia List ZArith Bool Arith.
From Stdlib Require Import SpecFloat.
Import ListNotations.

Open Scope R_scope.

(** ** Outcomes of a call *)

Inductive exn : Type :=
| IndexError
| ValueError
| ZeroDivisionError
| TypeError.

(** A call returns a value, raises a Python exception, or returns values
    that are not real numbers (a numpy float divided by zero). *)
Inductive outcome (A : Type) : Type :=
| Returns (a : A)
| Raises (e : exn)
| NonFinite.

Arguments Returns {A} a.
Arguments Raises {A} e.
Arguments NonFinite {A}.

Definition bind {A B : Type} (c : outcome A) (k : A -> outcome B) : outcome B :=
  match c with
  | Returns a => k a
  | Raises e => Raises e
  | NonFinite => NonFinite
  end.

Notation "x <- c ;; k" := (bind c (fun x => k))
  (at level 61, c at next level, right associativity).

(** ** Arrays and loops *)

Definition vector := nat -> R.
Definition matrix := nat -> nat -> R.

(** Equality of two arrays on the entries inside the shape. *)
Definition vec_eq (n : nat) (u v : vector) : Prop :=
  forall i, (i < n)%nat -> u i = v i.

Definition mat_eq (r c : nat) (A B : matrix) : Prop :=
  forall i j, (i < r)%nat -> (j < c)%nat -> A i j = B i j.

(** [for i in range(n): s = body i s]. *)
Fixpoint for_range {St : Type} (n : nat) (body : nat -> St -> St) (s : St) : St :=
  match n with
  | O => s
  | S m => body m (for_range m body s)
  end.

(** The same loop with a body that may raise. *)
Fixpoint for_rangeM {St : Type} (n : nat) (body : nat -> St -> outcome St)
  (s : St) : outcome St :=
  match n with
  | O => Returns s
  | S m => s' <- for_rangeM m body s ;; body m s'
  end.

(** [a[i] = x] and [A[i, :] = r]. *)
Definition setitem (a : vector) (i : nat) (x : R) : vector :=
  fun k => if Nat.eqb k i then x else a k.

Definition setrow (A : matrix) (i : nat) (r : vector) : matrix :=
  fun k => if Nat.eqb k i then r else A k.

Definition setitem2 (A : matrix) (i j : nat) (x : R) : matrix :=
  fun k n => if Nat.eqb k i && Nat.eqb n j then x else A k n.

(** ** numpy primitives *)

(** [np.sum] of the first [n] entries, added in index order. *)
Fixpoint sum_range (n : nat) (f : nat -> R) : R :=
  match n with
  | O => 0
  | S m => sum_range m f + f m
  end.

(** [np.sum(A)] of an (r, c) array and [np.sum(A, axis=0)]. *)
Definition np_sum2 (r c : nat) (A : matrix) : R :=
  sum_range r (fun i => sum_range c (fun j => A i j)).

Definition np_sum_axis0 (r : nat) (A : matrix) : vector :=
  fun j => sum_range r (fun i => A i j).

(** The largest of the first [n] entries, [n >= 1]. *)
Fixpoint max_range (n : nat) (f : nat -> R) : R :=
  match n with
  | O => f O
  | S O => f O
  | S m => Rmax (max_range m f) (f m)
  end.

(** [np.max] raises ValueError on an array without entries. *)
Definition np_max (n : nat) (a : vector) : outcome R :=
  if Nat.eqb n 0 then Raises ValueError else Returns (max_range n a).

Definition np_max2 (r c : nat) (A : matrix) : outcome R :=
  if Nat.eqb (r * c) 0 then Raises ValueError
  else Returns (max_range r (fun i => max_range c (A i))).

(** [w.dot(x)] for two vectors of length [d], [A.dot(B)] for an (r, d)
    and a (d, c) array, and [A.T]. *)
Definition vdot (d : nat) (w x : vector) : R :=
  sum_range d (fun k => w k * x k).

Definition dot (d : nat) (A B : matrix) : matrix :=
  fun i j => sum_range d (fun k => A i k * B k j).

Definition transpose (A : matrix) : matrix := fun i j => A j i.

(** numpy index arithmetic on an axis of the given size: an index in
    [0, size) is taken as it is, an index in [-size, 0) counts from the
    end, any other index raises IndexError. *)
Definition in_bounds (size : nat) (i : Z) : bool :=
  ((- Z.of_nat size <=? i) && (i <? Z.of_nat size))%Z.

Definition wrap (size : nat) (i : Z) : nat :=
  if (i <? 0)%Z then Z.to_nat (i + Z.of_nat size) else Z.to_nat i.

Definition norm_index (size : nat) (i : Z) : outcome nat :=
  if in_bounds size i then Returns (wrap size i) else Raises IndexError.

(** The row indices of the index pairs [(y[n], n)], [n] in [range(N)],
    with which [A[y, range(N)]] reads and writes an array of [K] rows. *)
Definition index_rows (K N : nat) (y : nat -> Z) : outcome (nat -> nat) :=
  if forallb (fun n => in_bounds K (y n)) (seq 0 N)
  then Returns (fun n => wrap K (y n))
  else Raises IndexError.

(** [A[rows, range(N)]] and [A[rows, range(N)] = v]; the pairs differ in
    their column, so each of them is written once. *)
Definition take_pairs (A : matrix) (rows : nat -> nat) : vector :=
  fun n => A (rows n) n.

Definition put_pairs (N : nat) (A : matrix) (rows : nat -> nat) (v : vector)
  : matrix :=
  for_range N (fun n A => setitem2 A (rows n) n (v n)) A.

(** A Python number divided by the integer [n]: ZeroDivisionError when
    [n] is zero. *)
Definition py_div (x : R) (n : nat) : outcome R :=
  if Nat.eqb n 0 then Raises ZeroDivisionError else Returns (x / INR n).

(** A numpy float or float array divided by the integer [n]: nan or inf
    and a warning, no exception, when [n] is zero. *)
Definition np_div_int {A : Type} (a : A) (n : nat) (q : A -> R -> A) : outcome A :=
  if Nat.eqb n 0 then NonFinite else Returns (q a (INR n)).

(** The comparison [x > 0] and [np.sum] of the first [n] entries of a
    boolean array, which counts the entries that are True. *)
Definition gt0 (x : R) : bool := if Rlt_dec 0 x then true else false.

Fixpoint count_true (n : nat) (p : nat -> bool) : nat :=
  match n with
  | O => O
  | S m => (count_true m p + if p m then 1 else 0)%nat
  end.

(** ** The three objective functions *)

Section Objectives.

Variables K D N : nat.
Variable W : matrix.      (* shape (K, D) *)
Variable X : matrix.      (* shape (D, N) *)
Variable y : nat -> Z.    (* shape (N,)   *)
Variable reg : R.

(** [np.sum(W * W)]. *)
Definition sum_sq : R := np_sum2 K D (fun k d => W k d * W k d).

(** *** loss_grad_softmax_naive *)

(** The scores of sample [i], lines 25 to 29. *)
Definition naive_scores (i : nat) : vector :=
  let sample_x : vector := fun d => X d i in
  let num_classes := K in
  let scores : vector := fun _ => 0 in
  for_range num_classes
    (fun cls scores =>
       let w : vector := W cls in
       setitem scores cls (vdot D w sample_x))
    scores.

(** Lines 32 to 45 on scores that have been shifted already. *)
Definition naive_sample_from (i : nat) (scores : vector) (acc : R * matrix)
  : outcome (R * matrix) :=
  let '(loss, grad) := acc in
  let sample_x : vector := fun d => X d i in
  let num_classes := K in
  let correct_class := y i in
  let sum_exp_scores := sum_range num_classes (fun k => exp (scores k)) in
  c <- norm_index num_classes correct_class ;;
  let corr_cls_exp_score := exp (scores c) in
  let loss_x := - ln (corr_cls_exp_score / sum_exp_scores) in
  let loss := loss + loss_x in
  let percent_exp_score : vector := fun k => exp (scores k) / sum_exp_scores in
  let grad :=
    for_range num_classes
      (fun j grad =>
         setrow grad j (fun d => grad j d + percent_exp_score j * sample_x d))
      grad in
  let grad := setrow grad c (fun d => grad c d - sample_x d) in
  Returns (loss, grad).

(** The body of the loop over the samples, lines 25 to 45. *)
Definition naive_sample (i : nat) (acc : R * matrix) : outcome (R * matrix) :=
  let num_classes := K in
  let scores := naive_scores i in
  m <- np_max num_classes scores ;;
  let scores : vector := fun k => scores k - m in
  naive_sample_from i scores acc.

Definition loss_grad_softmax_naive : outcome (R * matrix) :=
  let loss := 0 in
  let grad : matrix := fun _ _ => 0 in
  let num_train := N in
  acc <- for_rangeM num_train naive_sample (loss, grad) ;;
  let '(loss, grad) := acc in
  (* [loss] is still the Python int 0 when the loop did not run, and a
     numpy float, with [num_train] not zero, when it did *)
  loss <- py_div loss num_train ;;
  let loss := loss + 0.5 * reg * sum_sq in
  grad <- np_div_int grad num_train (fun g n k d => g k d / n) ;;
  let grad : matrix := fun k d => grad k d + reg * W k d in
  Returns (loss, grad).

(** *** loss_grad_softmax_vectorized *)

(** Lines 62 to 74 on scores that have been shifted already. *)
Definition softmax_vectorized_from (scores : matrix) : outcome (R * matrix) :=
  let num_train := N in
  let scores_exp : matrix := fun k n => exp (scores k n) in
  rows <- index_rows K num_train y ;;
  let correct_scores_exp := take_pairs scores_exp rows in
  let scores_exp_sum := np_sum_axis0 K scores_exp in
  let loss :=
    - sum_range num_train
        (fun n => ln (correct_scores_exp n / scores_exp_sum n)) in
  loss <- np_div_int loss num_train Rdiv ;;
  let loss := loss + 0.5 * reg * sum_sq in
  let scores_exp_normalized : matrix :=
    fun k n => scores_exp k n / scores_exp_sum n in
  let scores_exp_normalized :=
    put_pairs num_train scores_exp_normalized rows
      (fun n => take_pairs scores_exp_normalized rows n - 1) in
  let grad := dot num_train scores_exp_normalized (transpose X) in
  grad <- np_div_int grad num_train (fun g n k d => g k d / n) ;;
  let grad : matrix := fun k d => grad k d + reg * W k d in
  Returns (loss, grad).

Definition loss_grad_softmax_vectorized : outcome (R * matrix) :=
  let num_train := N in
  let scores := dot D W X in
  m <- np_max2 K num_train scores ;;
  let scores : matrix := fun k n => scores k n - m in
  softmax_vectorized_from scores.

(** *** loss_grad_svm_vectorized *)

(** The margins after line 115, for the row indices of the labels. *)
Definition svm_margins (rows : nat -> nat) : matrix :=
  let delta := 1 in
  let num_train := N in
  let scores_mat := dot D W X in
  let correct_class_score := take_pairs scores_mat rows in
  let margins_mat : matrix :=
    fun k n => scores_mat k n - correct_class_score n + delta in
  let margins_mat : matrix := fun k n => Rmax 0 (margins_mat k n) in
  put_pairs num_train margins_mat rows (fun _ => 0).

(** The array [scores_mat_grad] after line 128. *)
Definition svm_indicator (rows : nat -> nat) : matrix :=
  let num_train := N in
  let margins_mat := svm_margins rows in
  let scores_mat_grad : matrix := fun _ _ => 0 in
  let positive : nat -> nat -> bool := fun k n => gt0 (margins_mat k n) in
  let num_pos : nat -> nat :=
    fun n => count_true K (fun k => positive k n) in
  let scores_mat_grad : matrix :=
    fun k n => if positive k n then 1 else scores_mat_grad k n in
  put_pairs num_train scores_mat_grad rows (fun n => -1 * INR (num_pos n)).

Definition loss_grad_svm_vectorized : outcome (R * matrix) :=
  let num_train := N in
  rows <- index_rows K num_train y ;;
  let margins_mat := svm_margins rows in
  loss <- np_div_int (np_sum2 K num_train margins_mat) num_train Rdiv ;;
  let loss := loss + 0.5 * reg * sum_sq in
  let scores_mat_grad := svm_indicator rows in
  dW <- np_div_int (dot num_train scores_mat_grad (transpose X)) num_train
          (fun g n k d => g k d / n) ;;
  let dW : matrix := fun k d => dW k d + reg * W k d in
  Returns (loss, dW).

End Objectives.

(** ** Inputs *)

(** The labels are row indices of the score matrix. *)
Definition labels_in_range (K N : nat) (y : nat -> Z) : Prop :=
  forall n, (n < N)%nat -> (0 <= y n < Z.of_nat K)%Z.

(** A valid input: [W] is (K, D), [X] is (D, N) and [y] is (N,) by the
    types; the batch is not empty, every label lies in [0, K) and the
    regularization strength is not negative. *)
Definition valid_input (K N : nat) (y : nat -> Z) (reg : R) : Prop :=
  (1 <= N)%nat /\ labels_in_range K N y /\ 0 <= reg.

(** The class of sample [n] as a row index. *)
Definition label (y : nat -> Z) (n : nat) : nat := Z.to_nat (y n).

(** Labels that numpy accepts as row indices of an array of [K] rows, and
    the row that the label of sample [n] then selects. *)
Definition labels_in_bounds (K N : nat) (y : nat -> Z) : Prop :=
  forall n, (n < N)%nat -> in_bounds K (y n) = true.

Definition row_of (K : nat) (y : nat -> Z) (n : nat) : nat := wrap K (y n).

(** ** Softmax of a score vector *)

(** The probabilities [exp(s) / sum(exp(s))] of [K] classes. *)
Definition softmax (K : nat) (s : vector) : vector :=
  fun k => exp (s k) / sum_range K (fun j => exp (s j)).

(** ** The objectives in closed form *)

Section ClosedForm.

Variables K D N : nat.
Variable W : matrix.
Variable X : matrix.
Variable y : nat -> Z.
Variable reg : R.

(** The score matrix [S = W.dot(X)], not shifted. *)
Definition scores : matrix := dot D W X.

(** The probability of class [k] for sample [n]. *)
Definition prob : matrix := fun k n => softmax K (fun j => scores j n) k.

Definition onehot (k n : nat) : R :=
  if Nat.eqb k (row_of K y n) then 1 else 0.

(** The cross-entropy of sample [n] and its gradient. *)
Definition softmax_sample_loss (n : nat) : R := - ln (prob (row_of K y n) n).

Definition softmax_sample_grad (n : nat) : matrix :=
  fun k d => (prob k n - onehot k n) * X d n.

(** The regularization terms and the mean over the batch. *)
Definition reg_loss : R := 0.5 * reg * sum_sq K D W.

Definition reg_grad : matrix := fun k d => reg * W k d.

Definition mean (f : nat -> R) : R := sum_range N f / INR N.

Definition mean_grad (g : nat -> matrix) : matrix :=
  fun k d => mean (fun n => g n k d).

(** *** The hinge objective *)

(** The margin of class [k] for sample [n]: zero for the class of the
    sample, [max(0, S[k,n] - S[y[n],n] + 1)] for another class. *)
Definition hinge_margin (k n : nat) : R :=
  if Nat.eqb k (row_of K y n) then 0
  else Rmax 0 (scores k n - scores (row_of K y n) n + 1).

Definition hinge_sample_loss (n : nat) : R :=
  sum_range K (fun k => hinge_margin k n).

(** The number of classes other than the class of sample [n] whose
    margin is positive. *)
Definition hinge_num_pos (n : nat) : nat :=
  count_true K
    (fun k => negb (Nat.eqb k (row_of K y n)) && gt0 (hinge_margin k n)).

Definition hinge_indicator (k n : nat) : R :=
  if Nat.eqb k (row_of K y n) then - INR (hinge_num_pos n)
  else if gt0 (hinge_margin k n) then 1 else 0.

Definition hinge_sample_grad (n : nat) : matrix :=
  fun k d => hinge_indicator k n * X d n.

End ClosedForm.

(** ** A concrete input *)

(** K = 3, D = 2, N = 1, W = [[1,0],[0,1],[0,0]], X = [[1],[0]],
    y = [0]. *)
Definition W0 : matrix :=
  fun k d =>
    match k, d with
    | 0%nat, 0%nat => 1
    | 1%nat, 1%nat => 1
    | _, _ => 0
    end.

Definition X0 : matrix :=
  fun d n =>
    match d, n with
    | 0%nat, 0%nat => 1
    | _, _ => 0
    end.

Definition y0 : nat -> Z := fun _ => 0%Z.

(** K = 2, D = 1, N = 1, W = [[1],[0]], X = [[1]], y = [0]: the score
    of the class of the sample is 1 and the other score is 0. *)
Definition W1 : matrix :=
  fun k _ =>
    match k with
    | 0%nat => 1
    | _ => 0
    end.

Definition X1 : matrix := fun _ _ => 1.

(** The label vector y = [-1]. *)
Definition y_neg : nat -> Z := fun _ => (-1)%Z.

(** The labels with every negative label counted from the end. *)
Definition wrapped (K : nat) (y : nat -> Z) : nat -> Z :=
  fun n => if (y n <? 0)%Z then (y n + Z.of_nat K)%Z else y n.

(** ** Enclosures of the exponential *)

(** The term [x^i / i!] of the exponential series, and the partial sum
    of the alternating series of [exp (- x)] up to index [n]. *)
Fixpoint exp_term (x : R) (i : nat) : R :=
  match i with
  | O => 1
  | S j => exp_term x j * x / INR (S j)
  end.

Fixpoint alt_exp_sum (x : R) (n : nat) : R :=
  match n with
  | O => 1
  | S m => alt_exp_sum x m + (-1) ^ S m * exp_term x (S m)
  end.

(** The scores of the concrete input after the shift by their maximum,
    which is 1. *)
Definition shifted0 : vector := fun k => dot 2 W0 X0 k 0%nat - 1.

(** ** The functions over a store of arrays *)

(** numpy arrays are objects: a name is bound to an array in a store, an
    in-place operation ([a -= x], [a[i] = x], [a /= n]) writes the array
    that the name is bound to, and a basic slice ([X[:, i]], [W[cls, :]],
    [X.T]) is a view that reads the array it was taken from.  The module
    follows the three functions statement by statement over such a store:
    every array that the source binds to a name is a cell of the store,
    expressions without a name are values.  The entries are computed by
    the primitives above. *)
Module Store.

Inductive obj : Type :=
| Floats2 (a : matrix)
| Floats1 (v : vector)
| Ints1 (y : nat -> Z).

Definition loc := nat.

(** The cells, and whether every float computed so far is a real
    number: a numpy division by the integer zero goes on with nan or
    inf, which is recorded here, and the entries it computes from then
    on have no meaning. *)
Record state : Type := mkState { cells : list obj; finite : bool }.

Inductive result (A : Type) : Type :=
| Val (a : A)
| Exc (e : exn).

Arguments Val {A} a.
Arguments Exc {A} e.

Definition M (A : Type) : Type := state -> result A * state.

Definition ret {A : Type} (a : A) : M A := fun s => (Val a, s).

Definition raise {A : Type} (e : exn) : M A := fun s => (Exc e, s).

Definition bind {A B : Type} (c : M A) (k : A -> M B) : M B :=
  fun s =>
    match c s with
    | (Val a, s') => k a s'
    | (Exc e, s') => (Exc e, s')
    end.

Notation "x <~ c ;; k" := (bind c (fun x => k))
  (at level 61, c at next level, right associativity).

Notation "c ;;; k" := (bind c (fun _ => k))
  (at level 61, right associativity).

(** A new array. *)
Definition alloc (o : obj) : M loc :=
  fun s => (Val (length (cells s)), mkState (cells s ++ [o]) (finite s)).

(** The array that a name is bound to; a name that is bound to no array
    of the wanted kind is a TypeError. *)
Definition load (l : loc) : M obj :=
  fun s =>
    match nth_error (cells s) l with
    | Some o => (Val o, s)
    | None => (Exc TypeError, s)
    end.

Definition load2 (l : loc) : M matrix :=
  o <~ load l ;;
  match o with
  | Floats2 a => ret a
  | _ => raise TypeError
  end.

Definition load1 (l : loc) : M vector :=
  o <~ load l ;;
  match o with
  | Floats1 v => ret v
  | _ => raise TypeError
  end.

Definition loadi (l : loc) : M (nat -> Z) :=
  o <~ load l ;;
  match o with
  | Ints1 y => ret y
  | _ => raise TypeError
  end.

Fixpoint replace (l : nat) (o : obj) (h : list obj) {struct h} : list obj :=
  match h, l with
  | [], _ => []
  | _ :: t, O => o :: t
  | x :: t, S l' => x :: replace l' o t
  end.

(** An in-place write of the array at [l]. *)
Definition store (l : loc) (o : obj) : M unit :=
  fun s =>
    if Nat.ltb l (length (cells s))
    then (Val tt, mkState (replace l o (cells s)) (finite s))
    else (Exc TypeError, s).

(** A primitive that returns or raises. *)
Definition lift {A : Type} (o : outcome A) (nan : A) : M A :=
  fun s =>
    match o with
    | Returns a => (Val a, s)
    | Raises e => (Exc e, s)
    | NonFinite => (Val nan, mkState (cells s) false)
    end.

(** A numpy float or float array divided by the integer [n]; the
    division by zero goes on, with entries that are not real numbers. *)
Definition div_int {A : Type} (a : A) (n : nat) (q : A -> R -> A) : M A :=
  lift (np_div_int a n q) (q a (INR n)).

Fixpoint for_range {St : Type} (n : nat) (body : nat -> St -> M St) (s : St)
  : M St :=
  match n with
  | O => ret s
  | S m => s' <~ for_range m body s ;; body m s'
  end.

(** What the caller sees of a run. *)
Definition run {A : Type} (c : M A) (s : state) : outcome A * list obj :=
  match c s with
  | (Val a, s') =>
      (if finite s' then Returns a else NonFinite, cells s')
  | (Exc e, s') => (Raises e, cells s')
  end.

Section Objectives.

Variables K D N : nat.
Variables W X y : loc.
Variable reg : R.

(** [np.sum(W * W)]. *)
Definition sum_sq : M R :=
  Wv <~ load2 W ;;
  ret (np_sum2 K D (fun k d => Wv k d * Wv k d)).

(** *** loss_grad_softmax_naive *)

(** The body of the loop over the samples, lines 25 to 45; [grad] is
    the array that the function accumulates into. *)
Definition naive_sample (grad : loc) (i : nat) (loss : R) : M R :=
  let num_classes := K in
  (* sample_x = X[:, i] is a view of X *)
  let sample_x : M vector := Xv <~ load2 X ;; ret (fun d => Xv d i) in
  scores <~ alloc (Floats1 (fun _ => 0)) ;;
  for_range num_classes
    (fun cls _ =>
       (* w = W[cls, :] is a view of W *)
       w <~ (Wv <~ load2 W ;; ret (Wv cls)) ;;
       x <~ sample_x ;;
       s <~ load1 scores ;;
       store scores (Floats1 (setitem s cls (vdot D w x))))
    tt ;;;
  s <~ load1 scores ;;
  m <~ lift (np_max num_classes s) 0 ;;
  store scores (Floats1 (fun k => s k - m)) ;;;
  yv <~ loadi y ;;
  let correct_class := yv i in
  s <~ load1 scores ;;
  let sum_exp_scores := sum_range num_classes (fun k => exp (s k)) in
  c <~ lift (norm_index num_classes correct_class) O ;;
  let corr_cls_exp_score := exp (s c) in
  let loss_x := - ln (corr_cls_exp_score / sum_exp_scores) in
  let loss := loss + loss_x in
  percent_exp_score <~
    alloc (Floats1 (fun k => exp (s k) / sum_exp_scores)) ;;
  for_range num_classes
    (fun j _ =>
       p <~ load1 percent_exp_score ;;
       x <~ sample_x ;;
       g <~ load2 grad ;;
       store grad (Floats2 (setrow g j (fun d => g j d + p j * x d))))
    tt ;;;
  x <~ sample_x ;;
  g <~ load2 grad ;;
  store grad (Floats2 (setrow g c (fun d => g c d - x d))) ;;;
  ret loss.

Definition loss_grad_softmax_naive : M (R * loc) :=
  let loss := 0 in
  load2 W ;;;
  grad <~ alloc (Floats2 (fun _ _ => 0)) ;;
  load2 X ;;;
  let num_train := N in
  loss <~ for_range num_train (naive_sample grad) loss ;;
  loss <~ lift (py_div loss num_train) 0 ;;
  r <~ sum_sq ;;
  let loss := loss + 0.5 * reg * r in
  g <~ load2 grad ;;
  g <~ div_int g num_train (fun g n k d => g k d / n) ;;
  store grad (Floats2 g) ;;;
  g <~ load2 grad ;;
  Wv <~ load2 W ;;
  store grad (Floats2 (fun k d => g k d + reg * Wv k d)) ;;;
  ret (loss, grad).

(** *** loss_grad_softmax_vectorized *)

Definition loss_grad_softmax_vectorized : M (R * loc) :=
  load2 W ;;;
  grad <~ alloc (Floats2 (fun _ _ => 0)) ;;
  load2 X ;;;
  let num_train := N in
  Wv <~ load2 W ;;
  Xv <~ load2 X ;;
  scores <~ alloc (Floats2 (dot D Wv Xv)) ;;
  s <~ load2 scores ;;
  m <~ lift (np_max2 K num_train s) 0 ;;
  store scores (Floats2 (fun k n => s k n - m)) ;;;
  s <~ load2 scores ;;
  scores_exp <~ alloc (Floats2 (fun k n => exp (s k n))) ;;
  e <~ load2 scores_exp ;;
  yv <~ loadi y ;;
  rows <~ lift (index_rows K num_train yv) (fun _ => O) ;;
  correct_scores_exp <~ alloc (Floats1 (take_pairs e rows)) ;;
  scores_exp_sum <~ alloc (Floats1 (np_sum_axis0 K e)) ;;
  c <~ load1 correct_scores_exp ;;
  z <~ load1 scores_exp_sum ;;
  let loss := - sum_range num_train (fun n => ln (c n / z n)) in
  loss <~ div_int loss num_train Rdiv ;;
  r <~ sum_sq ;;
  let loss := loss + 0.5 * reg * r in
  scores_exp_normalized <~ alloc (Floats2 (fun k n => e k n / z n)) ;;
  p <~ load2 scores_exp_normalized ;;
  yv <~ loadi y ;;
  rows <~ lift (index_rows K num_train yv) (fun _ => O) ;;
  store scores_exp_normalized
    (Floats2 (put_pairs num_train p rows (fun n => take_pairs p rows n - 1))) ;;;
  p <~ load2 scores_exp_normalized ;;
  (* X.T is a view of X *)
  xt <~ (Xv <~ load2 X ;; ret (transpose Xv)) ;;
  grad <~ alloc (Floats2 (dot num_train p xt)) ;;
  g <~ load2 grad ;;
  g <~ div_int g num_train (fun g n k d => g k d / n) ;;
  store grad (Floats2 g) ;;;
  g <~ load2 grad ;;
  Wv <~ load2 W ;;
  store grad (Floats2 (fun k d => g k d + reg * Wv k d)) ;;;
  ret (loss, grad).

(** *** loss_grad_svm_vectorized *)

Definition loss_grad_svm_vectorized : M (R * loc) :=
  load2 W ;;;
  dW <~ alloc (Floats2 (fun _ _ => 0)) ;;
  let delta := 1 in
  loadi y ;;;
  let num_train := N in
  Wv <~ load2 W ;;
  Xv <~ load2 X ;;
  scores_mat <~ alloc (Floats2 (dot D Wv Xv)) ;;
  sm <~ load2 scores_mat ;;
  yv <~ loadi y ;;
  rows <~ lift (index_rows K num_train yv) (fun _ => O) ;;
  correct_class_score <~ alloc (Floats1 (take_pairs sm rows)) ;;
  c <~ load1 correct_class_score ;;
  margins_mat <~ alloc (Floats2 (fun k n => sm k n - c n + delta)) ;;
  mm <~ load2 margins_mat ;;
  margins_mat <~ alloc (Floats2 (fun k n => Rmax 0 (mm k n))) ;;
  mm <~ load2 margins_mat ;;
  yv <~ loadi y ;;
  rows <~ lift (index_rows K num_train yv) (fun _ => O) ;;
  store margins_mat (Floats2 (put_pairs num_train mm rows (fun _ => 0))) ;;;
  mm <~ load2 margins_mat ;;
  loss <~ div_int (np_sum2 K num_train mm) num_train Rdiv ;;
  r <~ sum_sq ;;
  let loss := loss + 0.5 * reg * r in
  scores_mat_grad <~ alloc (Floats2 (fun _ _ => 0)) ;;
  let positive : nat -> nat -> bool := fun k n => gt0 (mm k n) in
  let num_pos : nat -> nat := fun n => count_true K (fun k => positive k n) in
  g <~ load2 scores_mat_grad ;;
  store scores_mat_grad
    (Floats2 (fun k n => if positive k n then 1 else g k n)) ;;;
  g <~ load2 scores_mat_grad ;;
  yv <~ loadi y ;;
  rows <~ lift (index_rows K num_train yv) (fun _ => O) ;;
  store scores_mat_grad
    (Floats2 (put_pairs num_train g rows (fun n => -1 * INR (num_pos n)))) ;;;
  g <~ load2 scores_mat_grad ;;
  xt <~ (Xv <~ load2 X ;; ret (transpose Xv)) ;;
  q <~ div_int (dot num_train g xt) num_train (fun g n k d => g k d / n) ;;
  Wv <~ load2 W ;;
  dW <~ alloc (Floats2 (fun k d => q k d + reg * Wv k d)) ;;
  ret (loss, dW).

End Objectives.

End Store.

(** The cells below [n] are in [s'] what they are in [s], and no cell
    has gone. *)
Definition unchanged_below (n : nat) (s s' : Store.state) : Prop :=
  (length (Store.cells s) <= length (Store.cells s'))%nat /\
  forall l, (l < n)%nat ->
    nth_error (Store.cells s') l = nth_error (Store.cells s) l.

(** A computation that, started in a store of at least [n] cells, leaves
    the cells below [n] as they are, and whose value, when it has one,
    satisfies [Q]. *)
Definition frames {A : Type} (n : nat) (c : Store.M A) (Q : A -> Prop) : Prop :=
  forall s, (n <= length (Store.cells s))%nat ->
    unchanged_below n s (snd (c s)) /\
    match fst (c s) with
    | Store.Val a => Q a
    | Store.Exc _ => True
    end.

(** The three functions over the store, each with the function on the
    values, and a store of the caller that holds the arrays of the
    concrete input in its cells 0, 1 and 2. *)
Definition objectives
  : list ((nat -> nat -> nat -> Store.loc -> Store.loc -> Store.loc -> R ->
           Store.M (R * Store.loc)) *
          (nat -> nat -> nat -> matrix -> matrix -> (nat -> Z) -> R ->
           outcome (R * matrix))) :=
  [(Store.loss_grad_softmax_naive, loss_grad_softmax_naive);
   (Store.loss_grad_softmax_vectorized, loss_grad_softmax_vectorized);
   (Store.loss_grad_svm_vectorized, loss_grad_svm_vectorized)].

Definition store0 : Store.state :=
  Store.mkState [Store.Floats2 W0; Store.Floats2 X0; Store.Ints1 y0] true.

(** A run over the store agrees with a call on the values: the same
    exception, the same loss and, in the cell that is returned, the same
    gradient. *)
Definition agrees (o : outcome (R * matrix))
  (r : outcome (R * Store.loc) * list Store.obj) : Prop :=
  match o, fst r with
  | Returns (l, G), Returns (l', g) =>
      l = l' /\ nth_error (snd r) g = Some (Store.Floats2 G)
  | Raises e, Raises e' => e = e'
  | NonFinite, NonFinite => True
  | _, _ => False
  end.

(** A store in four parts: the cells of the caller, the gradient that
    the loop form accumulates, the cells of the rounds that are over, and
    the cells of the present round. *)
Definition st3 (h : list Store.obj) (G : matrix) (junk ext : list Store.obj)
  (fin : bool) : Store.state :=
  Store.mkState (h ++ Store.Floats2 G :: junk ++ ext) fin.

(** ** Comparing two calls *)

(** Two calls end in the same way: both return, with the same loss and
    the same gradient on the entries of an (r, c) array, or both raise
    the same exception, or both divide a numpy float by zero. *)
Definition same_outcome (r c : nat) (o o' : outcome (R * matrix)) : Prop :=
  match o, o' with
  | Returns (l, g), Returns (l', g') => l = l' /\ mat_eq r c g g'
  | Raises e, Raises e' => e = e'
  | NonFinite, NonFinite => True
  | _, _ => False
  end.

(** The loss of a call that returns. *)
Definition loss_of (o : outcome (R * matrix)) : R :=
  match o with
  | Returns (l, _) => l
  | _ => 0
  end.

(** [W + v] with the row [v] broadcast over the rows of [W],
    [W + t * V], and [np.sum(A * B)] of two (r, c) arrays. *)
Definition add_row (W : matrix) (v : vector) : matrix :=
  fun k d => W k d + v d.

Definition add_scaled (W V : matrix) (t : R) : matrix :=
  fun k d => W k d + t * V k d.

Definition inner (r c : nat) (A B : matrix) : R :=
  np_sum2 r c (fun i j => A i j * B i j).

(** ** The three functions over binary64 *)

(** The arrays of the source hold binary64 numbers.  Module [F64] gives
    the three functions again with the arithmetic of binary64, rounding
    to nearest with ties to even, overflow to inf, underflow to 0 and nan
    included: the operations [+], [-], [*], [/] and the comparisons are
    those of IEEE 754 as the standard library specifies them.  A sum is
    taken in index order from [0.0], a two-dimensional array row by row;
    numpy adds longer arrays pairwise and BLAS may order a product
    differently, which changes roundings only.  [np.exp] and [np.log] are
    the functions of the platform's libm: their values at 0, 1, the
    infinities and nan, and the underflow and the overflow of [exp], are
    those of every IEEE libm; elsewhere they are the parameters
    [libm_exp] and [libm_log], of which nothing is assumed. *)
Module F64.

Definition float : Type := spec_float.
Definition fvector : Type := nat -> float.
Definition fmatrix : Type := nat -> nat -> float.

Definition prec : Z := 53.
Definition emax : Z := 1024.

Definition nan : float := S754_nan.
Definition zero : float := S754_zero false.
Definition inf : float := S754_infinity false.

(** An integer as a binary64 number, exact below [2^53]. *)
Definition of_int (z : Z) : float := binary_normalize prec emax z 0 false.

Definition one : float := of_int 1.

Definition add : float -> float -> float := SFadd prec emax.
Definition sub : float -> float -> float := SFsub prec emax.
Definition mul : float -> float -> float := SFmul prec emax.
Definition div : float -> float -> float := SFdiv prec emax.
Definition neg : float -> float := SFopp.

(** The Python float [0.5]. *)
Definition half : float := div one (of_int 2).

(** [x > y] and [x >= y]; both are False when an argument is nan. *)
Definition gt (x y : float) : bool := SFltb y x.
Definition ge (x y : float) : bool := SFleb y x.

Definition is_finite (x : float) : bool :=
  match x with
  | S754_zero _ | S754_finite _ _ _ => true
  | S754_infinity _ | S754_nan => false
  end.

(** [np.maximum(x, y)]: nan when an argument is nan. *)
Definition maximum (x y : float) : float :=
  match SFcompare x y with
  | None => nan
  | Some Lt => y
  | Some _ => x
  end.

(** [a[i] = x], [A[i, :] = r], [A[i, j] = x], [A[rows, range(N)]] and
    [A[rows, range(N)] = v]. *)
Definition setitem (a : fvector) (i : nat) (x : float) : fvector :=
  fun k => if Nat.eqb k i then x else a k.

Definition setrow (A : fmatrix) (i : nat) (r : fvector) : fmatrix :=
  fun k => if Nat.eqb k i then r else A k.

Definition setitem2 (A : fmatrix) (i j : nat) (x : float) : fmatrix :=
  fun k n => if Nat.eqb k i && Nat.eqb n j then x else A k n.

Definition take_pairs (A : fmatrix) (rows : nat -> nat) : fvector :=
  fun n => A (rows n) n.

Definition put_pairs (N : nat) (A : fmatrix) (rows : nat -> nat) (v : fvector)
  : fmatrix :=
  for_range N (fun n A => setitem2 A (rows n) n (v n)) A.

(** [np.sum] of a vector, of an (r, c) array, and along axis 0. *)
Fixpoint sum_range (n : nat) (f : nat -> float) : float :=
  match n with
  | O => zero
  | S m => add (sum_range m f) (f m)
  end.

Definition np_sum2 (r c : nat) (A : fmatrix) : float :=
  for_range r
    (fun i acc => for_range c (fun j acc => add acc (A i j)) acc) zero.

Definition np_sum_axis0 (r : nat) (A : fmatrix) : fvector :=
  fun j => sum_range r (fun i => A i j).

(** [np.max], which raises ValueError on an array without entries. *)
Fixpoint max_range (n : nat) (f : nat -> float) : float :=
  match n with
  | O => f O
  | S O => f O
  | S m => maximum (max_range m f) (f m)
  end.

Definition np_max (n : nat) (a : fvector) : outcome float :=
  if Nat.eqb n 0 then Raises ValueError else Returns (max_range n a).

Definition np_max2 (r c : nat) (A : fmatrix) : outcome float :=
  if Nat.eqb (r * c) 0 then Raises ValueError
  else Returns (max_range r (fun i => max_range c (A i))).

Definition vdot (d : nat) (w x : fvector) : float :=
  sum_range d (fun k => mul (w k) (x k)).

Definition dot (d : nat) (A B : fmatrix) : fmatrix :=
  fun i j => sum_range d (fun k => mul (A i k) (B k j)).

Definition transpose (A : fmatrix) : fmatrix := fun i j => A j i.

Section Objectives.

Variables libm_exp libm_log : float -> float.
Variables K D N : nat.
Variable W : fmatrix.     (* shape (K, D) *)
Variable X : fmatrix.     (* shape (D, N) *)
Variable y : nat -> Z.    (* shape (N,)   *)
Variable reg : float.

(** [np.exp]: 1 at a zero, 0 at -746 and below, where [e^x] is less
    than half the least positive binary64 number, inf from 710 on, where
    [e^x] exceeds the greatest. *)
Definition exp (x : float) : float :=
  match x with
  | S754_nan => nan
  | S754_zero _ => one
  | S754_infinity false => inf
  | S754_infinity true => zero
  | S754_finite _ _ _ =>
      if SFleb x (of_int (-746)) then zero
      else if SFleb (of_int 710) x then inf
      else libm_exp x
  end.

(** [np.log]: 0 at 1, -inf at a zero, nan at a negative number. *)
Definition log (x : float) : float :=
  match x with
  | S754_nan => nan
  | S754_zero _ => S754_infinity true
  | S754_infinity false => inf
  | S754_infinity true => nan
  | S754_finite true _ _ => nan
  | S754_finite false _ _ => if SFeqb x one then zero else libm_log x
  end.

(** [0.5 * reg * np.sum(W * W)]. *)
Definition reg_loss : float :=
  mul (mul half reg) (np_sum2 K D (fun k d => mul (W k d) (W k d))).

(** *** loss_grad_softmax_naive *)

Definition naive_scores (i : nat) : fvector :=
  let sample_x : fvector := fun d => X d i in
  let num_classes := K in
  let scores : fvector := fun _ => zero in
  for_range num_classes
    (fun cls scores =>
       let w : fvector := W cls in
       setitem scores cls (vdot D w sample_x))
    scores.

Definition naive_sample (i : nat) (acc : float * fmatrix)
  : outcome (float * fmatrix) :=
  let '(loss, grad) := acc in
  let sample_x : fvector := fun d => X d i in
  let num_classes := K in
  let scores := naive_scores i in
  m <- np_max num_classes scores ;;
  let scores : fvector := fun k => sub (scores k) m in
  let correct_class := y i in
  let sum_exp_scores := sum_range num_classes (fun k => exp (scores k)) in
  c <- norm_index num_classes correct_class ;;
  let corr_cls_exp_score := exp (scores c) in
  let loss_x := neg (log (div corr_cls_exp_score sum_exp_scores)) in
  let loss := add loss loss_x in
  let percent_exp_score : fvector :=
    fun k => div (exp (scores k)) sum_exp_scores in
  let grad :=
    for_range num_classes
      (fun j grad =>
         setrow grad j
           (fun d => add (grad j d) (mul (percent_exp_score j) (sample_x d))))
      grad in
  let grad := setrow grad c (fun d => sub (grad c d) (sample_x d)) in
  Returns (loss, grad).

Definition loss_grad_softmax_naive : outcome (float * fmatrix) :=
  let loss := zero in
  let grad : fmatrix := fun _ _ => zero in
  let num_train := N in
  acc <- for_rangeM num_train naive_sample (loss, grad) ;;
  let '(loss, grad) := acc in
  (* [loss] is still the Python int 0 when the loop did not run *)
  loss <- (if Nat.eqb num_train 0 then Raises ZeroDivisionError
           else Returns (div loss (of_int (Z.of_nat num_train)))) ;;
  let loss := add loss reg_loss in
  let grad : fmatrix :=
    fun k d => div (grad k d) (of_int (Z.of_nat num_train)) in
  let grad : fmatrix := fun k d => add (grad k d) (mul reg (W k d)) in
  Returns (loss, grad).

(** *** loss_grad_softmax_vectorized *)

Definition loss_grad_softmax_vectorized : outcome (float * fmatrix) :=
  let num_train := N in
  let scores := dot D W X in
  m <- np_max2 K num_train scores ;;
  let scores : fmatrix := fun k n => sub (scores k n) m in
  let scores_exp : fmatrix := fun k n => exp (scores k n) in
  rows <- index_rows K num_train y ;;
  let correct_scores_exp := take_pairs scores_exp rows in
  let scores_exp_sum := np_sum_axis0 K scores_exp in
  let loss :=
    neg (sum_range num_train
           (fun n => log (div (correct_scores_exp n) (scores_exp_sum n)))) in
  let loss := div loss (of_int (Z.of_nat num_train)) in
  let loss := add loss reg_loss in
  let scores_exp_normalized : fmatrix :=
    fun k n => div (scores_exp k n) (scores_exp_sum n) in
  let scores_exp_normalized :=
    put_pairs num_train scores_exp_normalized rows
      (fun n => sub (take_pairs scores_exp_normalized rows n) one) in
  let grad := dot num_train scores_exp_normalized (transpose X) in
  let grad : fmatrix :=
    fun k d => div (grad k d) (of_int (Z.of_nat num_train)) in
  let grad : fmatrix := fun k d => add (grad k d) (mul reg (W k d)) in
  Returns (loss, grad).

(** *** loss_grad_svm_vectorized *)

Definition loss_grad_svm_vectorized : outcome (float * fmatrix) :=
  let delta := one in
  let num_train := N in
  let scores_mat := dot D W X in
  rows <- index_rows K num_train y ;;
  let correct_class_score := take_pairs scores_mat rows in
  let margins_mat : fmatrix :=
    fun k n => add (sub (scores_mat k n) (correct_class_score n)) delta in
  let margins_mat : fmatrix := fun k n => maximum zero (margins_mat k n) in
  let margins_mat := put_pairs num_train margins_mat rows (fun _ => zero) in
  let loss :=
    div (np_sum2 K num_train margins_mat) (of_int (Z.of_nat num_train)) in
  let loss := add loss reg_loss in
  let scores_mat_grad : fmatrix := fun _ _ => zero in
  let positive : nat -> nat -> bool := fun k n => gt (margins_mat k n) zero in
  let num_pos : nat -> nat :=
    fun n => count_true K (fun k => positive k n) in
  let scores_mat_grad : fmatrix :=
    fun k n => if positive k n then one else scores_mat_grad k n in
  let scores_mat_grad :=
    put_pairs num_train scores_mat_grad rows
      (fun n => of_int (-1 * Z.of_nat (num_pos n))) in
  let dW : fmatrix :=
    fun k d =>
      add (div (dot num_train scores_mat_grad (transpose X) k d)
             (of_int (Z.of_nat num_train)))
        (mul reg (W k d)) in
  Returns (loss, dW).

End Objectives.

(** The loss of a call and one entry of its gradient. *)
Definition result_at (o : outcome (float * fmatrix)) (k d : nat)
  : outcome (float * float) :=
  match o with
  | Returns (loss, grad) => Returns (loss, grad k d)
  | Raises e => Raises e
  | NonFinite => NonFinite
  end.

(** *** Concrete inputs *)

(** W = [[1.0],[0.0]], X = [[1000.0, -2000.0]] and X = [[1000.0, 0.0]],
    with K = 2, D = 1, N = 2. *)
Definition W_1_0 : fmatrix :=
  fun k _ =>
    match k with
    | O => one
    | _ => zero
    end.

Definition X_far : fmatrix :=
  fun _ n =>
    match n with
    | O => of_int 1000
    | _ => of_int (-2000)
    end.

Definition X_1000_0 : fmatrix :=
  fun _ n =>
    match n with
    | O => of_int 1000
    | _ => zero
    end.

(** W = [[1e200],[0.0]] and X = [[1.0]], with K = 2, D = 1, N = 1. *)
Definition W_big : fmatrix :=
  fun k _ =>
    match k with
    | O => of_int (10 ^ 200)
    | _ => zero
    end.

Definition X_one : fmatrix := fun _ _ => one.

End F64.

(** The label vector y = [0, 1]. *)
Definition y01 : nat -> Z := fun n => Z.of_nat n.

(** K = 2, D = 1, N = 2, X = [[1000, -2000]], for W = [[1],[0]] and
    y = [0, 1]: the maxima of the two samples differ from the maximum
    of the batch. *)
Definition X_far : matrix :=
  fun _ n =>
    match n with
    | O => 1000
    | _ => -2000
    end.

(** * Properties *)

(** ** Sums, maxima and loops *)

Lemma sum_range_ext n f g :
  (forall i, (i < n)%nat -> f i = g i) -> sum_range n f = sum_range n g.
Proof.
  induction n as [|n IH]; intros E; simpl.
  - reflexivity.
  - rewrite IH by (intros; apply E; lia). rewrite E by lia. reflexivity.
Qed.

Lemma sum_range_plus n f g :
  sum_range n (fun i => f i + g i) = sum_range n f + sum_range n g.
Proof. induction n as [|n IH]; simpl; [|rewrite IH]; lra. Qed.

Lemma sum_range_minus n f g :
  sum_range n (fun i => f i - g i) = sum_range n f - sum_range n g.
Proof. induction n as [|n IH]; simpl; [|rewrite IH]; lra. Qed.

Lemma sum_range_opp n f :
  - sum_range n f = sum_range n (fun i => - f i).
Proof. induction n as [|n IH]; simpl; [|rewrite <- IH]; lra. Qed.

Lemma sum_range_scal_l n c f :
  sum_range n (fun i => c * f i) = c * sum_range n f.
Proof. induction n as [|n IH]; simpl; [|rewrite IH]; lra. Qed.

Lemma sum_range_scal_r n c f :
  sum_range n (fun i => f i * c) = sum_range n f * c.
Proof. induction n as [|n IH]; simpl; [|rewrite IH]; lra. Qed.

Lemma sum_range_zero n f :
  (forall i, (i < n)%nat -> f i = 0) -> sum_range n f = 0.
Proof.
  induction n as [|n IH]; intros E; simpl.
  - reflexivity.
  - rewrite IH by (intros; apply E; lia). rewrite E by lia. lra.
Qed.

Lemma sum_range_nonneg n f :
  (forall i, (i < n)%nat -> 0 <= f i) -> 0 <= sum_range n f.
Proof.
  induction n as [|n IH]; intros E; simpl.
  - lra.
  - specialize (IH (fun i Hi => E i (Nat.lt_lt_succ_r _ _ Hi))).
    specialize (E n (Nat.lt_succ_diag_r n)). lra.
Qed.

Lemma sum_range_pos n f :
  (1 <= n)%nat -> (forall i, (i < n)%nat -> 0 < f i) -> 0 < sum_range n f.
Proof.
  intros Hn E. destruct n as [|n]; [lia|]. simpl.
  assert (0 <= sum_range n f).
  { apply sum_range_nonneg. intros i Hi. left. apply E. lia. }
  specialize (E n (Nat.lt_succ_diag_r n)). lra.
Qed.

Lemma sum_range_le_term n f k :
  (forall i, (i < n)%nat -> 0 <= f i) -> (k < n)%nat -> f k <= sum_range n f.
Proof.
  induction n as [|n IH]; intros E Hk; [lia|]. simpl.
  assert (0 <= sum_range n f).
  { apply sum_range_nonneg. intros i Hi. apply E. lia. }
  destruct (Nat.eq_dec k n) as [->|Hne].
  - lra.
  - assert (f k <= sum_range n f) by (apply IH; [intros; apply E|]; lia).
    specialize (E n (Nat.lt_succ_diag_r n)). lra.
Qed.

(** Exchange of the two sums of a double sum. *)
Lemma sum_range_swap r c (A : matrix) :
  sum_range r (fun i => sum_range c (fun j => A i j)) =
  sum_range c (fun j => sum_range r (fun i => A i j)).
Proof.
  induction r as [|r IH]; simpl.
  - symmetry. apply sum_range_zero. reflexivity.
  - rewrite IH. rewrite <- sum_range_plus. reflexivity.
Qed.

(** A sum that meets an indicator of one index keeps one term. *)
Lemma sum_range_single n k f :
  (k < n)%nat ->
  sum_range n (fun i => if Nat.eqb i k then f i else 0) = f k.
Proof.
  induction n as [|n IH]; intros Hk; [lia|]. simpl.
  destruct (Nat.eqb_spec n k) as [->|Hne].
  - rewrite sum_range_zero; [lra|].
    intros i Hi. destruct (Nat.eqb_spec i k); [lia|reflexivity].
  - rewrite IH by lia. lra.
Qed.

Lemma sum_range_single_out n k f :
  (n <= k)%nat ->
  sum_range n (fun i => if Nat.eqb i k then f i else 0) = 0.
Proof.
  intros Hk. apply sum_range_zero.
  intros i Hi. destruct (Nat.eqb_spec i k); [lia|reflexivity].
Qed.

Lemma count_true_ext n p q :
  (forall i, (i < n)%nat -> p i = q i) -> count_true n p = count_true n q.
Proof.
  induction n as [|n IH]; intros E; simpl.
  - reflexivity.
  - rewrite IH by (intros; apply E; lia). rewrite E by lia. reflexivity.
Qed.

Lemma max_range_ge n f i : (i < n)%nat -> f i <= max_range n f.
Proof.
  induction n as [|n IH]; intros Hi; [lia|].
  destruct n as [|n].
  - assert (i = 0)%nat as -> by lia. simpl. lra.
  - change (max_range (S (S n)) f) with (Rmax (max_range (S n) f) (f (S n))).
    destruct (Nat.eq_dec i (S n)) as [->|Hne].
    + apply Rmax_r.
    + eapply Rle_trans; [apply IH; lia|apply Rmax_l].
Qed.

Lemma max_range_attained n f :
  (1 <= n)%nat -> exists i, (i < n)%nat /\ max_range n f = f i.
Proof.
  induction n as [|n IH]; intros Hn; [lia|].
  destruct n as [|n].
  - exists 0%nat. split; [lia|reflexivity].
  - change (max_range (S (S n)) f) with (Rmax (max_range (S n) f) (f (S n))).
    destruct (IH ltac:(lia)) as [i [Hi E]].
    destruct (Rmax_case (max_range (S n) f) (f (S n))
                (fun m => m = max_range (S n) f \/ m = f (S n))) as [H|H];
      auto.
    + exists i. split; [lia|]. rewrite H. exact E.
    + exists (S n). split; [lia|exact H].
Qed.

Lemma for_rangeM_returns {St : Type} n (body : nat -> St -> outcome St)
      (step : nat -> St -> St) s :
  (forall i t, (i < n)%nat -> body i t = Returns (step i t)) ->
  for_rangeM n body s = Returns (for_range n step s).
Proof.
  induction n as [|n IH]; intros E; simpl.
  - reflexivity.
  - rewrite IH by (intros; apply E; lia). simpl. apply E. lia.
Qed.

(** A loop whose body raises in round [i] and returns before raises. *)
Lemma for_rangeM_raises {St : Type} n (body : nat -> St -> outcome St)
      (step : nat -> St -> St) s i e :
  (i < n)%nat ->
  (forall j t, (j < i)%nat -> body j t = Returns (step j t)) ->
  (forall t, body i t = Raises e) ->
  for_rangeM n body s = Raises e.
Proof.
  intros Hi Hbefore Hat.
  induction n as [|n IH]; [lia|]. simpl.
  destruct (Nat.eq_dec i n) as [->|Hne].
  - rewrite (for_rangeM_returns n body step) by exact Hbefore.
    simpl. apply Hat.
  - rewrite IH by lia. reflexivity.
Qed.

(** The entries of an array after the writes of a loop. *)
Lemma setitem_loop n (g : nat -> R) (a : vector) k :
  for_range n (fun i a => setitem a i (g i)) a k =
  if Nat.ltb k n then g k else a k.
Proof.
  induction n as [|n IH]; simpl.
  - reflexivity.
  - unfold setitem at 1. rewrite IH.
    destruct (Nat.eqb_spec k n) as [E|Hne];
      destruct (Nat.ltb_spec k n), (Nat.ltb_spec k (S n)); try lia;
      try reflexivity.
    subst k. reflexivity.
Qed.

Lemma setrow_loop n (p x : vector) (A : matrix) k d :
  for_range n (fun j A => setrow A j (fun d => A j d + p j * x d)) A k d =
  if Nat.ltb k n then A k d + p k * x d else A k d.
Proof.
  induction n as [|n IH] in k, d |- *; simpl.
  - reflexivity.
  - unfold setrow at 1.
    destruct (Nat.eqb_spec k n) as [E|Hne].
    + subst k. rewrite IH. rewrite Nat.ltb_irrefl.
      destruct (Nat.ltb_spec n (S n)); [reflexivity|lia].
    + rewrite IH.
      destruct (Nat.ltb_spec k n), (Nat.ltb_spec k (S n)); try lia; reflexivity.
Qed.

Lemma put_pairs_spec N (A : matrix) rows v k n :
  put_pairs N A rows v k n =
  if Nat.ltb n N && Nat.eqb k (rows n) then v n else A k n.
Proof.
  unfold put_pairs. induction N as [|N IH]; simpl.
  - reflexivity.
  - unfold setitem2 at 1. rewrite IH.
    destruct (Nat.eqb_spec n N) as [E|Hne].
    + subst n. rewrite Nat.ltb_irrefl. simpl.
      destruct (Nat.ltb_spec N (S N)); [|lia]. simpl.
      rewrite andb_true_r. reflexivity.
    + rewrite andb_false_r.
      destruct (Nat.ltb_spec n N), (Nat.ltb_spec n (S N)); try lia; reflexivity.
Qed.

(** ** Labels as indices *)

Lemma in_bounds_label K z :
  (0 <= z < Z.of_nat K)%Z -> in_bounds K z = true.
Proof.
  intros H. unfold in_bounds. apply andb_true_iff. split.
  - apply Z.leb_le. lia.
  - apply Z.ltb_lt. lia.
Qed.

Lemma wrap_label K z : (0 <= z)%Z -> wrap K z = Z.to_nat z.
Proof.
  intros H. unfold wrap. destruct (Z.ltb_spec z 0); [lia|reflexivity].
Qed.

Lemma norm_index_label K z :
  (0 <= z < Z.of_nat K)%Z -> norm_index K z = Returns (Z.to_nat z).
Proof.
  intros H. unfold norm_index.
  rewrite in_bounds_label by exact H. rewrite wrap_label by lia. reflexivity.
Qed.

Lemma norm_index_in_bounds K z :
  in_bounds K z = true -> norm_index K z = Returns (wrap K z).
Proof. intros H. unfold norm_index. rewrite H. reflexivity. Qed.

Lemma wrap_lt K z : in_bounds K z = true -> (wrap K z < K)%nat.
Proof.
  unfold in_bounds, wrap. intros H. apply andb_true_iff in H as [H1 H2].
  apply Z.leb_le in H1. apply Z.ltb_lt in H2.
  destruct (Z.ltb_spec z 0); lia.
Qed.

Lemma index_rows_in_bounds K N y :
  (forall n, (n < N)%nat -> in_bounds K (y n) = true) ->
  index_rows K N y = Returns (fun n => wrap K (y n)).
Proof.
  intros H. unfold index_rows.
  replace (forallb (fun n => in_bounds K (y n)) (seq 0 N)) with true;
    [reflexivity|].
  symmetry. apply forallb_forall. intros n Hn.
  apply in_seq in Hn. apply H. lia.
Qed.

Lemma index_rows_out K N y n :
  (n < N)%nat -> in_bounds K (y n) = false ->
  index_rows K N y = Raises IndexError.
Proof.
  intros Hn Hout. unfold index_rows.
  destruct (forallb (fun n => in_bounds K (y n)) (seq 0 N)) eqn:E;
    [|reflexivity].
  rewrite forallb_forall in E.
  rewrite E in Hout by (apply in_seq; lia). discriminate.
Qed.

Lemma label_lt K N y n :
  labels_in_range K N y -> (n < N)%nat -> (label y n < K)%nat.
Proof. intros H Hn. specialize (H n Hn). unfold label. lia. Qed.

Lemma valid_in_bounds K N y reg :
  valid_input K N y reg -> labels_in_bounds K N y.
Proof.
  intros [_ [Hy _]] n Hn. apply in_bounds_label. apply Hy. exact Hn.
Qed.

Lemma row_of_label K N y n :
  labels_in_range K N y -> (n < N)%nat -> row_of K y n = label y n.
Proof.
  intros Hy Hn. unfold row_of, label. apply wrap_label.
  specialize (Hy n Hn). lia.
Qed.

Lemma valid_classes K N y reg : valid_input K N y reg -> (1 <= K)%nat.
Proof.
  intros [HN [Hy _]]. specialize (Hy 0%nat ltac:(lia)). lia.
Qed.

(** ** Softmax of a score vector *)

Lemma sum_exp_pos K (s : vector) :
  (1 <= K)%nat -> 0 < sum_range K (fun j => exp (s j)).
Proof. intros HK. apply sum_range_pos; [exact HK|]. intros. apply exp_pos. Qed.

Lemma softmax_pos K s k : (1 <= K)%nat -> 0 < softmax K s k.
Proof.
  intros HK. unfold softmax. apply Rdiv_lt_0_compat;
    [apply exp_pos|apply sum_exp_pos; exact HK].
Qed.

Lemma softmax_le_1 K s k : (k < K)%nat -> softmax K s k <= 1.
Proof.
  intros Hk. unfold softmax.
  assert (Hs : 0 < sum_range K (fun j => exp (s j))) by (apply sum_exp_pos; lia).
  apply Rmult_le_reg_r with (sum_range K (fun j => exp (s j))); [exact Hs|].
  unfold Rdiv. rewrite Rmult_assoc, Rinv_l by lra. rewrite Rmult_1_r, Rmult_1_l.
  apply (sum_range_le_term K (fun j => exp (s j)) k); [|exact Hk].
  intros. left. apply exp_pos.
Qed.

Lemma softmax_sum_1 K s :
  (1 <= K)%nat -> sum_range K (softmax K s) = 1.
Proof.
  intros HK. unfold softmax, Rdiv. rewrite sum_range_scal_r.
  apply Rinv_r. apply Rgt_not_eq. apply sum_exp_pos. exact HK.
Qed.

(** Subtracting a constant from every score leaves the probabilities as
    they are. *)
Lemma softmax_shift K s c k :
  (1 <= K)%nat -> softmax K (fun j => s j - c) k = softmax K s k.
Proof.
  intros HK. unfold softmax.
  assert (Hs := sum_exp_pos K s HK).
  assert (Hc := exp_pos (- c)).
  rewrite (sum_range_ext K (fun j => exp (s j - c))
             (fun j => exp (s j) * exp (- c))).
  2:{ intros i _. unfold Rminus. apply exp_plus. }
  rewrite sum_range_scal_r. unfold Rminus. rewrite exp_plus.
  field. split; apply Rgt_not_eq; assumption.
Qed.

Lemma softmax_ext K s t k :
  (forall j, (j < K)%nat -> s j = t j) -> s k = t k ->
  softmax K s k = softmax K t k.
Proof.
  intros E Ek. unfold softmax. rewrite Ek.
  rewrite (sum_range_ext K (fun j => exp (s j)) (fun j => exp (t j)));
    [reflexivity|].
  intros i Hi. rewrite E by exact Hi. reflexivity.
Qed.

(** ** What the three functions return *)

Section Returned.

Variables K D N : nat.
Variable W : matrix.
Variable X : matrix.
Variable y : nat -> Z.
Variable reg : R.

Local Abbreviation scores := (scores D W X).
Local Abbreviation prob := (prob K D W X).
Local Abbreviation onehot := (onehot K y).
Local Abbreviation softmax_sample_loss := (softmax_sample_loss K D W X y).
Local Abbreviation softmax_sample_grad := (softmax_sample_grad K D W X y).
Local Abbreviation reg_loss := (reg_loss K D W reg).
Local Abbreviation reg_grad := (reg_grad W reg).
Local Abbreviation mean := (mean N).
Local Abbreviation mean_grad := (mean_grad N).
Local Abbreviation hinge_margin := (hinge_margin K D W X y).
Local Abbreviation hinge_sample_loss := (hinge_sample_loss K D W X y).
Local Abbreviation hinge_num_pos := (hinge_num_pos K D W X y).
Local Abbreviation hinge_indicator := (hinge_indicator K D W X y).
Local Abbreviation hinge_sample_grad := (hinge_sample_grad K D W X y).

Hypothesis HN : (1 <= N)%nat.
Hypothesis Hin : labels_in_bounds K N y.

Lemma classes_pos : (1 <= K)%nat.
Proof.
  assert (H := Hin 0%nat ltac:(lia)). apply wrap_lt in H. lia.
Qed.

Lemma naive_scores_spec i k :
  (k < K)%nat -> naive_scores K D W X i k = scores k i.
Proof.
  intros Hk. unfold naive_scores. rewrite setitem_loop.
  destruct (Nat.ltb_spec k K); [reflexivity|lia].
Qed.

Lemma naive_shifted_softmax i m k :
  (k < K)%nat ->
  softmax K (fun j => naive_scores K D W X i j - m) k = prob k i.
Proof.
  intros Hk. rewrite softmax_shift by lia. unfold prob.
  apply softmax_ext.
  - intros j Hj. apply naive_scores_spec. exact Hj.
  - apply naive_scores_spec. exact Hk.
Qed.

(** What lines 32 to 45 return on scores shifted by any constant. *)
Lemma naive_sample_from_spec i c loss (grad : matrix) :
  (i < N)%nat ->
  exists g,
    naive_sample_from K X y i (fun k => naive_scores K D W X i k - c)
      (loss, grad) =
      Returns (loss + softmax_sample_loss i, g) /\
    forall k d, (k < K)%nat -> g k d = grad k d + softmax_sample_grad i k d.
Proof.
  intros Hi.
  assert (HK := classes_pos).
  assert (Hc : (row_of K y i < K)%nat) by (apply wrap_lt, Hin, Hi).
  unfold naive_sample_from.
  rewrite (norm_index_in_bounds K (y i)) by (apply Hin; exact Hi). simpl.
  fold (row_of K y i).
  assert (Hp : forall j, (j < K)%nat ->
            exp (naive_scores K D W X i j - c) /
            sum_range K (fun k0 => exp (naive_scores K D W X i k0 - c)) =
            prob j i).
  { intros j Hj. apply (naive_shifted_softmax i c j Hj). }
  eexists. split.
  - apply f_equal. apply f_equal2; [|reflexivity].
    apply f_equal. unfold softmax_sample_loss. apply f_equal.
    apply f_equal. apply Hp. exact Hc.
  - intros k d Hk. unfold setrow at 1.
    unfold softmax_sample_grad, onehot.
    destruct (Nat.eqb_spec k (row_of K y i)) as [E|Hne].
    + rewrite setrow_loop. destruct (Nat.ltb_spec (row_of K y i) K); [|lia].
      rewrite Hp by exact Hc. subst k. ring.
    + rewrite setrow_loop. destruct (Nat.ltb_spec k K); [|lia].
      rewrite Hp by exact Hk. ring.
Qed.

Lemma naive_sample_spec i loss (grad : matrix) :
  (i < N)%nat ->
  exists g,
    naive_sample K D W X y i (loss, grad) =
      Returns (loss + softmax_sample_loss i, g) /\
    forall k d, (k < K)%nat -> g k d = grad k d + softmax_sample_grad i k d.
Proof.
  intros Hi.
  assert (HK := classes_pos).
  unfold naive_sample, np_max.
  destruct (Nat.eqb_spec K 0) as [|_]; [lia|]. simpl.
  apply naive_sample_from_spec. exact Hi.
Qed.

Lemma naive_loop_spec n :
  (n <= N)%nat ->
  exists g,
    for_rangeM n (naive_sample K D W X y) (0, fun _ _ => 0) =
      Returns (sum_range n softmax_sample_loss, g) /\
    forall k d, (k < K)%nat ->
      g k d = sum_range n (fun i => softmax_sample_grad i k d).
Proof.
  induction n as [|n IH]; intros Hn.
  - exists (fun _ _ => 0). split; reflexivity.
  - destruct (IH ltac:(lia)) as [g [Hrun Hg]].
    destruct (naive_sample_spec n (sum_range n softmax_sample_loss) g
                ltac:(lia)) as [g' [Hstep Hg']].
    exists g'. split.
    + simpl. rewrite Hrun. simpl. exact Hstep.
    + intros k d Hk. simpl. rewrite Hg', Hg by exact Hk. reflexivity.
Qed.

(** What [loss_grad_softmax_naive] returns on a valid input. *)
Lemma naive_spec :
  exists g,
    loss_grad_softmax_naive K D N W X y reg =
      Returns (mean softmax_sample_loss + reg_loss, g) /\
    mat_eq K D g
      (fun k d => mean_grad softmax_sample_grad k d + reg_grad k d).
Proof.
  destruct (naive_loop_spec N (Nat.le_refl N)) as [g [Hrun Hg]].
  unfold loss_grad_softmax_naive, py_div, np_div_int.
  eexists. split.
  - cbv zeta. unfold matrix in *. rewrite Hrun. simpl.
    destruct (Nat.eqb_spec N 0) as [|_]; [lia|]. simpl. reflexivity.
  - intros k d Hk Hd. unfold mean_grad, mean, reg_grad.
    rewrite Hg by exact Hk. reflexivity.
Qed.

Lemma index_rows_valid :
  index_rows K N y = Returns (fun n => wrap K (y n)).
Proof.
  apply index_rows_in_bounds. exact Hin.
Qed.

Lemma wrap_valid n : (n < N)%nat -> wrap K (y n) = row_of K y n.
Proof.
  reflexivity.
Qed.

(** What lines 62 to 74 return on scores shifted by any constant. *)
Lemma vectorized_from_spec c :
  exists g,
    softmax_vectorized_from K D N W X y reg (fun k n => scores k n - c) =
      Returns (mean softmax_sample_loss + reg_loss, g) /\
    mat_eq K D g
      (fun k d => mean_grad softmax_sample_grad k d + reg_grad k d).
Proof.
  assert (HK := classes_pos).
  assert (Hp : forall k n,
             exp (scores k n - c) /
             sum_range K (fun j => exp (scores j n - c)) = prob k n).
  { intros k n. apply (softmax_shift K (fun j => scores j n) c k HK). }
  unfold softmax_vectorized_from, np_div_int.
  eexists. split.
  - cbv zeta. rewrite index_rows_valid. simpl.
    destruct (Nat.eqb_spec N 0) as [|_]; [lia|]. simpl.
    apply f_equal. apply f_equal2; [|reflexivity].
    apply f_equal2; [|reflexivity].
    unfold mean. apply f_equal2; [|reflexivity].
    rewrite sum_range_opp.
    apply sum_range_ext. intros n Hn.
    unfold softmax_sample_loss, take_pairs, np_sum_axis0.
    rewrite wrap_valid by exact Hn. rewrite Hp. reflexivity.
  - intros k d Hk Hd. unfold mean_grad, mean, reg_grad, dot, transpose.
    apply f_equal2; [|reflexivity]. apply f_equal2; [|reflexivity].
    apply sum_range_ext. intros n Hn.
    rewrite put_pairs_spec. unfold take_pairs, np_sum_axis0.
    unfold softmax_sample_grad, onehot.
    destruct (Nat.ltb_spec n N); [|lia]. simpl.
    rewrite wrap_valid by exact Hn.
    destruct (Nat.eqb_spec k (row_of K y n)) as [E|Hne].
    + rewrite Hp. subst k. reflexivity.
    + rewrite Hp. rewrite Rminus_0_r. reflexivity.
Qed.

(** What [loss_grad_softmax_vectorized] returns on a valid input. *)
Lemma vectorized_spec :
  exists g,
    loss_grad_softmax_vectorized K D N W X y reg =
      Returns (mean softmax_sample_loss + reg_loss, g) /\
    mat_eq K D g
      (fun k d => mean_grad softmax_sample_grad k d + reg_grad k d).
Proof.
  assert (HK := classes_pos).
  unfold loss_grad_softmax_vectorized, np_max2.
  destruct (Nat.eqb_spec (K * N) 0) as [E|_]; [nia|]. simpl.
  apply vectorized_from_spec.
Qed.

Lemma gt0_zero : gt0 0 = false.
Proof. unfold gt0. destruct (Rlt_dec 0 0); [lra|reflexivity]. Qed.

Lemma svm_margins_spec k n :
  (n < N)%nat ->
  svm_margins D N W X (fun n => wrap K (y n)) k n = hinge_margin k n.
Proof.
  intros Hn. unfold svm_margins. rewrite put_pairs_spec.
  unfold take_pairs, hinge_margin. rewrite wrap_valid by exact Hn.
  destruct (Nat.ltb_spec n N); [|lia]. simpl.
  destruct (Nat.eqb_spec k (row_of K y n)); reflexivity.
Qed.

Lemma svm_num_pos_spec n :
  (n < N)%nat ->
  count_true K
    (fun k => gt0 (svm_margins D N W X (fun n => wrap K (y n)) k n)) =
  hinge_num_pos n.
Proof.
  intros Hn. unfold hinge_num_pos. apply count_true_ext. intros k _.
  rewrite svm_margins_spec by exact Hn. unfold hinge_margin.
  destruct (Nat.eqb_spec k (row_of K y n)); simpl;
    [apply gt0_zero|reflexivity].
Qed.

Lemma svm_indicator_spec k n :
  (n < N)%nat ->
  svm_indicator K D N W X (fun n => wrap K (y n)) k n = hinge_indicator k n.
Proof.
  intros Hn. unfold svm_indicator. rewrite put_pairs_spec.
  unfold hinge_indicator. rewrite wrap_valid by exact Hn.
  destruct (Nat.ltb_spec n N); [|lia]. simpl.
  destruct (Nat.eqb_spec k (row_of K y n)).
  - rewrite svm_num_pos_spec by exact Hn. ring.
  - rewrite svm_margins_spec by exact Hn. reflexivity.
Qed.

(** What [loss_grad_svm_vectorized] returns on a valid input. *)
Lemma svm_spec :
  exists g,
    loss_grad_svm_vectorized K D N W X y reg =
      Returns (mean hinge_sample_loss + reg_loss, g) /\
    mat_eq K D g
      (fun k d => mean_grad hinge_sample_grad k d + reg_grad k d).
Proof.
  unfold loss_grad_svm_vectorized, np_div_int.
  eexists. split.
  - cbv zeta. rewrite index_rows_valid. simpl.
    destruct (Nat.eqb_spec N 0) as [|_]; [lia|]. simpl.
    apply f_equal. apply f_equal2; [|reflexivity].
    apply f_equal2; [|reflexivity].
    unfold mean. apply f_equal2; [|reflexivity].
    unfold np_sum2. rewrite sum_range_swap.
    apply sum_range_ext. intros n Hn.
    unfold hinge_sample_loss. apply sum_range_ext. intros k _.
    apply svm_margins_spec. exact Hn.
  - intros k d Hk Hd. unfold mean_grad, mean, reg_grad, dot, transpose.
    apply f_equal2; [|reflexivity]. apply f_equal2; [|reflexivity].
    apply sum_range_ext. intros n Hn.
    rewrite svm_indicator_spec by exact Hn. reflexivity.
Qed.

End Returned.

Lemma valid_input0 : valid_input 3 1 y0 0.
Proof.
  split; [lia|]. split; [|lra].
  intros n _. unfold y0. lia.
Qed.

(** ** Agreement of the two softmax implementations *)

(** In exact real arithmetic the loop form and the vectorized form of
    the softmax objective return, on every valid input, the same loss
    and, entry by entry, the same (K, D) gradient: the naive form
    subtracts the maximum of each sample and the vectorized form one
    maximum of the whole batch, and over the real numbers neither
    changes the result.  This is the half of C1 that concerns exact
    arithmetic; in binary64 the two shifts do not give the same. *)
Theorem softmax_naive_vectorized_agree K D N W X y reg :
  valid_input K N y reg ->
  exists loss g_naive g_vec,
    loss_grad_softmax_naive K D N W X y reg = Returns (loss, g_naive) /\
    loss_grad_softmax_vectorized K D N W X y reg = Returns (loss, g_vec) /\
    mat_eq K D g_naive g_vec.
Proof.
  intros Hv.
  assert (HN : (1 <= N)%nat) by apply Hv.
  assert (Hin := valid_in_bounds _ _ _ _ Hv).
  destruct (naive_spec K D N W X y reg HN Hin) as [g1 [E1 G1]].
  destruct (vectorized_spec K D N W X y reg HN Hin) as [g2 [E2 G2]].
  exists (mean N (softmax_sample_loss K D W X y) + reg_loss K D W reg), g1, g2.
  split; [exact E1|]. split; [exact E2|].
  intros k d Hk Hd. rewrite G1, G2 by assumption. reflexivity.
Qed.

Lemma softmax_naive_vectorized_agree_witness :
  valid_input 2 2 y01 0 /\
  exists loss g_naive g_vec,
    loss_grad_softmax_naive 2 1 2 W1 X_far y01 0 = Returns (loss, g_naive) /\
    loss_grad_softmax_vectorized 2 1 2 W1 X_far y01 0 =
      Returns (loss, g_vec) /\
    mat_eq 2 1 g_naive g_vec.
Proof.
  assert (Hv : valid_input 2 2 y01 0).
  { split; [lia|]. split; [|lra]. intros n Hn. unfold y01. lia. }
  split; [exact Hv|].
  apply (softmax_naive_vectorized_agree 2 1 2 W1 X_far y01 0 Hv).
Defined.

(** ** Invariance under the stabilization shift *)

(** C2.  For every sample and every constant [c], subtracting [c] from
    the scores of the sample leaves its probability vector and its loss
    [-log(p[y[n]])] as they are; lines 32 to 45 of the loop form and lines
    62 to 74 of the vectorized form return on scores shifted by any
    constant what the scores without a shift give, and so do the two
    functions with their shift by the maximum. *)
Theorem softmax_shift_invariant K D N W X y reg :
  valid_input K N y reg ->
  (forall n c k, (n < N)%nat -> (k < K)%nat ->
     let s : vector := fun j => scores D W X j n in
     softmax K (fun j => s j - c) k = softmax K s k /\
     - ln (softmax K (fun j => s j - c) (label y n)) =
       - ln (softmax K s (label y n))) /\
  (forall n c loss grad, (n < N)%nat ->
     exists g,
       naive_sample_from K X y n (fun k => naive_scores K D W X n k - c)
         (loss, grad) =
         Returns (loss + softmax_sample_loss K D W X y n, g) /\
       forall k d, (k < K)%nat ->
         g k d = grad k d + softmax_sample_grad K D W X y n k d) /\
  (forall c,
     exists g,
       softmax_vectorized_from K D N W X y reg
         (fun k n => scores D W X k n - c) =
         Returns (mean N (softmax_sample_loss K D W X y) + reg_loss K D W reg, g) /\
       mat_eq K D g
         (fun k d => mean_grad N (softmax_sample_grad K D W X y) k d +
                     reg_grad W reg k d)) /\
  (exists g_naive g_vec,
     loss_grad_softmax_naive K D N W X y reg =
       Returns (mean N (softmax_sample_loss K D W X y) + reg_loss K D W reg,
                g_naive) /\
     loss_grad_softmax_vectorized K D N W X y reg =
       Returns (mean N (softmax_sample_loss K D W X y) + reg_loss K D W reg,
                g_vec) /\
     mat_eq K D g_naive
       (fun k d => mean_grad N (softmax_sample_grad K D W X y) k d +
                   reg_grad W reg k d) /\
     mat_eq K D g_vec
       (fun k d => mean_grad N (softmax_sample_grad K D W X y) k d +
                   reg_grad W reg k d)).
Proof.
  intros Hv.
  assert (HN : (1 <= N)%nat) by apply Hv.
  assert (HK := valid_classes _ _ _ _ Hv).
  assert (Hin := valid_in_bounds _ _ _ _ Hv).
  repeat split.
  - apply softmax_shift. exact HK.
  - rewrite softmax_shift by exact HK. reflexivity.
  - intros n c loss grad Hn.
    apply (naive_sample_from_spec K D N W X y HN Hin n c loss grad Hn).
  - intros c. apply (vectorized_from_spec K D N W X y reg HN Hin c).
  - destruct (naive_spec K D N W X y reg HN Hin) as [g1 [E1 G1]].
    destruct (vectorized_spec K D N W X y reg HN Hin) as [g2 [E2 G2]].
    exists g1, g2. repeat split; assumption.
Qed.

Lemma softmax_shift_invariant_witness :
  valid_input 3 1 y0 0 /\
  exists g,
    softmax_vectorized_from 3 2 1 W0 X0 y0 0
      (fun k n => scores 2 W0 X0 k n - 5) =
      Returns (mean 1 (softmax_sample_loss 3 2 W0 X0 y0) + reg_loss 3 2 W0 0, g) /\
    mat_eq 3 2 g
      (fun k d => mean_grad 1 (softmax_sample_grad 3 2 W0 X0 y0) k d +
                  reg_grad W0 0 k d).
Proof.
  assert (Hv : valid_input 3 1 y0 0).
  { split; [lia|]. split; [|lra]. intros n _. unfold y0. lia. }
  split; [exact Hv|].
  apply (softmax_shift_invariant 3 2 1 W0 X0 y0 0 Hv).
Defined.

(** ** Signs of the parts of the loss *)

Lemma ln_le_0 x : 0 < x -> x <= 1 -> ln x <= 0.
Proof.
  intros H0 H1. destruct (Rle_lt_or_eq_dec _ _ H1) as [Hlt|Heq].
  - rewrite <- ln_1. left. apply ln_increasing; assumption.
  - rewrite Heq, ln_1. lra.
Qed.

Lemma mean_nonneg N f :
  (forall n, (n < N)%nat -> 0 <= f n) -> 0 <= mean N f.
Proof.
  intros H. unfold mean, Rdiv. apply Rmult_le_pos.
  - apply sum_range_nonneg. exact H.
  - destruct N as [|N].
    + simpl. rewrite Rinv_0. lra.
    + left. apply Rinv_0_lt_compat. apply lt_0_INR. lia.
Qed.

Lemma mean_zero N f :
  (forall n, (n < N)%nat -> f n = 0) -> mean N f = 0.
Proof.
  intros H. unfold mean. rewrite sum_range_zero by exact H.
  unfold Rdiv. apply Rmult_0_l.
Qed.

Lemma sum_sq_nonneg K D W : 0 <= sum_sq K D W.
Proof.
  unfold sum_sq, np_sum2. apply sum_range_nonneg. intros k _.
  apply sum_range_nonneg. intros d _. nra.
Qed.

Lemma reg_loss_nonneg K D W reg : 0 <= reg -> 0 <= reg_loss K D W reg.
Proof.
  intros Hr. unfold reg_loss. assert (H := sum_sq_nonneg K D W). nra.
Qed.

Lemma softmax_sample_loss_nonneg K D N W X y n :
  labels_in_bounds K N y -> (n < N)%nat ->
  0 <= softmax_sample_loss K D W X y n.
Proof.
  intros Hin Hn. unfold softmax_sample_loss, prob.
  assert (Hc : (row_of K y n < K)%nat) by (apply wrap_lt, Hin, Hn).
  assert (ln (softmax K (fun j => scores D W X j n) (row_of K y n)) <= 0).
  { apply ln_le_0; [apply softmax_pos; lia|apply softmax_le_1; exact Hc]. }
  lra.
Qed.

Lemma hinge_margin_nonneg K D W X y k n : 0 <= hinge_margin K D W X y k n.
Proof.
  unfold hinge_margin. destruct (Nat.eqb k (row_of K y n)); [lra|apply Rmax_l].
Qed.

Lemma hinge_sample_loss_nonneg K D W X y n :
  0 <= hinge_sample_loss K D W X y n.
Proof.
  unfold hinge_sample_loss. apply sum_range_nonneg. intros k _.
  apply hinge_margin_nonneg.
Qed.

(** ** The loss is not negative *)

(** C8, as the code has it.  In exact real arithmetic, on every valid
    input with [reg >= 0], each of the three functions returns a loss
    that is at least 0: a cross-entropy term [-log(p[y[n]])] is not
    negative because [p[y[n]] <= 1], a hinge margin is a maximum with 0,
    and the regularization term is not negative.  In binary64 finite
    entries do not give as much: where [np.sum(W * W)] overflows, the
    regularization term is inf, or nan when [reg] is 0. *)
Theorem loss_nonneg K D N W X y reg :
  valid_input K N y reg ->
  (exists loss g,
     loss_grad_softmax_naive K D N W X y reg = Returns (loss, g) /\ 0 <= loss) /\
  (exists loss g,
     loss_grad_softmax_vectorized K D N W X y reg = Returns (loss, g) /\
     0 <= loss) /\
  (exists loss g,
     loss_grad_svm_vectorized K D N W X y reg = Returns (loss, g) /\ 0 <= loss).
Proof.
  intros Hv.
  assert (HN : (1 <= N)%nat) by apply Hv.
  assert (Hr : 0 <= reg) by apply Hv.
  assert (Hin := valid_in_bounds _ _ _ _ Hv).
  assert (Hreg := reg_loss_nonneg K D W reg Hr).
  assert (Hsoft : 0 <= mean N (softmax_sample_loss K D W X y)).
  { apply mean_nonneg. intros n Hn.
    apply (softmax_sample_loss_nonneg K D N); assumption. }
  assert (Hhinge : 0 <= mean N (hinge_sample_loss K D W X y)).
  { apply mean_nonneg. intros n _. apply hinge_sample_loss_nonneg. }
  destruct (naive_spec K D N W X y reg HN Hin) as [g1 [E1 _]].
  destruct (vectorized_spec K D N W X y reg HN Hin) as [g2 [E2 _]].
  destruct (svm_spec K D N W X y reg HN Hin) as [g3 [E3 _]].
  split; [|split].
  - eexists. exists g1. split; [exact E1|lra].
  - eexists. exists g2. split; [exact E2|lra].
  - eexists. exists g3. split; [exact E3|lra].
Qed.

Lemma loss_nonneg_witness :
  valid_input 3 1 y0 0 /\
  exists loss g,
    loss_grad_svm_vectorized 3 2 1 W0 X0 y0 0 = Returns (loss, g) /\ 0 <= loss.
Proof.
  assert (Hv : valid_input 3 1 y0 0).
  { split; [lia|]. split; [|lra]. intros n _. unfold y0. lia. }
  split; [exact Hv|].
  apply (loss_nonneg 3 2 1 W0 X0 y0 0 Hv).
Defined.

(** ** Data term and regularization term *)

Lemma empty_batch K D W X y reg :
  loss_grad_softmax_naive K D 0 W X y reg = Raises ZeroDivisionError /\
  loss_grad_softmax_vectorized K D 0 W X y reg = Raises ValueError /\
  loss_grad_svm_vectorized K D 0 W X y reg = NonFinite.
Proof.
  split; [reflexivity|]. split; [|reflexivity].
  unfold loss_grad_softmax_vectorized, np_max2.
  rewrite Nat.mul_0_r. reflexivity.
Qed.

(** C7, as the code has it.  On every input with at least one sample
    and every label in [0, K), the returned loss is the mean of the
    losses of the samples plus [0.5 * reg * sum(W * W)] and the returned
    gradient is the mean of the gradients of the samples plus [reg * W],
    for the softmax objective in both forms and for the hinge objective;
    when the losses of all samples are zero the returned loss is
    [0.5 * reg * sum(W * W)].  A batch without samples has no such loss:
    the loop form raises ZeroDivisionError, the vectorized form raises
    ValueError and the hinge form divides [0.0] by [0]. *)
Theorem loss_grad_decompose K D N W X y reg :
  labels_in_range K N y ->
  ((1 <= N)%nat ->
  (exists g,
     loss_grad_softmax_naive K D N W X y reg =
       Returns (mean N (softmax_sample_loss K D W X y) +
                0.5 * reg * sum_sq K D W, g) /\
     mat_eq K D g
       (fun k d => mean_grad N (softmax_sample_grad K D W X y) k d +
                   reg * W k d)) /\
  (exists g,
     loss_grad_softmax_vectorized K D N W X y reg =
       Returns (mean N (softmax_sample_loss K D W X y) +
                0.5 * reg * sum_sq K D W, g) /\
     mat_eq K D g
       (fun k d => mean_grad N (softmax_sample_grad K D W X y) k d +
                   reg * W k d)) /\
  (exists g,
     loss_grad_svm_vectorized K D N W X y reg =
       Returns (mean N (hinge_sample_loss K D W X y) +
                0.5 * reg * sum_sq K D W, g) /\
     mat_eq K D g
       (fun k d => mean_grad N (hinge_sample_grad K D W X y) k d +
                   reg * W k d)) /\
  ((forall n, (n < N)%nat -> softmax_sample_loss K D W X y n = 0) ->
   (exists g, loss_grad_softmax_naive K D N W X y reg =
                Returns (0.5 * reg * sum_sq K D W, g)) /\
   (exists g, loss_grad_softmax_vectorized K D N W X y reg =
                Returns (0.5 * reg * sum_sq K D W, g))) /\
  ((forall n, (n < N)%nat -> hinge_sample_loss K D W X y n = 0) ->
   exists g, loss_grad_svm_vectorized K D N W X y reg =
               Returns (0.5 * reg * sum_sq K D W, g))) /\
  (N = 0%nat ->
   loss_grad_softmax_naive K D N W X y reg = Raises ZeroDivisionError /\
   loss_grad_softmax_vectorized K D N W X y reg = Raises ValueError /\
   loss_grad_svm_vectorized K D N W X y reg = NonFinite).
Proof.
  intros Hy. split; [|intros ->; apply empty_batch].
  intros HN.
  assert (Hin : labels_in_bounds K N y).
  { intros n Hn. apply in_bounds_label. apply Hy. exact Hn. }
  destruct (naive_spec K D N W X y reg HN Hin) as [g1 [E1 G1]].
  destruct (vectorized_spec K D N W X y reg HN Hin) as [g2 [E2 G2]].
  destruct (svm_spec K D N W X y reg HN Hin) as [g3 [E3 G3]].
  split; [exists g1; split; [exact E1|exact G1]|].
  split; [exists g2; split; [exact E2|exact G2]|].
  split; [exists g3; split; [exact E3|exact G3]|].
  split.
  - intros Hz. apply mean_zero in Hz.
    rewrite Hz, Rplus_0_l in E1, E2.
    split; [exists g1; exact E1|exists g2; exact E2].
  - intros Hz. apply mean_zero in Hz.
    rewrite Hz, Rplus_0_l in E3. exists g3. exact E3.
Qed.

Lemma loss_grad_decompose_witness :
  (1 <= 1)%nat /\ labels_in_range 3 1 y0 /\
  exists g,
    loss_grad_svm_vectorized 3 2 1 W0 X0 y0 0 =
      Returns (mean 1 (hinge_sample_loss 3 2 W0 X0 y0) +
               0.5 * 0 * sum_sq 3 2 W0, g) /\
    mat_eq 3 2 g
      (fun k d => mean_grad 1 (hinge_sample_grad 3 2 W0 X0 y0) k d +
                  0 * W0 k d).
Proof.
  assert (Hy : labels_in_range 3 1 y0).
  { intros n _. unfold y0. lia. }
  split; [lia|]. split; [exact Hy|].
  destruct (loss_grad_decompose 3 2 1 W0 X0 y0 0 Hy) as [Hdec _].
  apply (Hdec (Nat.le_refl 1)).
Defined.

(** C7 as the claim states it fails on a batch without samples: with
    K = 3, D = 2, N = 0, W = [[1,0],[0,1],[0,0]] and reg = 1 the loop form
    raises ZeroDivisionError at [loss /= num_train], the vectorized form
    raises ValueError at [np.max(scores)], and the hinge form divides
    [0.0] by [0]; none returns the loss [0.5 * reg * sum(W * W)]. *)
Lemma empty_batch_returns_no_loss :
  loss_grad_softmax_naive 3 2 0 W0 X0 y0 1 = Raises ZeroDivisionError /\
  loss_grad_softmax_vectorized 3 2 0 W0 X0 y0 1 = Raises ValueError /\
  loss_grad_svm_vectorized 3 2 0 W0 X0 y0 1 = NonFinite /\
  ~ (exists g, loss_grad_softmax_naive 3 2 0 W0 X0 y0 1 =
                 Returns (0.5 * 1 * sum_sq 3 2 W0, g)) /\
  ~ (exists g, loss_grad_softmax_vectorized 3 2 0 W0 X0 y0 1 =
                 Returns (0.5 * 1 * sum_sq 3 2 W0, g)) /\
  ~ (exists g, loss_grad_svm_vectorized 3 2 0 W0 X0 y0 1 =
                 Returns (0.5 * 1 * sum_sq 3 2 W0, g)).
Proof.
  assert (E1 : loss_grad_softmax_naive 3 2 0 W0 X0 y0 1 =
               Raises ZeroDivisionError) by reflexivity.
  assert (E2 : loss_grad_softmax_vectorized 3 2 0 W0 X0 y0 1 =
               Raises ValueError) by reflexivity.
  assert (E3 : loss_grad_svm_vectorized 3 2 0 W0 X0 y0 1 = NonFinite)
    by reflexivity.
  repeat split; try assumption.
  - intros [g H]. rewrite E1 in H. discriminate.
  - intros [g H]. rewrite E2 in H. discriminate.
  - intros [g H]. rewrite E3 in H. discriminate.
Qed.

(** ** The hinge loss when every margin is met *)

Lemma hinge_margin_met K D N W X y k n :
  labels_in_range K N y -> (n < N)%nat ->
  (k <> label y n ->
   scores D W X k n + 1 <= scores D W X (label y n) n) ->
  hinge_margin K D W X y k n = 0.
Proof.
  intros Hy Hn Hm. unfold hinge_margin.
  rewrite (row_of_label K N y n Hy Hn).
  destruct (Nat.eqb_spec k (label y n)) as [|Hne]; [reflexivity|].
  specialize (Hm Hne). apply Rmax_left. lra.
Qed.

Lemma svm_loss_margins_met K D N W X y reg :
  valid_input K N y reg ->
  (forall n k, (n < N)%nat -> (k < K)%nat -> k <> label y n ->
     scores D W X k n + 1 <= scores D W X (label y n) n) ->
  exists g,
    loss_grad_svm_vectorized K D N W X y reg =
      Returns (0.5 * reg * sum_sq K D W, g).
Proof.
  intros Hv Hm.
  assert (HN : (1 <= N)%nat) by apply Hv.
  assert (Hy : labels_in_range K N y) by apply Hv.
  assert (Hin := valid_in_bounds _ _ _ _ Hv).
  destruct (svm_spec K D N W X y reg HN Hin) as [g [E _]].
  exists g. rewrite E. apply f_equal. apply f_equal2; [|reflexivity].
  rewrite mean_zero; [unfold reg_loss; lra|].
  intros n Hn. unfold hinge_sample_loss. apply sum_range_zero.
  intros k Hk. apply (hinge_margin_met K D N); try assumption.
  intros Hne. apply Hm; assumption.
Qed.

(** C5, as the code has it.  On every valid input on which, for every
    sample, the score of its class exceeds the score of every other
    class by at least the margin 1.0, the loss that
    [loss_grad_svm_vectorized] returns is the regularization term
    [0.5 * reg * sum(W * W)]; it is 0 when [reg] is 0. *)
Theorem hinge_loss_margins_met K D N W X y reg :
  valid_input K N y reg ->
  (forall n k, (n < N)%nat -> (k < K)%nat -> k <> label y n ->
     scores D W X k n + 1 <= scores D W X (label y n) n) ->
  exists loss g,
    loss_grad_svm_vectorized K D N W X y reg = Returns (loss, g) /\
    loss = 0.5 * reg * sum_sq K D W /\
    (reg = 0 -> loss = 0).
Proof.
  intros Hv Hm.
  destruct (svm_loss_margins_met K D N W X y reg Hv Hm) as [g E].
  exists (0.5 * reg * sum_sq K D W), g.
  split; [exact E|]. split; [reflexivity|].
  intros ->. lra.
Qed.

Lemma margins_met1 :
  forall n k, (n < 1)%nat -> (k < 2)%nat -> k <> label y0 n ->
    scores 1 W1 X1 k n + 1 <= scores 1 W1 X1 (label y0 n) n.
Proof.
  intros n k Hn Hk Hne.
  assert (n = 0)%nat as -> by lia.
  unfold label, y0 in *. simpl in Hne.
  assert (k = 1)%nat as -> by lia.
  unfold scores, dot, W1, X1. simpl. lra.
Qed.

Lemma hinge_loss_margins_met_witness :
  valid_input 2 1 y0 0 /\
  exists loss g,
    loss_grad_svm_vectorized 2 1 1 W1 X1 y0 0 = Returns (loss, g) /\
    loss = 0.5 * 0 * sum_sq 2 1 W1 /\
    (0 = 0 -> loss = 0).
Proof.
  assert (Hv : valid_input 2 1 y0 0).
  { split; [lia|]. split; [|lra]. intros n _. unfold y0. lia. }
  split; [exact Hv|].
  apply (hinge_loss_margins_met 2 1 1 W1 X1 y0 0 Hv margins_met1).
Defined.

(** C5 as the claim states it fails when [reg] is positive and [W] is
    not zero: with K = 2, D = 1, N = 1, W = [[1],[0]], X = [[1]], y = [0]
    and reg = 1 the scores are [1, 0], the margin of class 1 is
    [max(0, 0 - 1 + 1) = 0], and the returned loss is
    [0.5 * 1 * (1 + 0) = 0.5], not 0. *)
Lemma hinge_loss_half_not_zero :
  valid_input 2 1 y0 1 /\
  (forall n k, (n < 1)%nat -> (k < 2)%nat -> k <> label y0 n ->
     scores 1 W1 X1 k n + 1 <= scores 1 W1 X1 (label y0 n) n) /\
  (exists g, loss_grad_svm_vectorized 2 1 1 W1 X1 y0 1 = Returns (/ 2, g)) /\
  ~ (exists g, loss_grad_svm_vectorized 2 1 1 W1 X1 y0 1 = Returns (0, g)).
Proof.
  assert (Hv : valid_input 2 1 y0 1).
  { split; [lia|]. split; [|lra]. intros n _. unfold y0. lia. }
  destruct (svm_loss_margins_met 2 1 1 W1 X1 y0 1 Hv margins_met1) as [g E].
  assert (Hl : 0.5 * 1 * sum_sq 2 1 W1 = / 2).
  { unfold sum_sq, np_sum2, W1. simpl. lra. }
  rewrite Hl in E.
  split; [exact Hv|]. split; [exact margins_met1|].
  split; [exists g; exact E|].
  intros [g' E']. rewrite E in E'. injection E' as Hloss _. lra.
Qed.

(** ** The indicator matrix of the hinge gradient *)

Lemma count_true_sum n p :
  INR (count_true n p) = sum_range n (fun k => if p k then 1 else 0).
Proof.
  induction n as [|n IH]; simpl.
  - reflexivity.
  - rewrite plus_INR, IH. destruct (p n); simpl; lra.
Qed.

Lemma gt0_true x : 0 < x -> gt0 x = true.
Proof. intros H. unfold gt0. destruct (Rlt_dec 0 x); [reflexivity|lra]. Qed.

Lemma gt0_false x : ~ 0 < x -> gt0 x = false.
Proof. intros H. unfold gt0. destruct (Rlt_dec 0 x); [lra|reflexivity]. Qed.

(** C4.  On every valid input the hinge function returns, and the array
    [scores_mat_grad] that it multiplies with [X.T] is the indicator
    matrix of the specification: for a class [k] other than the class of
    sample [n] the entry is 1 when [margin[k,n] > 0] and 0 when not, where
    [margin[k,n] = max(0, S[k,n] - S[y[n],n] + 1)]; the entry of the class
    of the sample is minus the number of the other classes whose margin is
    positive; and the returned gradient is [(I . X^T) / N + reg * W]. *)
Theorem hinge_indicator_gradient K D N W X y reg :
  valid_input K N y reg ->
  exists rows loss g,
    index_rows K N y = Returns rows /\
    loss_grad_svm_vectorized K D N W X y reg = Returns (loss, g) /\
    let margin := svm_margins D N W X rows in
    let I := svm_indicator K D N W X rows in
    (forall k n, (k < K)%nat -> (n < N)%nat -> k <> label y n ->
       margin k n =
         Rmax 0 (scores D W X k n - scores D W X (label y n) n + 1) /\
       (0 < margin k n -> I k n = 1) /\
       (~ 0 < margin k n -> I k n = 0)) /\
    (forall n, (n < N)%nat ->
       margin (label y n) n = 0 /\
       I (label y n) n =
         - INR (count_true K
                  (fun k => negb (Nat.eqb k (label y n)) && gt0 (margin k n)))) /\
    mat_eq K D g
      (fun k d => sum_range N (fun n => I k n * X d n) / INR N + reg * W k d).
Proof.
  intros Hv.
  assert (HN : (1 <= N)%nat) by apply Hv.
  assert (Hy : labels_in_range K N y) by apply Hv.
  assert (Hin := valid_in_bounds _ _ _ _ Hv).
  exists (fun n => wrap K (y n)). eexists. eexists.
  split; [apply index_rows_in_bounds; exact Hin|].
  split.
  { unfold loss_grad_svm_vectorized, np_div_int. cbv zeta.
    rewrite (index_rows_in_bounds K N y Hin). simpl.
    destruct (Nat.eqb_spec N 0) as [|_]; [lia|]. simpl. reflexivity. }
  cbv zeta. split; [|split].
  - intros k n Hk Hn Hne.
    rewrite svm_margins_spec by assumption.
    rewrite svm_indicator_spec by assumption.
    unfold hinge_indicator, hinge_margin.
    rewrite (row_of_label K N y n Hy Hn).
    destruct (Nat.eqb_spec k (label y n)) as [|_]; [contradiction|].
    split; [reflexivity|]. split; intros H.
    + rewrite gt0_true by exact H. reflexivity.
    + rewrite gt0_false by exact H. reflexivity.
  - intros n Hn.
    rewrite <- (row_of_label K N y n Hy Hn).
    rewrite svm_margins_spec by assumption.
    rewrite svm_indicator_spec by assumption.
    unfold hinge_indicator, hinge_margin. rewrite Nat.eqb_refl.
    split; [reflexivity|]. apply f_equal. apply f_equal.
    unfold hinge_num_pos. apply count_true_ext. intros k _.
    rewrite svm_margins_spec by assumption. reflexivity.
  - intros k d Hk Hd. reflexivity.
Qed.

Lemma hinge_indicator_gradient_witness :
  valid_input 3 1 y0 0 /\
  exists rows loss g,
    index_rows 3 1 y0 = Returns rows /\
    loss_grad_svm_vectorized 3 2 1 W0 X0 y0 0 = Returns (loss, g) /\
    mat_eq 3 2 g
      (fun k d =>
         sum_range 1 (fun n => svm_indicator 3 2 1 W0 X0 rows k n * X0 d n) /
         INR 1 + 0 * W0 k d).
Proof.
  assert (Hv : valid_input 3 1 y0 0).
  { split; [lia|]. split; [|lra]. intros n _. unfold y0. lia. }
  split; [exact Hv|].
  destruct (hinge_indicator_gradient 3 2 1 W0 X0 y0 0 Hv)
    as [rows [loss [g [Hr [Hs [_ [_ Hg]]]]]]].
  exists rows, loss, g. split; [exact Hr|]. split; [exact Hs|exact Hg].
Defined.

(** ** The rows of the gradient sum to zero *)

Lemma onehot_sum K y n :
  (row_of K y n < K)%nat -> sum_range K (fun k => onehot K y k n) = 1.
Proof.
  intros Hc. unfold onehot.
  apply (sum_range_single K (row_of K y n) (fun _ => 1) Hc).
Qed.

Lemma softmax_sample_grad_sum K D N W X y n d :
  labels_in_bounds K N y -> (n < N)%nat ->
  sum_range K (fun k => softmax_sample_grad K D W X y n k d) = 0.
Proof.
  intros Hin Hn.
  assert (Hc : (row_of K y n < K)%nat) by (apply wrap_lt, Hin, Hn).
  unfold softmax_sample_grad. rewrite sum_range_scal_r, sum_range_minus.
  rewrite onehot_sum by exact Hc.
  unfold prob. rewrite softmax_sum_1 by lia. ring.
Qed.

Lemma hinge_indicator_sum K D N W X y n :
  labels_in_bounds K N y -> (n < N)%nat ->
  sum_range K (fun k => hinge_indicator K D W X y k n) = 0.
Proof.
  intros Hin Hn.
  assert (Hc : (row_of K y n < K)%nat) by (apply wrap_lt, Hin, Hn).
  rewrite (sum_range_ext K _
             (fun k =>
                (if Nat.eqb k (row_of K y n)
                 then - INR (hinge_num_pos K D W X y n) else 0) +
                (if negb (Nat.eqb k (row_of K y n)) &&
                    gt0 (hinge_margin K D W X y k n)
                 then 1 else 0))).
  2:{ intros k _. unfold hinge_indicator.
      destruct (Nat.eqb k (row_of K y n)); simpl; [lra|].
      destruct (gt0 (hinge_margin K D W X y k n)); lra. }
  rewrite sum_range_plus.
  rewrite (sum_range_single K (row_of K y n)
             (fun _ => - INR (hinge_num_pos K D W X y n)) Hc).
  rewrite <- count_true_sum. unfold hinge_num_pos. lra.
Qed.

Lemma hinge_sample_grad_sum K D N W X y n d :
  labels_in_bounds K N y -> (n < N)%nat ->
  sum_range K (fun k => hinge_sample_grad K D W X y n k d) = 0.
Proof.
  intros Hin Hn. unfold hinge_sample_grad. rewrite sum_range_scal_r.
  rewrite (hinge_indicator_sum K D N) by assumption. ring.
Qed.

Lemma mean_grad_rows_sum K N (sg : nat -> matrix) d :
  (forall n, (n < N)%nat -> sum_range K (fun k => sg n k d) = 0) ->
  sum_range K (fun k => mean_grad N sg k d) = 0.
Proof.
  intros H. unfold mean_grad, mean, Rdiv. rewrite sum_range_scal_r.
  rewrite (sum_range_swap K N (fun k n => sg n k d)).
  rewrite sum_range_zero by exact H. ring.
Qed.

Lemma rows_sum_zero K D N (sg : nat -> matrix) (W g : matrix) d :
  (forall n, (n < N)%nat -> sum_range K (fun k => sg n k d) = 0) ->
  mat_eq K D g (fun k d => mean_grad N sg k d + reg_grad W 0 k d) ->
  (d < D)%nat ->
  sum_range K (fun k => g k d) = 0.
Proof.
  intros Hs Hg Hd.
  rewrite (sum_range_ext K _ (fun k => mean_grad N sg k d)).
  - apply mean_grad_rows_sum. exact Hs.
  - intros k Hk. rewrite Hg by assumption. unfold reg_grad. ring.
Qed.

(** C10.  With [reg = 0], on every valid input, the gradient that each
    of the three functions returns has rows that sum to the zero vector:
    for every column [d] the sum over the classes [k] of [grad[k, d]] is
    0. *)
Theorem gradient_rows_sum_zero K D N W X y :
  valid_input K N y 0 ->
  (exists loss g,
     loss_grad_softmax_naive K D N W X y 0 = Returns (loss, g) /\
     forall d, (d < D)%nat -> sum_range K (fun k => g k d) = 0) /\
  (exists loss g,
     loss_grad_softmax_vectorized K D N W X y 0 = Returns (loss, g) /\
     forall d, (d < D)%nat -> sum_range K (fun k => g k d) = 0) /\
  (exists loss g,
     loss_grad_svm_vectorized K D N W X y 0 = Returns (loss, g) /\
     forall d, (d < D)%nat -> sum_range K (fun k => g k d) = 0).
Proof.
  intros Hv.
  assert (HN : (1 <= N)%nat) by apply Hv.
  assert (Hin := valid_in_bounds _ _ _ _ Hv).
  destruct (naive_spec K D N W X y 0 HN Hin) as [g1 [E1 G1]].
  destruct (vectorized_spec K D N W X y 0 HN Hin) as [g2 [E2 G2]].
  destruct (svm_spec K D N W X y 0 HN Hin) as [g3 [E3 G3]].
  split; [|split].
  - eexists. exists g1. split; [exact E1|]. intros d Hd.
    apply (rows_sum_zero K D N (softmax_sample_grad K D W X y) W g1 d);
      try assumption.
    intros n Hn. apply (softmax_sample_grad_sum K D N); assumption.
  - eexists. exists g2. split; [exact E2|]. intros d Hd.
    apply (rows_sum_zero K D N (softmax_sample_grad K D W X y) W g2 d);
      try assumption.
    intros n Hn. apply (softmax_sample_grad_sum K D N); assumption.
  - eexists. exists g3. split; [exact E3|]. intros d Hd.
    apply (rows_sum_zero K D N (hinge_sample_grad K D W X y) W g3 d);
      try assumption.
    intros n Hn. apply (hinge_sample_grad_sum K D N); assumption.
Qed.

Lemma gradient_rows_sum_zero_witness :
  valid_input 3 1 y0 0 /\
  exists loss g,
    loss_grad_softmax_vectorized 3 2 1 W0 X0 y0 0 = Returns (loss, g) /\
    forall d, (d < 2)%nat -> sum_range 3 (fun k => g k d) = 0.
Proof.
  assert (Hv : valid_input 3 1 y0 0).
  { split; [lia|]. split; [|lra]. intros n _. unfold y0. lia. }
  split; [exact Hv|].
  apply (gradient_rows_sum_zero 3 2 1 W0 X0 y0 Hv).
Defined.

(** ** Labels outside the range of the classes *)

Lemma in_bounds_false K z :
  (z < - Z.of_nat K \/ Z.of_nat K <= z)%Z -> in_bounds K z = false.
Proof.
  intros H. unfold in_bounds. apply andb_false_iff.
  destruct H as [H|H].
  - left. apply Z.leb_gt. exact H.
  - right. apply Z.ltb_ge. exact H.
Qed.

Lemma naive_sample_in_bounds K D W X y i acc :
  (1 <= K)%nat -> in_bounds K (y i) = true ->
  exists r, naive_sample K D W X y i acc = Returns r.
Proof.
  intros HK Hin. destruct acc as [loss grad].
  unfold naive_sample, np_max.
  destruct (Nat.eqb_spec K 0) as [|_]; [lia|]. simpl.
  unfold naive_sample_from. rewrite (norm_index_in_bounds K (y i) Hin).
  simpl. eexists. reflexivity.
Qed.

Lemma naive_sample_out_of_bounds K D W X y i acc :
  (1 <= K)%nat -> in_bounds K (y i) = false ->
  naive_sample K D W X y i acc = Raises IndexError.
Proof.
  intros HK Hout. destruct acc as [loss grad].
  unfold naive_sample, np_max.
  destruct (Nat.eqb_spec K 0) as [|_]; [lia|]. simpl.
  unfold naive_sample_from, norm_index. rewrite Hout. reflexivity.
Qed.

Lemma naive_loop_outcomes K D W X y n acc :
  (1 <= K)%nat ->
  (exists r, for_rangeM n (naive_sample K D W X y) acc = Returns r) \/
  for_rangeM n (naive_sample K D W X y) acc = Raises IndexError.
Proof.
  intros HK. induction n as [|n IH]; simpl.
  - left. exists acc. reflexivity.
  - destruct IH as [[r E]|E]; rewrite E; simpl; [|right; reflexivity].
    destruct (in_bounds K (y n)) eqn:Hb.
    + left. apply naive_sample_in_bounds; assumption.
    + right. apply naive_sample_out_of_bounds; assumption.
Qed.

Lemma naive_loop_out_of_bounds K D W X y N acc n :
  (1 <= K)%nat -> (n < N)%nat -> in_bounds K (y n) = false ->
  for_rangeM N (naive_sample K D W X y) acc = Raises IndexError.
Proof.
  intros HK. induction N as [|N IH]; intros Hn Hout; [lia|]. simpl.
  destruct (Nat.eq_dec n N) as [E|Hne].
  - subst n.
    destruct (naive_loop_outcomes K D W X y N acc HK) as [[r E]|E];
      rewrite E; simpl; [|reflexivity].
    apply naive_sample_out_of_bounds; assumption.
  - rewrite IH by (assumption || lia). reflexivity.
Qed.

Lemma in_bounds_true K z :
  (- Z.of_nat K <= z < Z.of_nat K)%Z -> in_bounds K z = true.
Proof.
  intros H. unfold in_bounds. apply andb_true_iff. split.
  - apply Z.leb_le. lia.
  - apply Z.ltb_lt. lia.
Qed.

Lemma wrapped_in_range K N y :
  labels_in_bounds K N y -> labels_in_range K N (wrapped K y).
Proof.
  intros Hin n Hn. specialize (Hin n Hn). unfold in_bounds in Hin.
  apply andb_true_iff in Hin as [H1 H2].
  apply Z.leb_le in H1. apply Z.ltb_lt in H2.
  unfold wrapped. destruct (Z.ltb_spec (y n) 0); lia.
Qed.

Lemma wrapped_row K N y n :
  labels_in_bounds K N y -> (n < N)%nat ->
  row_of K (wrapped K y) n = row_of K y n.
Proof.
  intros Hin Hn. specialize (Hin n Hn). unfold in_bounds in Hin.
  apply andb_true_iff in Hin as [H1 H2].
  apply Z.leb_le in H1. apply Z.ltb_lt in H2.
  unfold row_of, wrap, wrapped.
  destruct (Z.ltb_spec (y n) 0) as [Hneg|Hpos].
  - destruct (Z.ltb_spec (y n + Z.of_nat K) 0); [lia|reflexivity].
  - destruct (Z.ltb_spec (y n) 0); [lia|reflexivity].
Qed.

Lemma mean_ext N f g :
  (forall n, (n < N)%nat -> f n = g n) -> mean N f = mean N g.
Proof.
  intros E. unfold mean. rewrite (sum_range_ext N f g E). reflexivity.
Qed.

(** The closed forms read the labels through the rows they select. *)
Section SameRows.

Variables K D N : nat.
Variable W : matrix.
Variable X : matrix.
Variables y y' : nat -> Z.
Hypothesis Hrows : forall n, (n < N)%nat -> row_of K y' n = row_of K y n.

Lemma softmax_sample_loss_rows n :
  (n < N)%nat ->
  softmax_sample_loss K D W X y' n = softmax_sample_loss K D W X y n.
Proof.
  intros Hn. unfold softmax_sample_loss. rewrite Hrows by exact Hn.
  reflexivity.
Qed.

Lemma softmax_sample_grad_rows n k d :
  (n < N)%nat ->
  softmax_sample_grad K D W X y' n k d = softmax_sample_grad K D W X y n k d.
Proof.
  intros Hn. unfold softmax_sample_grad, onehot. rewrite Hrows by exact Hn.
  reflexivity.
Qed.

Lemma hinge_margin_rows n k :
  (n < N)%nat -> hinge_margin K D W X y' k n = hinge_margin K D W X y k n.
Proof.
  intros Hn. unfold hinge_margin. rewrite Hrows by exact Hn. reflexivity.
Qed.

Lemma hinge_sample_loss_rows n :
  (n < N)%nat ->
  hinge_sample_loss K D W X y' n = hinge_sample_loss K D W X y n.
Proof.
  intros Hn. unfold hinge_sample_loss. apply sum_range_ext. intros k _.
  apply hinge_margin_rows. exact Hn.
Qed.

Lemma hinge_sample_grad_rows n k d :
  (n < N)%nat ->
  hinge_sample_grad K D W X y' n k d = hinge_sample_grad K D W X y n k d.
Proof.
  intros Hn. unfold hinge_sample_grad, hinge_indicator, hinge_num_pos.
  rewrite Hrows by exact Hn. rewrite hinge_margin_rows by exact Hn.
  rewrite (count_true_ext K
             (fun k0 => negb (Nat.eqb k0 (row_of K y n)) &&
                        gt0 (hinge_margin K D W X y' k0 n))
             (fun k0 => negb (Nat.eqb k0 (row_of K y n)) &&
                        gt0 (hinge_margin K D W X y k0 n))).
  - reflexivity.
  - intros k0 _. rewrite hinge_margin_rows by exact Hn. reflexivity.
Qed.

End SameRows.

Lemma same_closed_form K D N reg W (sl sl' : nat -> R) (sg sg' : nat -> matrix)
      (o o' : outcome (R * matrix)) :
  (forall n, (n < N)%nat -> sl' n = sl n) ->
  (forall n k d, (n < N)%nat -> sg' n k d = sg n k d) ->
  (exists g, o = Returns (mean N sl + reg_loss K D W reg, g) /\
             mat_eq K D g (fun k d => mean_grad N sg k d + reg_grad W reg k d)) ->
  (exists g, o' = Returns (mean N sl' + reg_loss K D W reg, g) /\
             mat_eq K D g (fun k d => mean_grad N sg' k d + reg_grad W reg k d)) ->
  exists loss g g',
    o = Returns (loss, g) /\ o' = Returns (loss, g') /\ mat_eq K D g g'.
Proof.
  intros Hl Hg [g [E G]] [g' [E' G']].
  exists (mean N sl + reg_loss K D W reg), g, g'.
  split; [exact E|]. split.
  - rewrite E'. rewrite (mean_ext N sl' sl Hl). reflexivity.
  - intros k d Hk Hd. rewrite G, G' by assumption.
    unfold mean_grad. apply f_equal2; [|reflexivity].
    apply mean_ext. intros n Hn. symmetry. apply Hg. exact Hn.
Qed.

(** C3, as the code has it.  With at least one class and one sample:
    when some label [y[i]] is at least [K] or below [-K], each of the
    three functions raises IndexError and returns no result; when every
    label lies in [-K, K), no function rejects a negative label: numpy
    counts it from the end, so [y[i] < 0] selects row [K + y[i]], and each
    function returns what it returns for the labels so mapped. *)
Theorem label_out_of_range K D N W X y reg :
  (1 <= K)%nat -> (1 <= N)%nat ->
  ((exists i, (i < N)%nat /\ (y i < - Z.of_nat K \/ Z.of_nat K <= y i)%Z) ->
   loss_grad_softmax_naive K D N W X y reg = Raises IndexError /\
   loss_grad_softmax_vectorized K D N W X y reg = Raises IndexError /\
   loss_grad_svm_vectorized K D N W X y reg = Raises IndexError) /\
  ((forall i, (i < N)%nat -> (- Z.of_nat K <= y i < Z.of_nat K)%Z) ->
   labels_in_range K N (wrapped K y) /\
   (exists loss g g',
      loss_grad_softmax_naive K D N W X y reg = Returns (loss, g) /\
      loss_grad_softmax_naive K D N W X (wrapped K y) reg = Returns (loss, g') /\
      mat_eq K D g g') /\
   (exists loss g g',
      loss_grad_softmax_vectorized K D N W X y reg = Returns (loss, g) /\
      loss_grad_softmax_vectorized K D N W X (wrapped K y) reg =
        Returns (loss, g') /\
      mat_eq K D g g') /\
   (exists loss g g',
      loss_grad_svm_vectorized K D N W X y reg = Returns (loss, g) /\
      loss_grad_svm_vectorized K D N W X (wrapped K y) reg = Returns (loss, g') /\
      mat_eq K D g g')).
Proof.
  intros HK HN. split.
  - intros [i [Hi Hout]]. apply in_bounds_false in Hout.
    split; [|split].
    + unfold loss_grad_softmax_naive. cbv zeta.
      rewrite (naive_loop_out_of_bounds K D W X y N _ i HK Hi Hout).
      reflexivity.
    + unfold loss_grad_softmax_vectorized, np_max2.
      destruct (Nat.eqb_spec (K * N) 0) as [E|_]; [nia|]. simpl.
      unfold softmax_vectorized_from. cbv zeta.
      rewrite (index_rows_out K N y i Hi Hout). reflexivity.
    + unfold loss_grad_svm_vectorized. cbv zeta.
      rewrite (index_rows_out K N y i Hi Hout). reflexivity.
  - intros Hb.
    assert (Hin : labels_in_bounds K N y).
    { intros n Hn. apply in_bounds_true. apply Hb. exact Hn. }
    assert (Hy' := wrapped_in_range K N y Hin).
    assert (Hin' : labels_in_bounds K N (wrapped K y)).
    { intros n Hn. apply in_bounds_label. apply Hy'. exact Hn. }
    assert (Hrows := fun n => wrapped_row K N y n Hin).
    split; [exact Hy'|]. split; [|split].
    + apply (same_closed_form K D N reg W
               (softmax_sample_loss K D W X y)
               (softmax_sample_loss K D W X (wrapped K y))
               (softmax_sample_grad K D W X y)
               (softmax_sample_grad K D W X (wrapped K y))).
      * intros n Hn. apply (softmax_sample_loss_rows K D N); assumption.
      * intros n k d Hn. apply (softmax_sample_grad_rows K D N); assumption.
      * apply naive_spec; assumption.
      * apply naive_spec; assumption.
    + apply (same_closed_form K D N reg W
               (softmax_sample_loss K D W X y)
               (softmax_sample_loss K D W X (wrapped K y))
               (softmax_sample_grad K D W X y)
               (softmax_sample_grad K D W X (wrapped K y))).
      * intros n Hn. apply (softmax_sample_loss_rows K D N); assumption.
      * intros n k d Hn. apply (softmax_sample_grad_rows K D N); assumption.
      * apply vectorized_spec; assumption.
      * apply vectorized_spec; assumption.
    + apply (same_closed_form K D N reg W
               (hinge_sample_loss K D W X y)
               (hinge_sample_loss K D W X (wrapped K y))
               (hinge_sample_grad K D W X y)
               (hinge_sample_grad K D W X (wrapped K y))).
      * intros n Hn. apply (hinge_sample_loss_rows K D N); assumption.
      * intros n k d Hn. apply (hinge_sample_grad_rows K D N); assumption.
      * apply svm_spec; assumption.
      * apply svm_spec; assumption.
Qed.

Lemma label_out_of_range_witness :
  (1 <= 3)%nat /\ (1 <= 1)%nat /\
  (forall i, (i < 1)%nat -> (- Z.of_nat 3 <= y_neg i < Z.of_nat 3)%Z) /\
  exists loss g g',
    loss_grad_svm_vectorized 3 2 1 W0 X0 y_neg 0 = Returns (loss, g) /\
    loss_grad_svm_vectorized 3 2 1 W0 X0 (wrapped 3 y_neg) 0 =
      Returns (loss, g') /\
    mat_eq 3 2 g g'.
Proof.
  assert (H3 : (1 <= 3)%nat) by lia.
  assert (H1 : (1 <= 1)%nat) by lia.
  assert (Hb : forall i, (i < 1)%nat ->
                 (- Z.of_nat 3 <= y_neg i < Z.of_nat 3)%Z).
  { intros i _. unfold y_neg. simpl. lia. }
  split; [exact H3|]. split; [exact H1|]. split; [exact Hb|].
  destruct (label_out_of_range 3 2 1 W0 X0 y_neg 0 H3 H1) as [_ Hwrap].
  apply Hwrap. exact Hb.
Defined.

(** C3 as the claim states it fails on a negative label: with K = 3,
    D = 2, N = 1, W = [[1,0],[0,1],[0,0]], X = [[1],[0]] and y = [-1] the
    label lies outside [0, 3), yet [scores[-1]] and [scores_exp[[-1], [0]]]
    read row 2 and each of the three functions returns a result; none
    raises IndexError. *)
Lemma negative_label_accepted :
  ~ (0 <= y_neg 0 < Z.of_nat 3)%Z /\
  (exists r, loss_grad_softmax_naive 3 2 1 W0 X0 y_neg 0 = Returns r) /\
  (exists r, loss_grad_softmax_vectorized 3 2 1 W0 X0 y_neg 0 = Returns r) /\
  (exists r, loss_grad_svm_vectorized 3 2 1 W0 X0 y_neg 0 = Returns r) /\
  loss_grad_softmax_naive 3 2 1 W0 X0 y_neg 0 <> Raises IndexError /\
  loss_grad_softmax_vectorized 3 2 1 W0 X0 y_neg 0 <> Raises IndexError /\
  loss_grad_svm_vectorized 3 2 1 W0 X0 y_neg 0 <> Raises IndexError.
Proof.
  assert (Hin : labels_in_bounds 3 1 y_neg).
  { intros n _. reflexivity. }
  destruct (naive_spec 3 2 1 W0 X0 y_neg 0 (Nat.le_refl 1) Hin) as [g1 [E1 _]].
  destruct (vectorized_spec 3 2 1 W0 X0 y_neg 0 (Nat.le_refl 1) Hin)
    as [g2 [E2 _]].
  destruct (svm_spec 3 2 1 W0 X0 y_neg 0 (Nat.le_refl 1) Hin) as [g3 [E3 _]].
  split; [unfold y_neg; simpl; lia|].
  split; [eexists; exact E1|]. split; [eexists; exact E2|].
  split; [eexists; exact E3|].
  rewrite E1, E2, E3. repeat split; discriminate.
Qed.

(** ** Bounds on the exponential *)

(** The term [x^i / i!] of the exponential series and the partial sums
    of the series of [exp (- x)]. *)
Lemma exp_term_fact x i : exp_term x i = x ^ i / INR (fact i).
Proof.
  induction i as [|i IH].
  - simpl. lra.
  - change (exp_term x (S i)) with (exp_term x i * x / INR (S i)).
    rewrite IH, fact_simpl, mult_INR. simpl pow.
    assert (INR (S i) <> 0) by (apply not_0_INR; lia).
    assert (INR (fact i) <> 0) by apply INR_fact_neq_0.
    field. split; assumption.
Qed.

Lemma alt_exp_sum_series x n :
  alt_exp_sum x n = sum_f_R0 (tg_alt (exp_term x)) n.
Proof.
  induction n as [|n IH].
  - simpl. unfold tg_alt. simpl. lra.
  - change (alt_exp_sum x (S n)) with
      (alt_exp_sum x n + (-1) ^ S n * exp_term x (S n)).
    rewrite IH. reflexivity.
Qed.

Lemma exp_term_nonneg x i : 0 <= x -> 0 <= exp_term x i.
Proof.
  intros Hx. induction i as [|i IH].
  - simpl. lra.
  - change (exp_term x (S i)) with (exp_term x i * x / INR (S i)).
    apply Rmult_le_pos; [apply Rmult_le_pos; assumption|].
    left. apply Rinv_0_lt_compat. apply lt_0_INR. lia.
Qed.

Lemma exp_term_decreasing x : 0 <= x <= 1 -> Un_decreasing (exp_term x).
Proof.
  intros [H0 H1] i.
  change (exp_term x (S i)) with (exp_term x i * x / INR (S i)).
  assert (Ht := exp_term_nonneg x i H0).
  assert (Hi : 1 <= INR (S i)).
  { replace 1 with (INR 1) by reflexivity. apply le_INR. lia. }
  assert (Hinv : 0 < / INR (S i) <= 1).
  { split; [apply Rinv_0_lt_compat; lra|].
    rewrite <- Rinv_1. apply Rinv_le_contravar; lra. }
  unfold Rdiv.
  assert (exp_term x i * x <= exp_term x i) by nra.
  assert (0 <= exp_term x i * x) by nra.
  nra.
Qed.

(** The alternating partial sums enclose [exp (- x)] for [x] in
    [0, 1]. *)
Lemma exp_neg_bounds x n :
  0 <= x <= 1 ->
  alt_exp_sum x (S (2 * n)) <= exp (- x) <= alt_exp_sum x (2 * n).
Proof.
  intros Hx. rewrite !alt_exp_sum_series.
  apply alternated_series_ineq.
  - apply exp_term_decreasing. exact Hx.
  - assert (H := cv_speed_pow_fact x).
    intros eps Heps. destruct (H eps Heps) as [n0 Hn0].
    exists n0. intros i Hi. rewrite exp_term_fact. apply Hn0. exact Hi.
  - unfold exp. destruct (exist_exp (- x)) as [l Hl]. simpl.
    unfold exp_in, infinite_sum in Hl.
    intros eps Heps. destruct (Hl eps Heps) as [n0 Hn0].
    exists n0. intros i Hi.
    replace (sum_f_R0 (tg_alt (exp_term x)) i) with
      (sum_f_R0 (fun k => / INR (fact k) * (- x) ^ k) i).
    + apply Hn0. exact Hi.
    + apply sum_eq. intros k _. unfold tg_alt. rewrite exp_term_fact.
      replace (- x) with (-1 * x) by ring. rewrite Rpow_mult_distr.
      unfold Rdiv. ring.
Qed.

Lemma exp_upper_by x n c :
  0 <= x <= 1 -> 0 < c -> 1 < c * alt_exp_sum x (S (2 * n)) -> exp x < c.
Proof.
  intros Hx Hc Hn.
  destruct (exp_neg_bounds x n Hx) as [Hl _].
  assert (Hp := exp_pos (- x)). assert (Hq := exp_pos x).
  assert (He : exp x * exp (- x) = 1).
  { rewrite <- exp_plus. rewrite Rplus_opp_r. apply exp_0. }
  nra.
Qed.

Lemma exp_lower_by x n c :
  0 <= x <= 1 -> 0 < c -> c * alt_exp_sum x (2 * n) < 1 -> c < exp x.
Proof.
  intros Hx Hc Hn.
  destruct (exp_neg_bounds x n Hx) as [_ Hu].
  assert (Hp := exp_pos (- x)). assert (Hq := exp_pos x).
  assert (He : exp x * exp (- x) = 1).
  { rewrite <- exp_plus. rewrite Rplus_opp_r. apply exp_0. }
  nra.
Qed.

Ltac eval_alt_exp_sum :=
  cbn -[INR]; repeat rewrite S_INR; simpl INR.

Lemma exp_m1_bounds : 0.367879 < exp (- 1) < 0.36788.
Proof.
  destruct (exp_neg_bounds 1 4 ltac:(lra)) as [Hl _].
  destruct (exp_neg_bounds 1 5 ltac:(lra)) as [_ Hu].
  replace (- (1)) with (-1) in Hl, Hu by lra.
  revert Hl Hu. eval_alt_exp_sum. intros Hl Hu. split; lra.
Qed.

Lemma exp_055135_upper : exp 0.55135 < 1.735758.
Proof.
  apply (exp_upper_by 0.55135 3); [lra|lra|].
  eval_alt_exp_sum. lra.
Qed.

Lemma exp_055145_lower : 1.73576 < exp 0.55145.
Proof.
  apply (exp_lower_by 0.55145 4); [lra|lra|].
  eval_alt_exp_sum. lra.
Qed.

Lemma ln_1_2_exp_m1_bounds :
  0.55135 < ln (1 + 2 * exp (- 1)) < 0.55145.
Proof.
  destruct exp_m1_bounds as [Hl Hu].
  assert (Hpos : 0 < 1 + 2 * exp (- 1)) by lra.
  split; apply exp_lt_inv; rewrite exp_ln by exact Hpos.
  - assert (H := exp_055135_upper). lra.
  - assert (H := exp_055145_lower). lra.
Qed.

(** ** The concrete scenario *)

Lemma scores0_values :
  dot 2 W0 X0 0%nat 0%nat = 1 /\ dot 2 W0 X0 1%nat 0%nat = 0 /\ dot 2 W0 X0 2%nat 0%nat = 0.
Proof. unfold dot, W0, X0. simpl. repeat split; lra. Qed.

Lemma naive_scores0_values :
  naive_scores 3 2 W0 X0 0 0%nat = 1 /\
  naive_scores 3 2 W0 X0 0 1%nat = 0 /\
  naive_scores 3 2 W0 X0 0 2%nat = 0.
Proof.
  unfold naive_scores, vdot, setitem, W0, X0. simpl. repeat split; lra.
Qed.

Lemma Rmax_1_0_0 : Rmax (Rmax 1 0) 0 = 1.
Proof. rewrite (Rmax_left 1 0) by lra. apply Rmax_left. lra. Qed.

Lemma shifted0_values :
  shifted0 0%nat = 0 /\ shifted0 1%nat = -1 /\ shifted0 2%nat = -1.
Proof.
  destruct scores0_values as [E0 [E1 E2]].
  unfold shifted0. rewrite E0, E1, E2. repeat split; lra.
Qed.

Lemma softmax0_values :
  softmax 3 shifted0 0%nat = / (1 + 2 * exp (-1)) /\
  softmax 3 shifted0 1%nat = exp (-1) / (1 + 2 * exp (-1)) /\
  softmax 3 shifted0 2%nat = exp (-1) / (1 + 2 * exp (-1)).
Proof.
  destruct shifted0_values as [E0 [E1 E2]].
  assert (Ha := exp_pos (-1)).
  unfold softmax. simpl. rewrite E0, E1, E2, exp_0.
  repeat split; field; lra.
Qed.

Lemma softmax0_loss :
  mean 1 (softmax_sample_loss 3 2 W0 X0 y0) + reg_loss 3 2 W0 0 =
  - ln (softmax 3 shifted0 0%nat).
Proof.
  unfold mean, reg_loss, softmax_sample_loss, prob. simpl sum_range.
  change (row_of 3 y0 0) with 0%nat.
  rewrite <- (softmax_shift 3 (fun j => scores 2 W0 X0 j 0%nat) 1 0%nat) by lia.
  change (softmax 3 (fun j => scores 2 W0 X0 j 0%nat - 1) 0%nat) with
    (softmax 3 shifted0 0%nat).
  simpl INR. lra.
Qed.

(** C6.  On K = 3, D = 2, N = 1, W = [[1,0],[0,1],[0,0]], X = [[1],[0]],
    y = [0], reg = 0 both softmax forms compute the scores [1, 0, 0],
    subtract the maximum 1, which leaves [0, -1, -1], have probabilities
    within 0.0005 of [0.576, 0.212, 0.212], and return the loss
    [-log(p[0])], which is within 0.00005 of 0.5514; the hinge form
    returns the loss 0. *)
Theorem concrete_scenario :
  (naive_scores 3 2 W0 X0 0 0%nat = 1 /\
   naive_scores 3 2 W0 X0 0 1%nat = 0 /\
   naive_scores 3 2 W0 X0 0 2%nat = 0) /\
  (dot 2 W0 X0 0%nat 0%nat = 1 /\ dot 2 W0 X0 1%nat 0%nat = 0 /\ dot 2 W0 X0 2%nat 0%nat = 0) /\
  np_max 3 (naive_scores 3 2 W0 X0 0) = Returns 1 /\
  np_max2 3 1 (dot 2 W0 X0) = Returns 1 /\
  (forall k, (k < 3)%nat -> naive_scores 3 2 W0 X0 0 k - 1 = shifted0 k) /\
  (shifted0 0%nat = 0 /\ shifted0 1%nat = -1 /\ shifted0 2%nat = -1) /\
  (Rabs (softmax 3 shifted0 0%nat - 0.576) < 0.0005 /\
   Rabs (softmax 3 shifted0 1%nat - 0.212) < 0.0005 /\
   Rabs (softmax 3 shifted0 2%nat - 0.212) < 0.0005) /\
  (exists loss g,
     loss_grad_softmax_naive 3 2 1 W0 X0 y0 0 = Returns (loss, g) /\
     loss = - ln (softmax 3 shifted0 0%nat) /\
     Rabs (loss - 0.5514) < 0.00005) /\
  (exists loss g,
     loss_grad_softmax_vectorized 3 2 1 W0 X0 y0 0 = Returns (loss, g) /\
     loss = - ln (softmax 3 shifted0 0%nat) /\
     Rabs (loss - 0.5514) < 0.00005) /\
  (exists g, loss_grad_svm_vectorized 3 2 1 W0 X0 y0 0 = Returns (0, g)).
Proof.
  assert (Hn := naive_scores0_values). assert (Hs := scores0_values).
  assert (Hsh := shifted0_values).
  destruct softmax0_values as [P0 [P1 P2]].
  destruct exp_m1_bounds as [Al Au].
  destruct ln_1_2_exp_m1_bounds as [Ll Lu].
  assert (Hloss : Rabs (- ln (softmax 3 shifted0 0%nat) - 0.5514) < 0.00005).
  { rewrite P0. rewrite ln_Rinv by lra. rewrite Ropp_involutive.
    apply Rabs_def1; lra. }
  assert (Hin : labels_in_bounds 3 1 y0) by (intros n _; reflexivity).
  split; [exact Hn|]. split; [exact Hs|].
  split.
  { unfold np_max. simpl Nat.eqb. cbv iota. apply f_equal.
    destruct Hn as [E0 [E1 E2]].
    change (max_range 3 (naive_scores 3 2 W0 X0 0)) with
      (Rmax (Rmax (naive_scores 3 2 W0 X0 0 0%nat) (naive_scores 3 2 W0 X0 0 1%nat))
            (naive_scores 3 2 W0 X0 0 2%nat)).
    rewrite E0, E1, E2. apply Rmax_1_0_0. }
  split.
  { unfold np_max2. simpl Nat.eqb. cbv iota. apply f_equal.
    destruct Hs as [E0 [E1 E2]].
    change (max_range 3 (fun i => max_range 1 (dot 2 W0 X0 i))) with
      (Rmax (Rmax (dot 2 W0 X0 0%nat 0%nat) (dot 2 W0 X0 1%nat 0%nat)) (dot 2 W0 X0 2%nat 0%nat)).
    rewrite E0, E1, E2. apply Rmax_1_0_0. }
  split.
  { intros k Hk. unfold shifted0.
    destruct Hn as [E0 [E1 E2]]. destruct Hs as [F0 [F1 F2]].
    destruct k as [|[|[|k]]]; [| | |lia]; congruence. }
  split; [exact Hsh|].
  split.
  { rewrite P0, P1, P2.
    assert (Hd : 0 < / (1 + 2 * exp (-1))) by (apply Rinv_0_lt_compat; lra).
    assert (Hq : / (1 + 2 * exp (-1)) * (1 + 2 * exp (-1)) = 1)
      by (field; lra).
    unfold Rdiv.
    repeat split; apply Rabs_def1; nra. }
  destruct (naive_spec 3 2 1 W0 X0 y0 0 (Nat.le_refl 1) Hin) as [g1 [E1 _]].
  destruct (vectorized_spec 3 2 1 W0 X0 y0 0 (Nat.le_refl 1) Hin)
    as [g2 [E2 _]].
  rewrite softmax0_loss in E1, E2.
  split; [exists (- ln (softmax 3 shifted0 0%nat)), g1; auto|].
  split; [exists (- ln (softmax 3 shifted0 0%nat)), g2; auto|].
  assert (Hv : valid_input 3 1 y0 0).
  { split; [lia|]. split; [|lra]. intros n _. unfold y0. lia. }
  destruct (svm_loss_margins_met 3 2 1 W0 X0 y0 0 Hv) as [g3 E3].
  { intros n k Hn' Hk Hne. assert (n = 0)%nat as -> by lia.
    change (label y0 0) with 0%nat in *.
    destruct Hs as [F0 [F1 F2]]. unfold scores.
    destruct k as [|[|[|k]]]; [contradiction| | |lia]; lra. }
  exists g3. rewrite E3. apply f_equal. apply f_equal2; [lra|reflexivity].
Qed.

(** ** The store and the values *)

(** Runs over a store [h ++ ext], where [h] is the store of the caller
    and [ext] the cells that the call has allocated. *)
Section Exec.
Variables (h : list Store.obj).

Lemma alloc_ext ext fin o :
  Store.alloc o (Store.mkState (h ++ ext) fin) =
  (Store.Val (length h + length ext)%nat,
   Store.mkState (h ++ (ext ++ [o])) fin).
Proof.
  unfold Store.alloc. simpl. rewrite length_app, app_assoc. reflexivity.
Qed.

Lemma load_base ext fin l o :
  nth_error h l = Some o ->
  Store.load l (Store.mkState (h ++ ext) fin) =
  (Store.Val o, Store.mkState (h ++ ext) fin).
Proof.
  intros E. unfold Store.load. simpl.
  rewrite nth_error_app1 by (apply nth_error_Some; rewrite E; discriminate).
  rewrite E. reflexivity.
Qed.

Lemma load_ext ext fin i o :
  nth_error ext i = Some o ->
  Store.load (length h + i)%nat (Store.mkState (h ++ ext) fin) =
  (Store.Val o, Store.mkState (h ++ ext) fin).
Proof.
  intros E. unfold Store.load. simpl.
  rewrite nth_error_app2 by lia.
  replace (length h + i - length h)%nat with i by lia.
  rewrite E. reflexivity.
Qed.

Lemma replace_app_r i o ext :
  Store.replace (length h + i)%nat o (h ++ ext) = h ++ Store.replace i o ext.
Proof.
  induction h as [|x t IH]; simpl.
  - reflexivity.
  - rewrite IH. reflexivity.
Qed.

Lemma store_ext ext fin i o :
  (i < length ext)%nat ->
  Store.store (length h + i)%nat o (Store.mkState (h ++ ext) fin) =
  (Store.Val tt, Store.mkState (h ++ Store.replace i o ext) fin).
Proof.
  intros Hi. unfold Store.store. simpl.
  destruct (Nat.ltb_spec (length h + i)%nat (length (h ++ ext))) as [_|H].
  - rewrite replace_app_r. reflexivity.
  - rewrite length_app in H. lia.
Qed.

End Exec.

Lemma load2_base h ext fin l a :
  nth_error h l = Some (Store.Floats2 a) ->
  Store.load2 l (Store.mkState (h ++ ext) fin) =
  (Store.Val a, Store.mkState (h ++ ext) fin).
Proof.
  intros E. unfold Store.load2, Store.bind.
  rewrite (load_base h ext fin l _ E). reflexivity.
Qed.

Lemma loadi_base h ext fin l a :
  nth_error h l = Some (Store.Ints1 a) ->
  Store.loadi l (Store.mkState (h ++ ext) fin) =
  (Store.Val a, Store.mkState (h ++ ext) fin).
Proof.
  intros E. unfold Store.loadi, Store.bind.
  rewrite (load_base h ext fin l _ E). reflexivity.
Qed.

Lemma load2_ext h ext fin i a :
  nth_error ext i = Some (Store.Floats2 a) ->
  Store.load2 (length h + i)%nat (Store.mkState (h ++ ext) fin) =
  (Store.Val a, Store.mkState (h ++ ext) fin).
Proof.
  intros E. unfold Store.load2, Store.bind.
  rewrite (load_ext h ext fin i _ E). reflexivity.
Qed.

Lemma load1_ext h ext fin i a :
  nth_error ext i = Some (Store.Floats1 a) ->
  Store.load1 (length h + i)%nat (Store.mkState (h ++ ext) fin) =
  (Store.Val a, Store.mkState (h ++ ext) fin).
Proof.
  intros E. unfold Store.load1, Store.bind.
  rewrite (load_ext h ext fin i _ E). reflexivity.
Qed.

Lemma bind_run {A B : Type} (c : Store.M A) (k : A -> Store.M B) s :
  Store.bind c k s =
  match c s with
  | (Store.Val a, s') => k a s'
  | (Store.Exc e, s') => (Store.Exc e, s')
  end.
Proof. reflexivity. Qed.

Lemma ret_run {A : Type} (a : A) s : Store.ret a s = (Store.Val a, s).
Proof. reflexivity. Qed.

Lemma raise_run {A : Type} e s : @Store.raise A e s = (Store.Exc e, s).
Proof. reflexivity. Qed.

Lemma lift_returns {A : Type} (a nan : A) s :
  Store.lift (Returns a) nan s = (Store.Val a, s).
Proof. reflexivity. Qed.

Lemma lift_raises {A : Type} e (nan : A) s :
  Store.lift (Raises e) nan s = (Store.Exc e, s).
Proof. reflexivity. Qed.

Lemma lift_nonfinite {A : Type} (nan : A) s :
  Store.lift NonFinite nan s =
  (Store.Val nan, Store.mkState (Store.cells s) false).
Proof. reflexivity. Qed.

Ltac sx1 HW HX Hy :=
  first
    [ rewrite (load2_base _ _ _ _ _ HW)
    | rewrite (load2_base _ _ _ _ _ HX)
    | rewrite (loadi_base _ _ _ _ _ Hy)
    | rewrite alloc_ext
    | erewrite load2_ext by reflexivity
    | erewrite load1_ext by reflexivity
    | rewrite store_ext by (simpl; lia)
    | rewrite ret_run
    | rewrite raise_run
    | rewrite lift_returns
    | rewrite lift_raises
    | rewrite lift_nonfinite
    | match goal with
      | E : ?o = Returns _ |- context [?o] => rewrite E
      | E : ?o = Raises _ |- context [?o] => rewrite E
      end ];
  cbn [length app Nat.add Store.replace fst snd];
  cbv beta iota delta [Store.cells Store.finite].

Ltac sx HW HX Hy :=
  repeat (first [rewrite bind_run | sx1 HW HX Hy];
          cbv beta iota).

Lemma index_rows_finite K N y : index_rows K N y <> NonFinite.
Proof. unfold index_rows. destruct (forallb _ _); discriminate. Qed.

Lemma np_max2_finite r c A : np_max2 r c A <> NonFinite.
Proof. unfold np_max2. destruct (Nat.eqb _ _); discriminate. Qed.

Lemma nth_error_fresh (h ext : list Store.obj) i o :
  nth_error ext i = Some o -> nth_error (h ++ ext) (length h + i) = Some o.
Proof.
  intros E. rewrite nth_error_app2 by lia.
  replace (length h + i - length h)%nat with i by lia. exact E.
Qed.

Lemma svm_refines K D N W X y reg h Wv Xv yv :
  nth_error h W = Some (Store.Floats2 Wv) ->
  nth_error h X = Some (Store.Floats2 Xv) ->
  nth_error h y = Some (Store.Ints1 yv) ->
  agrees (loss_grad_svm_vectorized K D N Wv Xv yv reg)
    (Store.run (Store.loss_grad_svm_vectorized K D N W X y reg)
       (Store.mkState h true)).
Proof.
  intros HW HX Hy.
  rewrite <- (app_nil_r h) at 1.
  unfold Store.run, Store.loss_grad_svm_vectorized, loss_grad_svm_vectorized.
  unfold Store.sum_sq, Store.div_int, np_div_int.
  cbv zeta.
  destruct (index_rows K N yv) as [rows|e|] eqn:Er;
    [| |destruct (index_rows_finite _ _ _ Er)].
  - destruct (Nat.eqb N 0) eqn:EN; sx HW HX Hy.
    + exact I.
    + split; [reflexivity|]. apply nth_error_fresh. reflexivity.
  - sx HW HX Hy. reflexivity.
Qed.

Lemma vectorized_refines K D N W X y reg h Wv Xv yv :
  nth_error h W = Some (Store.Floats2 Wv) ->
  nth_error h X = Some (Store.Floats2 Xv) ->
  nth_error h y = Some (Store.Ints1 yv) ->
  agrees (loss_grad_softmax_vectorized K D N Wv Xv yv reg)
    (Store.run (Store.loss_grad_softmax_vectorized K D N W X y reg)
       (Store.mkState h true)).
Proof.
  intros HW HX Hy.
  rewrite <- (app_nil_r h) at 1.
  unfold Store.run, Store.loss_grad_softmax_vectorized,
    loss_grad_softmax_vectorized, softmax_vectorized_from.
  unfold Store.sum_sq, Store.div_int, np_div_int.
  cbv zeta.
  destruct (np_max2 K N (dot D Wv Xv)) as [m|e|] eqn:Em;
    [| |destruct (np_max2_finite _ _ _ Em)].
  - cbn [bind].
    destruct (index_rows K N yv) as [rows|e|] eqn:Er;
      [| |destruct (index_rows_finite _ _ _ Er)].
    + destruct (Nat.eqb N 0) eqn:EN; sx HW HX Hy.
      * exact I.
      * split; [reflexivity|]. apply nth_error_fresh. reflexivity.
    + sx HW HX Hy. reflexivity.
  - sx HW HX Hy. reflexivity.
Qed.

Section Exec3.

Variables (h : list Store.obj) (junk : list Store.obj).

Lemma st3_split G ext :
  h ++ Store.Floats2 G :: junk ++ ext = (h ++ Store.Floats2 G :: junk) ++ ext.
Proof. rewrite <- app_assoc. reflexivity. Qed.

Lemma st3_length G :
  length (h ++ Store.Floats2 G :: junk) = (length h + S (length junk))%nat.
Proof. rewrite length_app. reflexivity. Qed.

Lemma alloc3 G ext fin o :
  Store.alloc o (st3 h G junk ext fin) =
  (Store.Val (length h + S (length junk) + length ext)%nat,
   st3 h G junk (ext ++ [o]) fin).
Proof.
  unfold st3. rewrite !st3_split, alloc_ext, st3_length. reflexivity.
Qed.

Lemma load3_in G ext fin l o :
  nth_error h l = Some o ->
  Store.load l (st3 h G junk ext fin) = (Store.Val o, st3 h G junk ext fin).
Proof. intros E. unfold st3. apply load_base. exact E. Qed.

Lemma load3_grad G ext fin :
  Store.load (length h) (st3 h G junk ext fin) =
  (Store.Val (Store.Floats2 G), st3 h G junk ext fin).
Proof.
  unfold st3, Store.load. simpl.
  rewrite nth_error_app2 by lia. rewrite Nat.sub_diag. reflexivity.
Qed.

Lemma load3_new G ext fin i o :
  nth_error ext i = Some o ->
  Store.load (length h + S (length junk) + i)%nat (st3 h G junk ext fin) =
  (Store.Val o, st3 h G junk ext fin).
Proof.
  intros E. unfold st3. rewrite st3_split, <- (st3_length G).
  apply load_ext. exact E.
Qed.

Lemma store3_new G ext fin i o :
  (i < length ext)%nat ->
  Store.store (length h + S (length junk) + i)%nat o (st3 h G junk ext fin) =
  (Store.Val tt, st3 h G junk (Store.replace i o ext) fin).
Proof.
  intros Hi. unfold st3. rewrite !st3_split, <- (st3_length G).
  apply store_ext. exact Hi.
Qed.

Lemma store3_grad G ext fin o :
  Store.store (length h) (Store.Floats2 o) (st3 h G junk ext fin) =
  (Store.Val tt, st3 h o junk ext fin).
Proof.
  unfold st3, Store.store. simpl.
  destruct (Nat.ltb_spec (length h)
              (length (h ++ Store.Floats2 G :: junk ++ ext))) as [_|H].
  - replace (length h) with (length h + 0)%nat at 1 by lia.
    rewrite replace_app_r. reflexivity.
  - rewrite length_app in H. simpl in H. lia.
Qed.

End Exec3.

Lemma load2_3in h junk G ext fin l a :
  nth_error h l = Some (Store.Floats2 a) ->
  Store.load2 l (st3 h G junk ext fin) = (Store.Val a, st3 h G junk ext fin).
Proof.
  intros E. unfold Store.load2, Store.bind.
  rewrite (load3_in h junk G ext fin l _ E). reflexivity.
Qed.

Lemma loadi_3in h junk G ext fin l a :
  nth_error h l = Some (Store.Ints1 a) ->
  Store.loadi l (st3 h G junk ext fin) = (Store.Val a, st3 h G junk ext fin).
Proof.
  intros E. unfold Store.loadi, Store.bind.
  rewrite (load3_in h junk G ext fin l _ E). reflexivity.
Qed.

Lemma load2_3grad h junk G ext fin :
  Store.load2 (length h) (st3 h G junk ext fin) =
  (Store.Val G, st3 h G junk ext fin).
Proof.
  unfold Store.load2, Store.bind. rewrite load3_grad. reflexivity.
Qed.

Lemma load1_3new h junk G ext fin i v :
  nth_error ext i = Some (Store.Floats1 v) ->
  Store.load1 (length h + S (length junk) + i)%nat (st3 h G junk ext fin) =
  (Store.Val v, st3 h G junk ext fin).
Proof.
  intros E. unfold Store.load1, Store.bind.
  rewrite (load3_new h junk G ext fin i _ E). reflexivity.
Qed.

Ltac sx3_1 HW HX Hy :=
  first
    [ rewrite (load2_3in _ _ _ _ _ _ _ HW)
    | rewrite (load2_3in _ _ _ _ _ _ _ HX)
    | rewrite (loadi_3in _ _ _ _ _ _ _ Hy)
    | rewrite load2_3grad
    | rewrite alloc3
    | erewrite load1_3new by reflexivity
    | rewrite store3_new by (simpl; lia)
    | rewrite store3_grad
    | rewrite ret_run
    | rewrite raise_run
    | rewrite lift_returns
    | rewrite lift_raises
    | rewrite lift_nonfinite
    | match goal with
      | E : ?o = Returns _ |- context [?o] => rewrite E
      | E : ?o = Raises _ |- context [?o] => rewrite E
      end ];
  cbn [length app Nat.add Store.replace fst snd];
  cbv beta iota delta [Store.cells Store.finite].

Ltac sx3 HW HX Hy :=
  repeat (first [rewrite bind_run | sx3_1 HW HX Hy];
          cbv beta iota).

Section NaiveRefines.

Variables (K D N : nat) (W X y : Store.loc) (reg : R).
Variables (h : list Store.obj) (Wv Xv : matrix) (yv : nat -> Z).
Hypothesis HW : nth_error h W = Some (Store.Floats2 Wv).
Hypothesis HX : nth_error h X = Some (Store.Floats2 Xv).
Hypothesis Hy : nth_error h y = Some (Store.Ints1 yv).

Lemma scores_loop_refines junk G fin i k v :
  Store.for_range k
    (fun cls _ =>
       Store.bind
         (Store.bind (Store.load2 W) (fun Wv => Store.ret (Wv cls)))
         (fun w =>
            Store.bind
              (Store.bind (Store.load2 X)
                 (fun Xv => Store.ret (fun d => Xv d i)))
              (fun x =>
                 Store.bind
                   (Store.load1 (length h + S (length junk) + 0)%nat)
                   (fun s =>
                      Store.store (length h + S (length junk) + 0)%nat
                        (Store.Floats1 (setitem s cls (vdot D w x)))))))
    tt (st3 h G junk [Store.Floats1 v] fin) =
  (Store.Val tt,
   st3 h G junk
     [Store.Floats1
        (for_range k
           (fun cls s => setitem s cls (vdot D (Wv cls) (fun d => Xv d i)))
           v)] fin).
Proof.
  induction k as [|k IH].
  - reflexivity.
  - cbn [Store.for_range for_range]. rewrite bind_run, IH.
    cbv beta iota. sx3 HW HX Hy. reflexivity.
Qed.

Lemma grad_loop_refines junk G fin i k s p :
  Store.for_range k
    (fun j _ =>
       Store.bind (Store.load1 (length h + S (length junk) + 1)%nat)
         (fun p =>
            Store.bind
              (Store.bind (Store.load2 X)
                 (fun Xv => Store.ret (fun d => Xv d i)))
              (fun x =>
                 Store.bind (Store.load2 (length h))
                   (fun g =>
                      Store.store (length h)
                        (Store.Floats2
                           (setrow g j (fun d => g j d + p j * x d)))))))
    tt (st3 h G junk [Store.Floats1 s; Store.Floats1 p] fin) =
  (Store.Val tt,
   st3 h
     (for_range k
        (fun j g => setrow g j (fun d => g j d + p j * Xv d i)) G)
     junk [Store.Floats1 s; Store.Floats1 p] fin).
Proof.
  induction k as [|k IH].
  - reflexivity.
  - cbn [Store.for_range for_range]. rewrite bind_run, IH.
    cbv beta iota. sx3 HW HX Hy. reflexivity.
Qed.

Lemma st3_absorb junk G ext fin :
  st3 h G junk ext fin = st3 h G (junk ++ ext) [] fin.
Proof. unfold st3. rewrite app_nil_r. reflexivity. Qed.

Lemma np_max_finite n a : np_max n a <> NonFinite.
Proof. unfold np_max. destruct (Nat.eqb n 0); discriminate. Qed.

Lemma norm_index_finite n i : norm_index n i <> NonFinite.
Proof. unfold norm_index. destruct (in_bounds n i); discriminate. Qed.

Ltac sxn :=
  repeat (first
            [ rewrite scores_loop_refines
            | rewrite grad_loop_refines
            | rewrite bind_run
            | sx3_1 HW HX Hy ];
          cbv beta iota).

Lemma naive_sample_refines junk G i loss :
  match naive_sample K D Wv Xv yv i (loss, G) with
  | Returns (l', G') =>
      exists ext,
        Store.naive_sample K D W X y (length h) i loss (st3 h G junk [] true) =
        (Store.Val l', st3 h G' junk ext true)
  | Raises e =>
      exists s',
        Store.naive_sample K D W X y (length h) i loss (st3 h G junk [] true) =
        (Store.Exc e, s')
  | NonFinite => False
  end.
Proof.
  unfold Store.naive_sample, naive_sample, naive_sample_from, naive_scores.
  cbv zeta.
  destruct (np_max K _) as [m|e|] eqn:Em;
    [| |destruct (np_max_finite _ _ Em)]; cbn [bind].
  - destruct (norm_index K (yv i)) as [c|e|] eqn:Ec;
      [| |destruct (norm_index_finite _ _ Ec)]; cbn [bind].
    + eexists. sxn. reflexivity.
    + eexists. sxn. reflexivity.
  - eexists. sxn. reflexivity.
Qed.

Lemma naive_loop_refines n :
  match for_rangeM n (naive_sample K D Wv Xv yv) (0, fun _ _ => 0) with
  | Returns (l, G) =>
      exists junk,
        Store.for_range n (Store.naive_sample K D W X y (length h)) 0
          (st3 h (fun _ _ => 0) [] [] true) =
        (Store.Val l, st3 h G junk [] true)
  | Raises e =>
      exists s',
        Store.for_range n (Store.naive_sample K D W X y (length h)) 0
          (st3 h (fun _ _ => 0) [] [] true) =
        (Store.Exc e, s')
  | NonFinite => False
  end.
Proof.
  induction n as [|n IH].
  - exists []. reflexivity.
  - cbn [for_rangeM Store.for_range].
    destruct (for_rangeM n (naive_sample K D Wv Xv yv) (0, fun _ _ => 0))
      as [[l G]|e|]; cbn [bind].
    + destruct IH as [junk E]. rewrite bind_run, E.
      assert (Hs := naive_sample_refines junk G n l).
      destruct (naive_sample K D Wv Xv yv n (l, G)) as [[l' G']|e|].
      * destruct Hs as [ext E2]. exists (junk ++ ext).
        rewrite E2. apply f_equal. apply st3_absorb.
      * destruct Hs as [s' E2]. exists s'. exact E2.
      * exact Hs.
    + destruct IH as [s' E]. exists s'. rewrite bind_run, E. reflexivity.
    + exact IH.
Qed.

Lemma py_div_finite x n : py_div x n <> NonFinite.
Proof. unfold py_div. destruct (Nat.eqb n 0); discriminate. Qed.

Lemma naive_refines :
  agrees (loss_grad_softmax_naive K D N Wv Xv yv reg)
    (Store.run (Store.loss_grad_softmax_naive K D N W X y reg)
       (Store.mkState h true)).
Proof.
  unfold Store.run, Store.loss_grad_softmax_naive, loss_grad_softmax_naive.
  unfold Store.sum_sq, Store.div_int.
  cbv zeta.
  rewrite <- (app_nil_r h) at 1.
  rewrite bind_run, (load2_base _ _ _ _ _ HW). cbv beta iota.
  rewrite bind_run, alloc_ext. cbv beta iota.
  cbn [length app]. rewrite Nat.add_0_r.
  change (Store.mkState (h ++ [Store.Floats2 (fun _ _ => 0)]) true)
    with (st3 h (fun _ _ => 0) [] [] true).
  rewrite bind_run, (load2_3in _ _ _ _ _ _ _ HX). cbv beta iota.
  rewrite bind_run.
  assert (Hl := naive_loop_refines N).
  unfold matrix in *.
  destruct (for_rangeM N _ _) as [[l G]|e|]; cbn [bind].
  - destruct Hl as [junk E]. rewrite E. cbv beta iota.
    destruct (py_div l N) as [l'|e|] eqn:Ed;
      [| |destruct (py_div_finite _ _ Ed)]; cbn [bind].
    + unfold np_div_int.
      assert (EN : Nat.eqb N 0 = false).
      { unfold py_div in Ed. destruct (Nat.eqb N 0); [discriminate|reflexivity]. }
      rewrite EN. cbn [bind]. sxn.
      unfold st3. cbv beta iota delta [Store.cells Store.finite].
      split; [reflexivity|]. cbn [snd].
      rewrite nth_error_app2 by lia. rewrite Nat.sub_diag. reflexivity.
    + sxn. reflexivity.
  - destruct Hl as [s' E]. rewrite E. reflexivity.
  - destruct Hl.
Qed.

End NaiveRefines.

(** ** The arrays of the caller *)

Lemma unchanged_below_refl n s : unchanged_below n s s.
Proof. split; [lia|reflexivity]. Qed.

Lemma unchanged_below_trans n s1 s2 s3 :
  unchanged_below n s1 s2 -> unchanged_below n s2 s3 ->
  unchanged_below n s1 s3.
Proof.
  intros [L1 E1] [L2 E2]. split; [lia|].
  intros l Hl. rewrite E2, E1 by exact Hl. reflexivity.
Qed.

Lemma replace_length l o h : length (Store.replace l o h) = length h.
Proof.
  induction h as [|x t IH] in l |- *; simpl.
  - reflexivity.
  - destruct l; simpl; [reflexivity|]. rewrite IH. reflexivity.
Qed.

Lemma replace_other l o h l' :
  l' <> l -> nth_error (Store.replace l o h) l' = nth_error h l'.
Proof.
  induction h as [|x t IH] in l, l' |- *; intros Hne; simpl.
  - reflexivity.
  - destruct l, l'; simpl; try reflexivity; try lia.
    apply IH. lia.
Qed.

Lemma frames_weaken {A : Type} n (c : Store.M A) (P Q : A -> Prop) :
  frames n c P -> (forall a, P a -> Q a) -> frames n c Q.
Proof.
  intros Hc HPQ s Hs. destruct (Hc s Hs) as [Hu Hv]. split; [exact Hu|].
  destruct (fst (c s)); [apply HPQ; exact Hv|exact I].
Qed.

Lemma frames_ret {A : Type} n (a : A) (Q : A -> Prop) :
  Q a -> frames n (Store.ret a) Q.
Proof. intros Ha s Hs. split; [apply unchanged_below_refl|exact Ha]. Qed.

Lemma frames_ret_any {A : Type} n (a : A) :
  frames n (Store.ret a) (fun _ => True).
Proof. apply frames_ret. exact I. Qed.

Lemma frames_raise {A : Type} n e (Q : A -> Prop) :
  frames n (Store.raise e) Q.
Proof. intros s Hs. split; [apply unchanged_below_refl|exact I]. Qed.

Lemma frames_bind {A B : Type} n (c : Store.M A) (k : A -> Store.M B)
      (P : A -> Prop) (Q : B -> Prop) :
  frames n c P -> (forall a, P a -> frames n (k a) Q) ->
  frames n (Store.bind c k) Q.
Proof.
  intros Hc Hk s Hs. unfold Store.bind.
  destruct (Hc s Hs) as [Hu Hv].
  destruct (c s) as [[a|e] s'] eqn:E; simpl in *.
  - assert (Hs' : (n <= length (Store.cells s'))%nat) by (destruct Hu; lia).
    destruct (Hk a Hv s' Hs') as [Hu' Hv']. split; [|exact Hv'].
    eapply unchanged_below_trans; eassumption.
  - split; [exact Hu|exact I].
Qed.

Lemma frames_alloc n o : frames n (Store.alloc o) (fun l => (n <= l)%nat).
Proof.
  intros s Hs. simpl. split; [|exact Hs].
  split; simpl.
  - rewrite length_app. lia.
  - intros l Hl. apply nth_error_app1. lia.
Qed.

Lemma frames_load n l : frames n (Store.load l) (fun _ => True).
Proof.
  intros s Hs. unfold Store.load.
  destruct (nth_error (Store.cells s) l); simpl;
    (split; [apply unchanged_below_refl|exact I]).
Qed.

Lemma frames_load2 n l : frames n (Store.load2 l) (fun _ => True).
Proof.
  unfold Store.load2. eapply frames_bind; [apply frames_load|].
  intros [a|v|y] _; [apply frames_ret_any|apply frames_raise..].
Qed.

Lemma frames_load1 n l : frames n (Store.load1 l) (fun _ => True).
Proof.
  unfold Store.load1. eapply frames_bind; [apply frames_load|].
  intros [a|v|y] _; [|apply frames_ret_any|]; apply frames_raise.
Qed.

Lemma frames_loadi n l : frames n (Store.loadi l) (fun _ => True).
Proof.
  unfold Store.loadi. eapply frames_bind; [apply frames_load|].
  intros [a|v|y] _; [| |apply frames_ret_any]; apply frames_raise.
Qed.

(** A write of a cell that is not below [n]. *)
Lemma frames_store n l o :
  (n <= l)%nat -> frames n (Store.store l o) (fun _ => True).
Proof.
  intros Hl s Hs. unfold Store.store.
  destruct (Nat.ltb l (length (Store.cells s))); simpl.
  - split; [|exact I]. split; simpl.
    + rewrite replace_length. lia.
    + intros l' Hl'. apply replace_other. lia.
  - split; [apply unchanged_below_refl|exact I].
Qed.

Lemma frames_lift {A : Type} n (o : outcome A) nan :
  frames n (Store.lift o nan) (fun _ => True).
Proof.
  intros s Hs. unfold Store.lift.
  destruct o; simpl; (split; [|exact I]); split; simpl;
    try lia; reflexivity.
Qed.

Lemma frames_div_int {A : Type} n (a : A) k q :
  frames n (Store.div_int a k q) (fun _ => True).
Proof. apply frames_lift. Qed.

Lemma frames_for_range {St : Type} n k (body : nat -> St -> Store.M St) st :
  (forall i t, frames n (body i t) (fun _ => True)) ->
  frames n (Store.for_range k body st) (fun _ => True).
Proof.
  intros Hb. induction k as [|k IH]; simpl.
  - apply frames_ret_any.
  - eapply frames_bind; [exact IH|]. intros t _. apply Hb.
Qed.

Ltac frame_step :=
  lazymatch goal with
  | |- frames _ (Store.bind _ _) _ => eapply frames_bind; [|intros ? ?]
  | |- frames _ (Store.ret _) _ =>
      first [apply frames_ret_any | apply frames_ret; assumption]
  | |- frames _ (Store.alloc _) _ => apply frames_alloc
  | |- frames _ (Store.load2 _) _ => apply frames_load2
  | |- frames _ (Store.load1 _) _ => apply frames_load1
  | |- frames _ (Store.loadi _) _ => apply frames_loadi
  | |- frames _ (Store.store _ _) _ => apply frames_store; assumption
  | |- frames _ (Store.lift _ _) _ => apply frames_lift
  | |- frames _ (Store.div_int _ _ _) _ => apply frames_div_int
  | |- frames _ (Store.sum_sq _ _ _) _ =>
      unfold Store.sum_sq
  | |- frames _ (Store.for_range _ _ _) _ =>
      apply frames_for_range; intros ? ?
  end.

Ltac frame_steps := cbv zeta; repeat (frame_step; cbv zeta).

Lemma frames_naive_sample n K D W X y grad i loss :
  (n <= grad)%nat ->
  frames n (Store.naive_sample K D W X y grad i loss) (fun _ => True).
Proof. intros Hg. unfold Store.naive_sample. frame_steps. Qed.

Lemma frames_naive n K D N W X y reg :
  frames n (Store.loss_grad_softmax_naive K D N W X y reg)
    (fun r => (n <= snd r)%nat).
Proof.
  unfold Store.loss_grad_softmax_naive. cbv zeta.
  eapply frames_bind; [apply frames_load2|intros ? ?].
  eapply frames_bind; [apply frames_alloc|intros grad Hg].
  eapply frames_bind; [apply frames_load2|intros ? ?].
  eapply frames_bind.
  { apply frames_for_range. intros i t.
    apply frames_naive_sample. exact Hg. }
  intros ? ?. frame_steps.
Qed.

Lemma frames_vectorized n K D N W X y reg :
  frames n (Store.loss_grad_softmax_vectorized K D N W X y reg)
    (fun r => (n <= snd r)%nat).
Proof. unfold Store.loss_grad_softmax_vectorized. frame_steps. Qed.

Lemma frames_svm n K D N W X y reg :
  frames n (Store.loss_grad_svm_vectorized K D N W X y reg)
    (fun r => (n <= snd r)%nat).
Proof. unfold Store.loss_grad_svm_vectorized. frame_steps. Qed.

Lemma frames_objectives n f g K D N W X y reg :
  In (f, g) objectives ->
  frames n (f K D N W X y reg) (fun r => (n <= snd r)%nat).
Proof.
  intros [E|[E|[E|[]]]]; injection E as <- <-.
  - apply frames_naive.
  - apply frames_vectorized.
  - apply frames_svm.
Qed.

Lemma objectives_refine f g K D N W X y reg h Wv Xv yv :
  In (f, g) objectives ->
  nth_error h W = Some (Store.Floats2 Wv) ->
  nth_error h X = Some (Store.Floats2 Xv) ->
  nth_error h y = Some (Store.Ints1 yv) ->
  agrees (g K D N Wv Xv yv reg)
    (Store.run (f K D N W X y reg) (Store.mkState h true)).
Proof.
  intros [E|[E|[E|[]]]] HW HX Hy; injection E as <- <-.
  - apply naive_refines; assumption.
  - apply vectorized_refines; assumption.
  - apply svm_refines; assumption.
Qed.

(** C9.  No objective function mutates its inputs.  Whatever store [s]
    the caller has, with [W], [X] and [y] bound to arrays in it, after a
    call of any of the three functions, whether it returns or raises,
    [W], [X] and [y] are bound to the same arrays with the same entries,
    and so is every other cell of the caller; the in-place operations of
    the call write cells that the call has allocated; the gradient that
    is returned is a cell that the caller's store did not have, the loss
    being a number; and the call returns the loss and, in that cell, the
    gradient of the function on the values. *)
Theorem inputs_not_mutated f g K D N W X y reg s Wv Xv yv :
  In (f, g) objectives ->
  nth_error (Store.cells s) W = Some (Store.Floats2 Wv) ->
  nth_error (Store.cells s) X = Some (Store.Floats2 Xv) ->
  nth_error (Store.cells s) y = Some (Store.Ints1 yv) ->
  let r := fst (f K D N W X y reg s) in
  let s' := snd (f K D N W X y reg s) in
  nth_error (Store.cells s') W = Some (Store.Floats2 Wv) /\
  nth_error (Store.cells s') X = Some (Store.Floats2 Xv) /\
  nth_error (Store.cells s') y = Some (Store.Ints1 yv) /\
  (forall l, (l < length (Store.cells s))%nat ->
     nth_error (Store.cells s') l = nth_error (Store.cells s) l) /\
  match r with
  | Store.Val (loss, grad) => (length (Store.cells s) <= grad)%nat
  | Store.Exc _ => True
  end /\
  (Store.finite s = true ->
   agrees (g K D N Wv Xv yv reg) (Store.run (f K D N W X y reg) s)).
Proof.
  intros Hf HW HX Hy r s'.
  destruct (frames_objectives (length (Store.cells s)) f g K D N W X y reg Hf
              s (Nat.le_refl _)) as [[_ Hu] Hv].
  fold s' in Hu. fold r in Hv.
  assert (Hlt : forall l o, nth_error (Store.cells s) l = Some o ->
                  (l < length (Store.cells s))%nat).
  { intros l o E. apply nth_error_Some. rewrite E. discriminate. }
  split; [rewrite Hu; [exact HW|eapply Hlt; exact HW]|].
  split; [rewrite Hu; [exact HX|eapply Hlt; exact HX]|].
  split; [rewrite Hu; [exact Hy|eapply Hlt; exact Hy]|].
  split; [exact Hu|].
  split; [destruct r as [[loss grad]|e]; [exact Hv|exact I]|].
  intros Hfin. destruct s as [h fin]. simpl in Hfin. subst fin.
  apply objectives_refine; assumption.
Qed.

Lemma inputs_not_mutated_witness :
  In (Store.loss_grad_softmax_vectorized, loss_grad_softmax_vectorized)
    objectives /\
  nth_error (Store.cells store0) 0 = Some (Store.Floats2 W0) /\
  nth_error (Store.cells store0) 1 = Some (Store.Floats2 X0) /\
  nth_error (Store.cells store0) 2 = Some (Store.Ints1 y0) /\
  let s' :=
    snd (Store.loss_grad_softmax_vectorized 3 2 1 0%nat 1%nat 2%nat 0 store0) in
  nth_error (Store.cells s') 0 = Some (Store.Floats2 W0) /\
  nth_error (Store.cells s') 1 = Some (Store.Floats2 X0) /\
  nth_error (Store.cells s') 2 = Some (Store.Ints1 y0).
Proof.
  assert (Hf : In (Store.loss_grad_softmax_vectorized,
                   loss_grad_softmax_vectorized) objectives).
  { right. left. reflexivity. }
  split; [exact Hf|].
  split; [reflexivity|]. split; [reflexivity|]. split; [reflexivity|].
  destruct (inputs_not_mutated Store.loss_grad_softmax_vectorized
              loss_grad_softmax_vectorized
              3 2 1 0%nat 1%nat 2%nat 0 store0 W0 X0 y0 Hf
              eq_refl eq_refl eq_refl) as [HW [HX [Hy _]]].
  cbv zeta. split; [exact HW|]. split; [exact HX|exact Hy].
Defined.

(** * Further properties of the three functions *)

(** ** How a call ends *)

Lemma labels_in_bounds_dec K N y :
  labels_in_bounds K N y \/
  exists n, (n < N)%nat /\ in_bounds K (y n) = false.
Proof.
  induction N as [|N IH].
  - left. intros n Hn. lia.
  - destruct IH as [IH|[n [Hn Hout]]].
    + destruct (in_bounds K (y N)) eqn:Hb.
      * left. intros n Hn. destruct (Nat.eq_dec n N) as [->|Hne];
          [exact Hb|apply IH; lia].
      * right. exists N. split; [lia|exact Hb].
    + right. exists n. split; [lia|exact Hout].
Qed.

Lemma naive_no_classes D N W X y reg :
  (1 <= N)%nat ->
  loss_grad_softmax_naive 0 D N W X y reg = Raises ValueError.
Proof.
  intros HN.
  assert (E : forall acc,
             for_rangeM N (naive_sample 0 D W X y) acc = Raises ValueError).
  { intros acc.
    apply (for_rangeM_raises N _ (fun _ t => t) acc 0%nat ValueError).
    - lia.
    - intros j t Hj. lia.
    - intros t. reflexivity. }
  unfold loss_grad_softmax_naive. cbv zeta. rewrite E. reflexivity.
Qed.

Lemma vectorized_no_classes D N W X y reg :
  loss_grad_softmax_vectorized 0 D N W X y reg = Raises ValueError.
Proof. reflexivity. Qed.

Lemma in_bounds_no_rows z : in_bounds 0 z = false.
Proof.
  unfold in_bounds. apply andb_false_iff. simpl.
  destruct (Z.leb_spec 0 z); [right; apply Z.ltb_ge; lia|left; reflexivity].
Qed.

Lemma svm_no_classes D N W X y reg :
  (1 <= N)%nat ->
  loss_grad_svm_vectorized 0 D N W X y reg = Raises IndexError.
Proof.
  intros HN. unfold loss_grad_svm_vectorized. cbv zeta.
  rewrite (index_rows_out 0 N y 0%nat); [reflexivity|lia|].
  apply in_bounds_no_rows.
Qed.

Lemma naive_out_of_bounds K D N W X y reg n :
  (1 <= K)%nat -> (n < N)%nat -> in_bounds K (y n) = false ->
  loss_grad_softmax_naive K D N W X y reg = Raises IndexError.
Proof.
  intros HK Hn Hout. unfold loss_grad_softmax_naive. cbv zeta.
  rewrite (naive_loop_out_of_bounds K D W X y N _ n HK Hn Hout).
  reflexivity.
Qed.

Lemma vectorized_out_of_bounds K D N W X y reg n :
  (1 <= K)%nat -> (n < N)%nat -> in_bounds K (y n) = false ->
  loss_grad_softmax_vectorized K D N W X y reg = Raises IndexError.
Proof.
  intros HK Hn Hout. unfold loss_grad_softmax_vectorized, np_max2.
  destruct (Nat.eqb_spec (K * N) 0) as [E|_]; [nia|]. simpl.
  unfold softmax_vectorized_from. cbv zeta.
  rewrite (index_rows_out K N y n Hn Hout). reflexivity.
Qed.

Lemma svm_out_of_bounds K D N W X y reg n :
  (n < N)%nat -> in_bounds K (y n) = false ->
  loss_grad_svm_vectorized K D N W X y reg = Raises IndexError.
Proof.
  intros Hn Hout. unfold loss_grad_svm_vectorized. cbv zeta.
  rewrite (index_rows_out K N y n Hn Hout). reflexivity.
Qed.

(** X1.  Weights without a class, K = 0, and a batch that is not empty:
    the two softmax forms raise ValueError at [np.max] of an array
    without entries (lines 31 and 61), the hinge form raises IndexError
    when it reads the scores of the labels (line 109). *)
Theorem no_classes D N W X y reg :
  (1 <= N)%nat ->
  loss_grad_softmax_naive 0 D N W X y reg = Raises ValueError /\
  loss_grad_softmax_vectorized 0 D N W X y reg = Raises ValueError /\
  loss_grad_svm_vectorized 0 D N W X y reg = Raises IndexError.
Proof.
  intros HN. split; [|split].
  - apply naive_no_classes. exact HN.
  - apply vectorized_no_classes.
  - apply svm_no_classes. exact HN.
Qed.

Lemma no_classes_witness :
  (1 <= 1)%nat /\
  loss_grad_softmax_naive 0 2 1 W0 X0 y0 0 = Raises ValueError /\
  loss_grad_softmax_vectorized 0 2 1 W0 X0 y0 0 = Raises ValueError /\
  loss_grad_svm_vectorized 0 2 1 W0 X0 y0 0 = Raises IndexError.
Proof.
  split; [lia|]. apply (no_classes 2 1 W0 X0 y0 0). lia.
Defined.

(** X2.  On every batch that is not empty the loop form and the
    vectorized form of the softmax objective end in the same way, also
    outside the valid inputs: both raise ValueError when there is no
    class, both raise IndexError when a label is outside [-K, K), and
    both return the same loss and gradient otherwise. *)
Theorem softmax_same_outcome K D N W X y reg :
  (1 <= N)%nat ->
  same_outcome K D
    (loss_grad_softmax_naive K D N W X y reg)
    (loss_grad_softmax_vectorized K D N W X y reg).
Proof.
  intros HN. destruct (Nat.eq_dec K 0) as [->|HK].
  - rewrite naive_no_classes by exact HN. rewrite vectorized_no_classes.
    reflexivity.
  - destruct (labels_in_bounds_dec K N y) as [Hin|[n [Hn Hout]]].
    + destruct (naive_spec K D N W X y reg HN Hin) as [g1 [E1 G1]].
      destruct (vectorized_spec K D N W X y reg HN Hin) as [g2 [E2 G2]].
      rewrite E1, E2. split; [reflexivity|].
      intros k d Hk Hd. rewrite G1, G2 by assumption. reflexivity.
    + rewrite (naive_out_of_bounds K D N W X y reg n) by (assumption || lia).
      rewrite (vectorized_out_of_bounds K D N W X y reg n)
        by (assumption || lia).
      reflexivity.
Qed.

Lemma softmax_same_outcome_witness :
  (1 <= 1)%nat /\
  same_outcome 3 2
    (loss_grad_softmax_naive 3 2 1 W0 X0 (fun _ => 3%Z) 0)
    (loss_grad_softmax_vectorized 3 2 1 W0 X0 (fun _ => 3%Z) 0).
Proof.
  split; [lia|].
  apply (softmax_same_outcome 3 2 1 W0 X0 (fun _ => 3%Z) 0). lia.
Defined.

(** ** Sums and means *)

Lemma sum_range_const n c : sum_range n (fun _ => c) = INR n * c.
Proof.
  induction n as [|n IH].
  - simpl. ring.
  - rewrite S_INR. simpl. rewrite IH. ring.
Qed.

Lemma sum_range_le n f g :
  (forall i, (i < n)%nat -> f i <= g i) -> sum_range n f <= sum_range n g.
Proof.
  induction n as [|n IH]; intros H; simpl.
  - lra.
  - assert (H1 := IH ltac:(intros i Hi; apply H; lia)).
    assert (H2 := H n ltac:(lia)). lra.
Qed.

Lemma sum_range_zero_terms n f :
  (forall i, (i < n)%nat -> 0 <= f i) -> sum_range n f = 0 ->
  forall i, (i < n)%nat -> f i = 0.
Proof.
  intros Hf H0 i Hi.
  assert (H1 := sum_range_le_term n f i Hf Hi).
  assert (H2 := Hf i Hi). lra.
Qed.

Lemma sum_range_lt_term n f k :
  (forall i, (i < n)%nat -> 0 < f i) -> (2 <= n)%nat -> (k < n)%nat ->
  f k < sum_range n f.
Proof.
  intros Hf Hn Hk. destruct n as [|n]; [lia|]. simpl.
  assert (Hpos : forall i, (i < n)%nat -> 0 < f i)
    by (intros i Hi; apply Hf; lia).
  destruct (Nat.eq_dec k n) as [->|Hne].
  - assert (H := sum_range_pos n f ltac:(lia) Hpos). lra.
  - assert (H := sum_range_le_term n f k
                   ltac:(intros i Hi; apply Rlt_le, Hpos, Hi) ltac:(lia)).
    assert (H' := Hf n ltac:(lia)). lra.
Qed.

Lemma sum_range_other n k a b :
  (k < n)%nat ->
  sum_range n (fun i => if Nat.eqb i k then a else b) = a + (INR n - 1) * b.
Proof.
  intros Hk.
  rewrite (sum_range_ext n _
             (fun i => b + (if Nat.eqb i k then a - b else 0))).
  - rewrite sum_range_plus, sum_range_const.
    rewrite (sum_range_single n k (fun _ => a - b) Hk). ring.
  - intros i _. destruct (Nat.eqb i k); ring.
Qed.

Lemma count_true_none n p :
  (forall i, (i < n)%nat -> p i = false) -> count_true n p = 0%nat.
Proof.
  induction n as [|n IH]; intros H; simpl; [reflexivity|].
  rewrite IH by (intros i Hi; apply H; lia).
  rewrite (H n) by lia. reflexivity.
Qed.

Lemma INR_pos N : (1 <= N)%nat -> 0 < INR N.
Proof. intros H. apply lt_0_INR. lia. Qed.

Lemma mean_const N c : (1 <= N)%nat -> mean N (fun _ => c) = c.
Proof.
  intros HN. unfold mean. rewrite sum_range_const.
  assert (H := INR_pos N HN). field. lra.
Qed.

Lemma mean_le N f g :
  (1 <= N)%nat -> (forall n, (n < N)%nat -> f n <= g n) ->
  mean N f <= mean N g.
Proof.
  intros HN H. unfold mean. assert (HI := INR_pos N HN).
  apply Rmult_le_compat_r; [left; apply Rinv_0_lt_compat, HI|].
  apply sum_range_le, H.
Qed.

Lemma mean_pos N f :
  (1 <= N)%nat -> (forall n, (n < N)%nat -> 0 < f n) -> 0 < mean N f.
Proof.
  intros HN H. unfold mean. assert (HI := INR_pos N HN).
  apply Rmult_lt_0_compat; [|apply Rinv_0_lt_compat, HI].
  apply sum_range_pos; assumption.
Qed.

Lemma mean_zero_terms N f :
  (1 <= N)%nat -> (forall n, (n < N)%nat -> 0 <= f n) -> mean N f = 0 ->
  forall n, (n < N)%nat -> f n = 0.
Proof.
  intros HN Hf H0. apply sum_range_zero_terms; [exact Hf|].
  unfold mean in H0. assert (HI := INR_pos N HN).
  apply (Rmult_eq_compat_r (INR N)) in H0.
  unfold Rdiv in H0. rewrite Rmult_assoc, Rinv_l in H0; lra.
Qed.

(** ** Scores that do not separate the classes *)

Lemma softmax_equal K (s : vector) c k :
  (1 <= K)%nat -> (k < K)%nat -> (forall j, (j < K)%nat -> s j = c) ->
  softmax K s k = / INR K.
Proof.
  intros HK Hk Hs. unfold softmax.
  rewrite (sum_range_ext K _ (fun _ => exp c))
    by (intros j Hj; rewrite Hs by exact Hj; reflexivity).
  rewrite sum_range_const, Hs by exact Hk.
  assert (HI := INR_pos K HK). assert (He := exp_pos c).
  field. split; lra.
Qed.

Lemma scores_equal_rows K D W X v k n :
  (forall k d, (k < K)%nat -> (d < D)%nat -> W k d = v d) ->
  (k < K)%nat ->
  scores D W X k n = sum_range D (fun d => v d * X d n).
Proof.
  intros HW Hk. unfold scores, dot. apply sum_range_ext.
  intros d Hd. rewrite HW by assumption. reflexivity.
Qed.

Lemma softmax_loss_equal_rows K D N W X y v n :
  labels_in_bounds K N y -> (n < N)%nat ->
  (forall k d, (k < K)%nat -> (d < D)%nat -> W k d = v d) ->
  softmax_sample_loss K D W X y n = ln (INR K).
Proof.
  intros Hin Hn HW.
  assert (Hc : (row_of K y n < K)%nat) by (apply wrap_lt, Hin, Hn).
  unfold softmax_sample_loss, prob.
  rewrite (softmax_equal K _ (sum_range D (fun d => v d * X d n)));
    [|lia|exact Hc|].
  - rewrite ln_Rinv by (apply INR_pos; lia). ring.
  - intros j Hj. apply (scores_equal_rows K); assumption.
Qed.

Lemma hinge_loss_equal_rows K D N W X y v n :
  labels_in_bounds K N y -> (n < N)%nat ->
  (forall k d, (k < K)%nat -> (d < D)%nat -> W k d = v d) ->
  hinge_sample_loss K D W X y n = INR K - 1.
Proof.
  intros Hin Hn HW.
  assert (Hc : (row_of K y n < K)%nat) by (apply wrap_lt, Hin, Hn).
  unfold hinge_sample_loss.
  rewrite (sum_range_ext K _
             (fun k => if Nat.eqb k (row_of K y n) then 0 else 1)).
  - rewrite sum_range_other by exact Hc. ring.
  - intros k Hk. unfold hinge_margin.
    destruct (Nat.eqb k (row_of K y n)); [reflexivity|].
    rewrite (scores_equal_rows K D W X v k n) by assumption.
    rewrite (scores_equal_rows K D W X v (row_of K y n) n) by assumption.
    rewrite Rmax_right; lra.
Qed.

(** X3.  Weights whose rows are all the same vector, the zero weights
    among them, give every class the same score: on a batch that is not
    empty, with labels that numpy accepts, both softmax forms return the
    loss [log(K) + 0.5 * reg * sum(W * W)] and the hinge form returns
    [(K - 1) + 0.5 * reg * sum(W * W)]. *)
Theorem equal_rows_loss K D N W X y reg v :
  (1 <= N)%nat -> labels_in_bounds K N y ->
  (forall k d, (k < K)%nat -> (d < D)%nat -> W k d = v d) ->
  (exists g, loss_grad_softmax_naive K D N W X y reg =
               Returns (ln (INR K) + 0.5 * reg * sum_sq K D W, g)) /\
  (exists g, loss_grad_softmax_vectorized K D N W X y reg =
               Returns (ln (INR K) + 0.5 * reg * sum_sq K D W, g)) /\
  (exists g, loss_grad_svm_vectorized K D N W X y reg =
               Returns (INR K - 1 + 0.5 * reg * sum_sq K D W, g)).
Proof.
  intros HN Hin HW.
  assert (Hs : mean N (softmax_sample_loss K D W X y) = ln (INR K)).
  { rewrite <- (mean_const N (ln (INR K)) HN). apply mean_ext.
    intros n Hn. apply (softmax_loss_equal_rows K D N W X y v); assumption. }
  assert (Hh : mean N (hinge_sample_loss K D W X y) = INR K - 1).
  { rewrite <- (mean_const N (INR K - 1) HN). apply mean_ext.
    intros n Hn. apply (hinge_loss_equal_rows K D N W X y v); assumption. }
  destruct (naive_spec K D N W X y reg HN Hin) as [g1 [E1 _]].
  destruct (vectorized_spec K D N W X y reg HN Hin) as [g2 [E2 _]].
  destruct (svm_spec K D N W X y reg HN Hin) as [g3 [E3 _]].
  rewrite Hs in E1, E2. rewrite Hh in E3.
  split; [|split]; eexists; eassumption.
Qed.

Lemma equal_rows_loss_witness :
  (1 <= 1)%nat /\ labels_in_bounds 3 1 y0 /\
  (forall k d, (k < 3)%nat -> (d < 2)%nat ->
     (fun _ _ : nat => 0) k d = (fun _ : nat => 0) d) /\
  exists g, loss_grad_svm_vectorized 3 2 1 (fun _ _ => 0) X0 y0 0 =
              Returns (INR 3 - 1 + 0.5 * 0 * sum_sq 3 2 (fun _ _ => 0), g).
Proof.
  assert (Hin : labels_in_bounds 3 1 y0) by (intros n _; reflexivity).
  assert (HW : forall k d, (k < 3)%nat -> (d < 2)%nat ->
             (fun _ _ : nat => 0) k d = (fun _ : nat => 0) d)
    by (intros; reflexivity).
  split; [lia|]. split; [exact Hin|]. split; [exact HW|].
  apply (equal_rows_loss 3 2 1 (fun _ _ => 0) X0 y0 0 (fun _ => 0)
           ltac:(lia) Hin HW).
Defined.

(** ** A single class *)

Lemma row_of_single N y n :
  labels_in_bounds 1 N y -> (n < N)%nat -> row_of 1 y n = 0%nat.
Proof.
  intros Hin Hn. assert (H := wrap_lt 1 (y n) (Hin n Hn)).
  unfold row_of. lia.
Qed.

Lemma softmax_grad_single D N W X y n d :
  labels_in_bounds 1 N y -> (n < N)%nat ->
  softmax_sample_grad 1 D W X y n 0%nat d = 0.
Proof.
  intros Hin Hn. unfold softmax_sample_grad, onehot, prob.
  rewrite (row_of_single N y n Hin Hn). simpl.
  unfold softmax. simpl. assert (H := exp_pos (scores D W X 0%nat n)).
  field. lra.
Qed.

Lemma hinge_grad_single D N W X y n d :
  labels_in_bounds 1 N y -> (n < N)%nat ->
  hinge_sample_grad 1 D W X y n 0%nat d = 0.
Proof.
  intros Hin Hn. unfold hinge_sample_grad, hinge_indicator, hinge_num_pos.
  rewrite (row_of_single N y n Hin Hn). simpl. ring.
Qed.

(** X4.  With a single class, K = 1, nothing is learnt from the batch:
    on a batch that is not empty, with labels that numpy accepts, each
    of the three functions returns the loss [0.5 * reg * sum(W * W)] and
    the gradient [reg * W]. *)
Theorem single_class D N W X y reg :
  (1 <= N)%nat -> labels_in_bounds 1 N y ->
  (exists g, loss_grad_softmax_naive 1 D N W X y reg =
               Returns (0.5 * reg * sum_sq 1 D W, g) /\
             mat_eq 1 D g (fun k d => reg * W k d)) /\
  (exists g, loss_grad_softmax_vectorized 1 D N W X y reg =
               Returns (0.5 * reg * sum_sq 1 D W, g) /\
             mat_eq 1 D g (fun k d => reg * W k d)) /\
  (exists g, loss_grad_svm_vectorized 1 D N W X y reg =
               Returns (0.5 * reg * sum_sq 1 D W, g) /\
             mat_eq 1 D g (fun k d => reg * W k d)).
Proof.
  intros HN Hin.
  assert (Hs : mean N (softmax_sample_loss 1 D W X y) = 0).
  { rewrite <- (mean_const N 0 HN). apply mean_ext. intros n Hn.
    rewrite (softmax_loss_equal_rows 1 D N W X y (W 0%nat) n Hin Hn).
    - simpl. apply ln_1.
    - intros k d Hk _. replace k with 0%nat by lia. reflexivity. }
  assert (Hh : mean N (hinge_sample_loss 1 D W X y) = 0).
  { rewrite <- (mean_const N 0 HN). apply mean_ext. intros n Hn.
    rewrite (hinge_loss_equal_rows 1 D N W X y (W 0%nat) n Hin Hn).
    - simpl. ring.
    - intros k d Hk _. replace k with 0%nat by lia. reflexivity. }
  assert (Gs : forall k d, (k < 1)%nat ->
             mean_grad N (softmax_sample_grad 1 D W X y) k d = 0).
  { intros k d Hk. replace k with 0%nat by lia.
    unfold mean_grad.
    rewrite <- (mean_const N 0 HN). apply mean_ext. intros n Hn.
    apply (softmax_grad_single D N); assumption. }
  assert (Gh : forall k d, (k < 1)%nat ->
             mean_grad N (hinge_sample_grad 1 D W X y) k d = 0).
  { intros k d Hk. replace k with 0%nat by lia.
    unfold mean_grad.
    rewrite <- (mean_const N 0 HN). apply mean_ext. intros n Hn.
    apply (hinge_grad_single D N); assumption. }
  destruct (naive_spec 1 D N W X y reg HN Hin) as [g1 [E1 G1]].
  destruct (vectorized_spec 1 D N W X y reg HN Hin) as [g2 [E2 G2]].
  destruct (svm_spec 1 D N W X y reg HN Hin) as [g3 [E3 G3]].
  rewrite Hs in E1, E2. rewrite Hh in E3. unfold reg_loss in *.
  rewrite Rplus_0_l in E1, E2, E3.
  split; [|split]; eexists; (split; [eassumption|]);
    intros k d Hk Hd;
    [rewrite G1 by assumption|rewrite G2 by assumption
    |rewrite G3 by assumption];
    unfold reg_grad; [rewrite Gs by exact Hk|rewrite Gs by exact Hk
                     |rewrite Gh by exact Hk]; ring.
Qed.

Lemma single_class_witness :
  (1 <= 1)%nat /\ labels_in_bounds 1 1 y_neg /\
  exists g, loss_grad_softmax_naive 1 2 1 W0 X0 y_neg 1 =
              Returns (0.5 * 1 * sum_sq 1 2 W0, g) /\
            mat_eq 1 2 g (fun k d => 1 * W0 k d).
Proof.
  assert (Hin : labels_in_bounds 1 1 y_neg) by (intros n _; reflexivity).
  split; [lia|]. split; [exact Hin|].
  apply (single_class 2 1 W0 X0 y_neg 1 ltac:(lia) Hin).
Defined.

(** ** The hinge objective and its margins *)

Lemma hinge_margin_zero_met K D N W X y k n :
  labels_in_range K N y -> (n < N)%nat -> k <> label y n ->
  hinge_margin K D W X y k n = 0 ->
  scores D W X k n + 1 <= scores D W X (label y n) n.
Proof.
  intros Hy Hn Hne H0. unfold hinge_margin in H0.
  rewrite (row_of_label K N y n Hy Hn) in H0.
  destruct (Nat.eqb_spec k (label y n)) as [E|_]; [contradiction|].
  assert (H := Rmax_r 0 (scores D W X k n - scores D W X (label y n) n + 1)).
  lra.
Qed.

Lemma hinge_indicator_met K D W X y n k :
  (forall j, (j < K)%nat -> hinge_margin K D W X y j n = 0) ->
  (k < K)%nat -> hinge_indicator K D W X y k n = 0.
Proof.
  intros H0 Hk. unfold hinge_indicator, hinge_num_pos.
  rewrite count_true_none.
  - rewrite (H0 k Hk), gt0_zero. simpl.
    destruct (Nat.eqb k (row_of K y n)); ring.
  - intros j Hj. rewrite (H0 j Hj), gt0_zero. apply andb_false_r.
Qed.

(** X5.  On a batch that is not empty, with every label in [0, K), the
    loss that [loss_grad_svm_vectorized] returns is the regularization
    term [0.5 * reg * sum(W * W)] alone exactly when, for every sample,
    the score of its class exceeds the score of every other class by at
    least the margin 1.0; one margin that is not met adds to the
    loss. *)
Theorem hinge_loss_reg_only_iff K D N W X y reg :
  (1 <= N)%nat -> labels_in_range K N y ->
  exists loss g,
    loss_grad_svm_vectorized K D N W X y reg = Returns (loss, g) /\
    0.5 * reg * sum_sq K D W <= loss /\
    (loss = 0.5 * reg * sum_sq K D W <->
     forall n k, (n < N)%nat -> (k < K)%nat -> k <> label y n ->
       scores D W X k n + 1 <= scores D W X (label y n) n).
Proof.
  intros HN Hy.
  assert (Hin : labels_in_bounds K N y).
  { intros n Hn. apply in_bounds_label, Hy, Hn. }
  destruct (svm_spec K D N W X y reg HN Hin) as [g [E _]].
  assert (Hpos : forall n, (n < N)%nat -> 0 <= hinge_sample_loss K D W X y n).
  { intros n _. apply hinge_sample_loss_nonneg. }
  assert (Hm := mean_nonneg N _ Hpos).
  eexists. exists g. split; [exact E|]. unfold reg_loss.
  split; [lra|]. split.
  - intros Hl n k Hn Hk Hne.
    assert (H0 : mean N (hinge_sample_loss K D W X y) = 0) by lra.
    assert (Hs := mean_zero_terms N _ HN Hpos H0 n Hn).
    apply (hinge_margin_zero_met K D N W X y k n Hy Hn Hne).
    apply (sum_range_zero_terms K (fun k => hinge_margin K D W X y k n));
      [|exact Hs|exact Hk].
    intros j _. apply hinge_margin_nonneg.
  - intros Hmet. rewrite mean_zero; [lra|].
    intros n Hn. unfold hinge_sample_loss. apply sum_range_zero.
    intros k Hk. apply (hinge_margin_met K D N); try assumption.
    intros Hne. apply Hmet; assumption.
Qed.

Lemma hinge_loss_reg_only_iff_witness :
  (1 <= 1)%nat /\ labels_in_range 3 1 y0 /\
  exists loss g,
    loss_grad_svm_vectorized 3 2 1 W0 X0 y0 1 = Returns (loss, g) /\
    0.5 * 1 * sum_sq 3 2 W0 <= loss /\
    (loss = 0.5 * 1 * sum_sq 3 2 W0 <->
     forall n k, (n < 1)%nat -> (k < 3)%nat -> k <> label y0 n ->
       scores 2 W0 X0 k n + 1 <= scores 2 W0 X0 (label y0 n) n).
Proof.
  assert (Hy : labels_in_range 3 1 y0) by (intros n _; unfold y0; lia).
  split; [lia|]. split; [exact Hy|].
  apply (hinge_loss_reg_only_iff 3 2 1 W0 X0 y0 1 ltac:(lia) Hy).
Defined.

(** X6.  When every margin is met, also with equality, the hinge
    gradient has no data term: the comparison [margins_mat > 0] of lines
    126 and 127 is strict, so the returned gradient is [reg * W]. *)
Theorem hinge_grad_margins_met K D N W X y reg :
  (1 <= N)%nat -> labels_in_range K N y ->
  (forall n k, (n < N)%nat -> (k < K)%nat -> k <> label y n ->
     scores D W X k n + 1 <= scores D W X (label y n) n) ->
  exists loss g,
    loss_grad_svm_vectorized K D N W X y reg = Returns (loss, g) /\
    mat_eq K D g (fun k d => reg * W k d).
Proof.
  intros HN Hy Hmet.
  assert (Hin : labels_in_bounds K N y).
  { intros n Hn. apply in_bounds_label, Hy, Hn. }
  destruct (svm_spec K D N W X y reg HN Hin) as [g [E G]].
  eexists. exists g. split; [exact E|].
  intros k d Hk Hd. rewrite G by assumption. unfold reg_grad, mean_grad.
  rewrite mean_zero; [ring|].
  intros n Hn. unfold hinge_sample_grad.
  rewrite (hinge_indicator_met K D W X y n k); [ring| |exact Hk].
  intros j Hj. apply (hinge_margin_met K D N); try assumption.
  intros Hne. apply Hmet; assumption.
Qed.

Lemma hinge_grad_margins_met_witness :
  (1 <= 1)%nat /\ labels_in_range 2 1 y0 /\
  (forall n k, (n < 1)%nat -> (k < 2)%nat -> k <> label y0 n ->
     scores 1 W1 X1 k n + 1 <= scores 1 W1 X1 (label y0 n) n) /\
  exists loss g,
    loss_grad_svm_vectorized 2 1 1 W1 X1 y0 1 = Returns (loss, g) /\
    mat_eq 2 1 g (fun k d => 1 * W1 k d).
Proof.
  assert (Hy : labels_in_range 2 1 y0) by (intros n _; unfold y0; lia).
  split; [lia|]. split; [exact Hy|]. split; [exact margins_met1|].
  apply (hinge_grad_margins_met 2 1 1 W1 X1 y0 1 ltac:(lia) Hy margins_met1).
Defined.

(** ** How small the softmax loss can be *)

Lemma softmax_lt_1 K s k :
  (2 <= K)%nat -> (k < K)%nat -> softmax K s k < 1.
Proof.
  intros HK Hk. unfold softmax.
  assert (Hs := sum_exp_pos K s ltac:(lia)).
  assert (H := sum_range_lt_term K (fun j => exp (s j)) k
                 ltac:(intros i _; apply exp_pos) HK Hk).
  simpl in H. apply (Rmult_lt_reg_r (sum_range K (fun j => exp (s j))));
    [exact Hs|].
  unfold Rdiv. rewrite Rmult_assoc, Rinv_l by lra. lra.
Qed.

Lemma softmax_sample_loss_pos K D N W X y n :
  (2 <= K)%nat -> labels_in_bounds K N y -> (n < N)%nat ->
  0 < softmax_sample_loss K D W X y n.
Proof.
  intros HK Hin Hn. unfold softmax_sample_loss, prob.
  assert (Hc : (row_of K y n < K)%nat) by (apply wrap_lt, Hin, Hn).
  assert (H0 := softmax_pos K (fun j => scores D W X j n) (row_of K y n)
                  ltac:(lia)).
  assert (H1 := softmax_lt_1 K (fun j => scores D W X j n) (row_of K y n)
                  HK Hc).
  assert (H := ln_increasing _ _ H0 H1). rewrite ln_1 in H. lra.
Qed.

(** X7.  With two classes or more the softmax loss never reaches its
    regularization term: on a batch that is not empty, with labels that
    numpy accepts, both softmax forms return a loss strictly above
    [0.5 * reg * sum(W * W)], strictly positive when [reg >= 0]. *)
Theorem softmax_loss_above_reg K D N W X y reg :
  (2 <= K)%nat -> (1 <= N)%nat -> labels_in_bounds K N y ->
  (exists loss g,
     loss_grad_softmax_naive K D N W X y reg = Returns (loss, g) /\
     0.5 * reg * sum_sq K D W < loss /\ (0 <= reg -> 0 < loss)) /\
  (exists loss g,
     loss_grad_softmax_vectorized K D N W X y reg = Returns (loss, g) /\
     0.5 * reg * sum_sq K D W < loss /\ (0 <= reg -> 0 < loss)).
Proof.
  intros HK HN Hin.
  assert (Hm : 0 < mean N (softmax_sample_loss K D W X y)).
  { apply mean_pos; [exact HN|]. intros n Hn.
    apply (softmax_sample_loss_pos K D N); assumption. }
  destruct (naive_spec K D N W X y reg HN Hin) as [g1 [E1 _]].
  destruct (vectorized_spec K D N W X y reg HN Hin) as [g2 [E2 _]].
  unfold reg_loss in *.
  split; eexists; eexists; (split; [eassumption|]); (split; [lra|]);
    intros Hr; assert (H := reg_loss_nonneg K D W reg Hr);
    unfold reg_loss in H; lra.
Qed.

Lemma softmax_loss_above_reg_witness :
  (2 <= 3)%nat /\ (1 <= 1)%nat /\ labels_in_bounds 3 1 y0 /\
  exists loss g,
    loss_grad_softmax_naive 3 2 1 W0 X0 y0 0 = Returns (loss, g) /\
    0.5 * 0 * sum_sq 3 2 W0 < loss /\ (0 <= 0 -> 0 < loss).
Proof.
  assert (Hin : labels_in_bounds 3 1 y0) by (intros n _; reflexivity).
  split; [lia|]. split; [lia|]. split; [exact Hin|].
  apply (softmax_loss_above_reg 3 2 1 W0 X0 y0 0 ltac:(lia) ltac:(lia) Hin).
Defined.

Lemma ln_1_plus_le x : 0 <= x -> ln (1 + x) <= x.
Proof.
  intros Hx. assert (H := exp_ineq1_le x).
  destruct H as [H|H].
  - left. rewrite <- (ln_exp x) at 2. apply ln_increasing; lra.
  - rewrite H, ln_exp. lra.
Qed.

Lemma softmax_sample_loss_dominated K D N W X y n m :
  labels_in_bounds K N y -> (n < N)%nat ->
  (forall k, (k < K)%nat -> k <> row_of K y n ->
     scores D W X k n + m <= scores D W X (row_of K y n) n) ->
  softmax_sample_loss K D W X y n <= (INR K - 1) * exp (- m).
Proof.
  intros Hin Hn Hm.
  assert (Hc : (row_of K y n < K)%nat) by (apply wrap_lt, Hin, Hn).
  set (c := row_of K y n) in *. set (s := fun j => scores D W X j n).
  assert (HK1 : 0 <= INR K - 1).
  { assert (H := le_INR 1 K ltac:(lia)). simpl in H. lra. }
  assert (Hem := exp_pos (- m)).
  unfold softmax_sample_loss, prob. fold c. fold s.
  assert (Hz := sum_exp_pos K s ltac:(lia)).
  assert (Hec := exp_pos (s c)).
  rewrite <- ln_Rinv by (apply softmax_pos; lia).
  assert (Hinv : / softmax K s c = sum_range K (fun j => exp (s j - s c))).
  { unfold softmax.
    rewrite (sum_range_ext K (fun j => exp (s j - s c))
               (fun j => exp (s j) * / exp (s c))).
    - rewrite sum_range_scal_r. field. split; lra.
    - intros j _. unfold Rminus. rewrite exp_plus, exp_Ropp. reflexivity. }
  rewrite Hinv.
  assert (Hle : sum_range K (fun j => exp (s j - s c)) <=
                1 + (INR K - 1) * exp (- m)).
  { rewrite <- (sum_range_other K c 1 (exp (- m)) Hc).
    apply sum_range_le. intros j Hj.
    destruct (Nat.eqb_spec j c) as [->|Hne].
    - replace (s c - s c) with 0 by ring. rewrite exp_0. lra.
    - assert (H := Hm j Hj Hne). fold (s j) (s c) in H.
      destruct (Req_dec (s j - s c) (- m)) as [->|Hd]; [lra|].
      left. apply exp_increasing. lra. }
  assert (Hge : 1 <= sum_range K (fun j => exp (s j - s c))).
  { assert (H := sum_range_le_term K (fun j => exp (s j - s c)) c
                   ltac:(intros i _; left; apply exp_pos) Hc).
    simpl in H. replace (s c - s c) with 0 in H by ring.
    rewrite exp_0 in H. exact H. }
  eapply Rle_trans; [|apply (ln_1_plus_le ((INR K - 1) * exp (- m)))].
  - destruct Hle as [Hlt|Heq].
    + left. apply ln_increasing; lra.
    + rewrite Heq. lra.
  - apply Rmult_le_pos; lra.
Qed.

(** X8.  When, for every sample, the score of its class exceeds the
    score of every other class by at least [m], both softmax forms
    return a loss within [(K - 1) * exp(-m)] of the regularization term:
    the data loss goes to 0 as the class of each sample dominates. *)
Theorem softmax_loss_dominated K D N W X y reg m :
  (1 <= N)%nat -> labels_in_range K N y ->
  (forall n k, (n < N)%nat -> (k < K)%nat -> k <> label y n ->
     scores D W X k n + m <= scores D W X (label y n) n) ->
  (exists loss g,
     loss_grad_softmax_naive K D N W X y reg = Returns (loss, g) /\
     0.5 * reg * sum_sq K D W <= loss <=
       0.5 * reg * sum_sq K D W + (INR K - 1) * exp (- m)) /\
  (exists loss g,
     loss_grad_softmax_vectorized K D N W X y reg = Returns (loss, g) /\
     0.5 * reg * sum_sq K D W <= loss <=
       0.5 * reg * sum_sq K D W + (INR K - 1) * exp (- m)).
Proof.
  intros HN Hy Hm.
  assert (Hin : labels_in_bounds K N y).
  { intros n Hn. apply in_bounds_label, Hy, Hn. }
  assert (H0 : 0 <= mean N (softmax_sample_loss K D W X y)).
  { apply mean_nonneg. intros n Hn.
    apply (softmax_sample_loss_nonneg K D N); assumption. }
  assert (H1 : mean N (softmax_sample_loss K D W X y) <=
               (INR K - 1) * exp (- m)).
  { rewrite <- (mean_const N ((INR K - 1) * exp (- m)) HN).
    apply mean_le; [exact HN|]. intros n Hn.
    apply (softmax_sample_loss_dominated K D N); try assumption.
    intros k Hk. rewrite (row_of_label K N y n Hy Hn).
    intros Hne. apply Hm; assumption. }
  destruct (naive_spec K D N W X y reg HN Hin) as [g1 [E1 _]].
  destruct (vectorized_spec K D N W X y reg HN Hin) as [g2 [E2 _]].
  unfold reg_loss in *.
  split; eexists; eexists; (split; [eassumption|]); lra.
Qed.

Lemma softmax_loss_dominated_witness :
  (1 <= 1)%nat /\ labels_in_range 2 1 y0 /\
  (forall n k, (n < 1)%nat -> (k < 2)%nat -> k <> label y0 n ->
     scores 1 W1 X1 k n + 1 <= scores 1 W1 X1 (label y0 n) n) /\
  exists loss g,
    loss_grad_softmax_vectorized 2 1 1 W1 X1 y0 0 = Returns (loss, g) /\
    0.5 * 0 * sum_sq 2 1 W1 <= loss <=
      0.5 * 0 * sum_sq 2 1 W1 + (INR 2 - 1) * exp (- 1).
Proof.
  assert (Hy : labels_in_range 2 1 y0) by (intros n _; unfold y0; lia).
  split; [lia|]. split; [exact Hy|]. split; [exact margins_met1|].
  apply (softmax_loss_dominated 2 1 1 W1 X1 y0 0 1 ltac:(lia) Hy margins_met1).
Defined.

(** ** Calls that end in the same way *)

Lemma same_outcome_refl r c o : same_outcome r c o o.
Proof.
  destruct o as [[l g]|e|]; simpl; auto.
  split; [reflexivity|]. intros i j _ _. reflexivity.
Qed.

(** A call fails for its shapes and its labels alone: when the batch is
    empty or a label is outside [-K, K), the outcome is the same for
    every [W], [X] and [reg]. *)
Lemma naive_fails K D N W X y reg W' X' reg' :
  ~ ((1 <= N)%nat /\ labels_in_bounds K N y) ->
  same_outcome K D (loss_grad_softmax_naive K D N W X y reg)
    (loss_grad_softmax_naive K D N W' X' y reg').
Proof.
  intros Hno. destruct (Nat.eq_dec N 0) as [->|HN].
  - rewrite (proj1 (empty_batch K D W X y reg)).
    rewrite (proj1 (empty_batch K D W' X' y reg')). reflexivity.
  - destruct (Nat.eq_dec K 0) as [->|HK].
    + rewrite !naive_no_classes by lia. reflexivity.
    + destruct (labels_in_bounds_dec K N y) as [Hin|[n [Hn Hout]]].
      * exfalso. apply Hno. split; [lia|exact Hin].
      * rewrite (naive_out_of_bounds K D N W X y reg n)
          by (assumption || lia).
        rewrite (naive_out_of_bounds K D N W' X' y reg' n)
          by (assumption || lia).
        reflexivity.
Qed.

Lemma vectorized_fails K D N W X y reg W' X' reg' :
  ~ ((1 <= N)%nat /\ labels_in_bounds K N y) ->
  same_outcome K D (loss_grad_softmax_vectorized K D N W X y reg)
    (loss_grad_softmax_vectorized K D N W' X' y reg').
Proof.
  intros Hno. destruct (Nat.eq_dec N 0) as [->|HN].
  - rewrite (proj1 (proj2 (empty_batch K D W X y reg))).
    rewrite (proj1 (proj2 (empty_batch K D W' X' y reg'))). reflexivity.
  - destruct (Nat.eq_dec K 0) as [->|HK].
    + rewrite !vectorized_no_classes. reflexivity.
    + destruct (labels_in_bounds_dec K N y) as [Hin|[n [Hn Hout]]].
      * exfalso. apply Hno. split; [lia|exact Hin].
      * rewrite (vectorized_out_of_bounds K D N W X y reg n)
          by (assumption || lia).
        rewrite (vectorized_out_of_bounds K D N W' X' y reg' n)
          by (assumption || lia).
        reflexivity.
Qed.

Lemma svm_fails K D N W X y reg W' X' reg' :
  ~ ((1 <= N)%nat /\ labels_in_bounds K N y) ->
  same_outcome K D (loss_grad_svm_vectorized K D N W X y reg)
    (loss_grad_svm_vectorized K D N W' X' y reg').
Proof.
  intros Hno. destruct (Nat.eq_dec N 0) as [->|HN].
  - rewrite (proj2 (proj2 (empty_batch K D W X y reg))).
    rewrite (proj2 (proj2 (empty_batch K D W' X' y reg'))). reflexivity.
  - destruct (labels_in_bounds_dec K N y) as [Hin|[n [Hn Hout]]].
    + exfalso. apply Hno. split; [lia|exact Hin].
    + rewrite (svm_out_of_bounds K D N W X y reg n) by assumption.
      rewrite (svm_out_of_bounds K D N W' X' y reg' n) by assumption.
      reflexivity.
Qed.

Lemma valid_dec K N y :
  ((1 <= N)%nat /\ labels_in_bounds K N y) \/
  ~ ((1 <= N)%nat /\ labels_in_bounds K N y).
Proof.
  destruct (Nat.eq_dec N 0) as [->|HN]; [right; lia|].
  destruct (labels_in_bounds_dec K N y) as [Hin|[n [Hn Hout]]].
  - left. split; [lia|exact Hin].
  - right. intros [_ Hin]. rewrite (Hin n Hn) in Hout. discriminate.
Qed.

(** Two calls that return closed forms with the same terms. *)
Lemma same_outcome_closed K D N
  (sl sl' : nat -> R) (sg sg' : nat -> matrix) rl rl' (rg rg' : matrix)
  (o o' : outcome (R * matrix)) :
  (forall n, (n < N)%nat -> sl n = sl' n) ->
  (forall n k d, (n < N)%nat -> (k < K)%nat -> sg n k d = sg' n k d) ->
  rl = rl' -> mat_eq K D rg rg' ->
  (exists g, o = Returns (mean N sl + rl, g) /\
             mat_eq K D g (fun k d => mean_grad N sg k d + rg k d)) ->
  (exists g, o' = Returns (mean N sl' + rl', g) /\
             mat_eq K D g (fun k d => mean_grad N sg' k d + rg' k d)) ->
  same_outcome K D o o'.
Proof.
  intros Hl Hg Hrl Hrg [g [E G]] [g' [E' G']]. subst o o'. simpl. split.
  - rewrite (mean_ext N sl sl' Hl), Hrl. reflexivity.
  - intros k d Hk Hd. rewrite G, G' by assumption.
    rewrite (Hrg k d Hk Hd). apply f_equal2; [|reflexivity].
    unfold mean_grad. apply mean_ext. intros n Hn. apply Hg; assumption.
Qed.

(** ** The same vector added to every row of the weights *)

Lemma scores_add_row D W X v k n :
  scores D (add_row W v) X k n =
  scores D W X k n + sum_range D (fun d => v d * X d n).
Proof.
  unfold scores, dot, add_row. rewrite <- sum_range_plus.
  apply sum_range_ext. intros d _. ring.
Qed.

Lemma prob_add_row K D W X v k n :
  (1 <= K)%nat -> prob K D (add_row W v) X k n = prob K D W X k n.
Proof.
  intros HK. unfold prob.
  rewrite <- (softmax_shift K (fun j => scores D (add_row W v) X j n)
                (sum_range D (fun d => v d * X d n)) k HK).
  apply softmax_ext.
  - intros j _. rewrite scores_add_row. ring.
  - rewrite scores_add_row. ring.
Qed.

Lemma hinge_margin_add_row K D W X y v k n :
  hinge_margin K D (add_row W v) X y k n = hinge_margin K D W X y k n.
Proof.
  unfold hinge_margin. rewrite !scores_add_row.
  destruct (Nat.eqb k (row_of K y n)); [reflexivity|].
  apply f_equal. ring.
Qed.

Lemma hinge_indicator_add_row K D W X y v k n :
  hinge_indicator K D (add_row W v) X y k n = hinge_indicator K D W X y k n.
Proof.
  unfold hinge_indicator, hinge_num_pos.
  rewrite hinge_margin_add_row.
  rewrite (count_true_ext K _
             (fun k => negb (Nat.eqb k (row_of K y n)) &&
                       gt0 (hinge_margin K D W X y k n))).
  - reflexivity.
  - intros j _. rewrite hinge_margin_add_row. reflexivity.
Qed.

Lemma reg_loss_0 K D W : reg_loss K D W 0 = 0.
Proof. unfold reg_loss. ring. Qed.

Lemma reg_grad_0 K D W W' : mat_eq K D (reg_grad W 0) (reg_grad W' 0).
Proof. intros k d _ _. unfold reg_grad. ring. Qed.

(** X9.  Without regularization the three objectives see the rows of
    [W] only through their differences: adding one vector [v] to every
    row of [W] changes nothing in the outcome of a call, neither the
    returned loss and gradient nor the exception raised. *)
Theorem row_shift_invariant K D N W X y v :
  same_outcome K D
    (loss_grad_softmax_naive K D N W X y 0)
    (loss_grad_softmax_naive K D N (add_row W v) X y 0) /\
  same_outcome K D
    (loss_grad_softmax_vectorized K D N W X y 0)
    (loss_grad_softmax_vectorized K D N (add_row W v) X y 0) /\
  same_outcome K D
    (loss_grad_svm_vectorized K D N W X y 0)
    (loss_grad_svm_vectorized K D N (add_row W v) X y 0).
Proof.
  destruct (valid_dec K N y) as [[HN Hin]|Hno].
  - assert (HK := classes_pos K N y HN Hin).
    assert (Hl : forall n, (n < N)%nat ->
               softmax_sample_loss K D W X y n =
               softmax_sample_loss K D (add_row W v) X y n).
    { intros n _. unfold softmax_sample_loss.
      rewrite prob_add_row by exact HK. reflexivity. }
    assert (Hg : forall n k d, (n < N)%nat -> (k < K)%nat ->
               softmax_sample_grad K D W X y n k d =
               softmax_sample_grad K D (add_row W v) X y n k d).
    { intros n k d _ _. unfold softmax_sample_grad.
      rewrite prob_add_row by exact HK. reflexivity. }
    assert (Hhl : forall n, (n < N)%nat ->
               hinge_sample_loss K D W X y n =
               hinge_sample_loss K D (add_row W v) X y n).
    { intros n _. unfold hinge_sample_loss. apply sum_range_ext.
      intros k _. rewrite hinge_margin_add_row. reflexivity. }
    assert (Hhg : forall n k d, (n < N)%nat -> (k < K)%nat ->
               hinge_sample_grad K D W X y n k d =
               hinge_sample_grad K D (add_row W v) X y n k d).
    { intros n k d _ _. unfold hinge_sample_grad.
      rewrite hinge_indicator_add_row. reflexivity. }
    assert (Hrl : reg_loss K D W 0 = reg_loss K D (add_row W v) 0)
      by (rewrite !reg_loss_0; reflexivity).
    assert (Hrg := reg_grad_0 K D W (add_row W v)).
    split; [|split].
    + apply (same_outcome_closed K D N _ _ _ _ _ _ _ _ _ _ Hl Hg Hrl Hrg);
        apply naive_spec; assumption.
    + apply (same_outcome_closed K D N _ _ _ _ _ _ _ _ _ _ Hl Hg Hrl Hrg);
        apply vectorized_spec; assumption.
    + apply (same_outcome_closed K D N _ _ _ _ _ _ _ _ _ _ Hhl Hhg Hrl Hrg);
        apply svm_spec; assumption.
  - split; [|split].
    + apply naive_fails. exact Hno.
    + apply vectorized_fails. exact Hno.
    + apply svm_fails. exact Hno.
Qed.

(** ** When a call returns *)

Lemma not_valid_cases K N y :
  ~ ((1 <= N)%nat /\ labels_in_bounds K N y) ->
  N = 0%nat \/
  ((1 <= N)%nat /\ exists n, (n < N)%nat /\ in_bounds K (y n) = false).
Proof.
  intros Hno. destruct (Nat.eq_dec N 0) as [->|HN]; [left; reflexivity|].
  right. split; [lia|].
  destruct (labels_in_bounds_dec K N y) as [Hin|H]; [|exact H].
  exfalso. apply Hno. split; [lia|exact Hin].
Qed.

(** X10.  Each of the three functions returns a loss and a gradient
    exactly when the batch is not empty and every label lies in
    [-K, K); on every other input it raises an exception or divides by
    zero. *)
Theorem returns_iff K D N W X y reg :
  ((exists r, loss_grad_softmax_naive K D N W X y reg = Returns r) <->
   (1 <= N)%nat /\ labels_in_bounds K N y) /\
  ((exists r, loss_grad_softmax_vectorized K D N W X y reg = Returns r) <->
   (1 <= N)%nat /\ labels_in_bounds K N y) /\
  ((exists r, loss_grad_svm_vectorized K D N W X y reg = Returns r) <->
   (1 <= N)%nat /\ labels_in_bounds K N y).
Proof.
  split; [|split]; split.
  - intros [r E]. destruct (valid_dec K N y) as [Hv|Hno]; [exact Hv|].
    exfalso. destruct (not_valid_cases K N y Hno) as [->|[HN [n [Hn Hout]]]].
    + rewrite (proj1 (empty_batch K D W X y reg)) in E. discriminate.
    + destruct (Nat.eq_dec K 0) as [->|HK].
      * rewrite naive_no_classes in E by exact HN. discriminate.
      * rewrite (naive_out_of_bounds K D N W X y reg n) in E
          by (assumption || lia).
        discriminate.
  - intros [HN Hin].
    destruct (naive_spec K D N W X y reg HN Hin) as [g [E _]].
    eexists. exact E.
  - intros [r E]. destruct (valid_dec K N y) as [Hv|Hno]; [exact Hv|].
    exfalso. destruct (not_valid_cases K N y Hno) as [->|[HN [n [Hn Hout]]]].
    + rewrite (proj1 (proj2 (empty_batch K D W X y reg))) in E. discriminate.
    + destruct (Nat.eq_dec K 0) as [->|HK].
      * rewrite vectorized_no_classes in E. discriminate.
      * rewrite (vectorized_out_of_bounds K D N W X y reg n) in E
          by (assumption || lia).
        discriminate.
  - intros [HN Hin].
    destruct (vectorized_spec K D N W X y reg HN Hin) as [g [E _]].
    eexists. exact E.
  - intros [r E]. destruct (valid_dec K N y) as [Hv|Hno]; [exact Hv|].
    exfalso. destruct (not_valid_cases K N y Hno) as [->|[HN [n [Hn Hout]]]].
    + rewrite (proj2 (proj2 (empty_batch K D W X y reg))) in E. discriminate.
    + rewrite (svm_out_of_bounds K D N W X y reg n) in E by assumption.
      discriminate.
  - intros [HN Hin].
    destruct (svm_spec K D N W X y reg HN Hin) as [g [E _]].
    eexists. exact E.
Qed.

(** ** The returned gradient as a subgradient *)

Lemma np_sum2_ext r c (A B : matrix) :
  mat_eq r c A B -> np_sum2 r c A = np_sum2 r c B.
Proof.
  intros H. unfold np_sum2. apply sum_range_ext. intros i Hi.
  apply sum_range_ext. intros j Hj. apply H; assumption.
Qed.

Lemma np_sum2_plus r c (A B : matrix) :
  np_sum2 r c (fun i j => A i j + B i j) = np_sum2 r c A + np_sum2 r c B.
Proof.
  unfold np_sum2. rewrite <- sum_range_plus. apply sum_range_ext.
  intros i _. apply sum_range_plus.
Qed.

Lemma np_sum2_scal r c a (A : matrix) :
  np_sum2 r c (fun i j => a * A i j) = a * np_sum2 r c A.
Proof.
  unfold np_sum2. rewrite <- sum_range_scal_l. apply sum_range_ext.
  intros i _. apply sum_range_scal_l.
Qed.

Lemma np_sum2_le r c (A B : matrix) :
  (forall i j, (i < r)%nat -> (j < c)%nat -> A i j <= B i j) ->
  np_sum2 r c A <= np_sum2 r c B.
Proof.
  intros H. unfold np_sum2. apply sum_range_le. intros i Hi.
  apply sum_range_le. intros j Hj. apply H; assumption.
Qed.

Lemma inner_ext r c (A A' B : matrix) :
  mat_eq r c A A' -> inner r c A B = inner r c A' B.
Proof.
  intros H. unfold inner. apply np_sum2_ext. intros i j Hi Hj.
  rewrite (H i j Hi Hj). reflexivity.
Qed.

Lemma inner_plus r c (A A' B : matrix) :
  inner r c (fun i j => A i j + A' i j) B = inner r c A B + inner r c A' B.
Proof.
  unfold inner. rewrite <- np_sum2_plus. apply np_sum2_ext.
  intros i j _ _. ring.
Qed.

Lemma mean_plus N f g :
  mean N (fun n => f n + g n) = mean N f + mean N g.
Proof. unfold mean. rewrite sum_range_plus. unfold Rdiv. ring. Qed.

(** The inner product of the mean of the sample gradients [a[k,n] * X[d,n]]
    with [V], by the scores [V.dot(X)]. *)
Lemma inner_mean_grad K D N (a X V : matrix) :
  inner K D (mean_grad N (fun n k d => a k n * X d n)) V =
  mean N (fun n => sum_range K (fun k => a k n * scores D V X k n)).
Proof.
  unfold inner, np_sum2, mean_grad, mean, scores, dot.
  rewrite (sum_range_swap N K
             (fun n k => a k n * sum_range D (fun d => V k d * X d n))).
  unfold Rdiv. rewrite <- sum_range_scal_r.
  apply sum_range_ext. intros k _.
  rewrite (sum_range_ext N
             (fun n => a k n * sum_range D (fun d => V k d * X d n))
             (fun n => sum_range D (fun d => a k n * X d n * V k d))).
  - rewrite (sum_range_swap N D (fun n d => a k n * X d n * V k d)).
    rewrite <- sum_range_scal_r. apply sum_range_ext. intros d _.
    rewrite sum_range_scal_r. ring.
  - intros n _. rewrite <- sum_range_scal_l. apply sum_range_ext.
    intros d _. ring.
Qed.

Lemma scores_minus D W W' X k n :
  scores D (fun k d => W' k d - W k d) X k n =
  scores D W' X k n - scores D W X k n.
Proof.
  unfold scores, dot. rewrite <- sum_range_minus. apply sum_range_ext.
  intros d _. ring.
Qed.

Lemma reg_subgradient K D W W' reg :
  0 <= reg ->
  reg_loss K D W reg + inner K D (reg_grad W reg) (fun k d => W' k d - W k d)
  <= reg_loss K D W' reg.
Proof.
  intros Hr. unfold reg_loss, inner, reg_grad, sum_sq.
  rewrite <- !np_sum2_scal, <- np_sum2_plus.
  apply np_sum2_le. intros k d _ _.
  assert (H := Rle_0_sqr (W' k d - W k d)). unfold Rsqr in H.
  assert (H' := Rmult_le_pos _ _ Hr H). lra.
Qed.

(** The first-order inequality for a loss in closed form whose sample
    gradients are [a[k,n] * X[d,n]]. *)
Lemma subgradient_closed K D N W W' X reg (sl sl' : nat -> R) (a : matrix) :
  (1 <= N)%nat -> 0 <= reg ->
  (forall n, (n < N)%nat ->
     sl n + sum_range K
              (fun k => a k n * (scores D W' X k n - scores D W X k n))
     <= sl' n) ->
  mean N sl + reg_loss K D W reg +
  inner K D
    (fun k d => mean_grad N (fun n k d => a k n * X d n) k d +
                reg_grad W reg k d)
    (fun k d => W' k d - W k d)
  <= mean N sl' + reg_loss K D W' reg.
Proof.
  intros HN Hr H.
  rewrite (inner_plus K D (mean_grad N (fun n k d => a k n * X d n))
             (reg_grad W reg)).
  rewrite inner_mean_grad.
  assert (H1 := reg_subgradient K D W W' reg Hr).
  assert (H2 : mean N sl +
               mean N (fun n => sum_range K
                 (fun k => a k n *
                           scores D (fun k d => W' k d - W k d) X k n))
               <= mean N sl').
  { rewrite <- mean_plus. apply mean_le; [exact HN|]. intros n Hn.
    eapply Rle_trans; [|apply (H n Hn)]. apply Req_le.
    apply f_equal. apply sum_range_ext. intros k _.
    rewrite scores_minus. reflexivity. }
  lra.
Qed.

Lemma ln_le x y : 0 < x -> x <= y -> ln x <= ln y.
Proof.
  intros Hx [Hlt| ->]; [left; apply ln_increasing; assumption|lra].
Qed.

Lemma ln_softmax K s k :
  (1 <= K)%nat ->
  ln (softmax K s k) = s k - ln (sum_range K (fun j => exp (s j))).
Proof.
  intros HK. unfold softmax, Rdiv.
  assert (Hz := sum_exp_pos K s HK).
  rewrite ln_mult by (try apply exp_pos; apply Rinv_0_lt_compat, Hz).
  rewrite ln_exp, ln_Rinv by exact Hz. ring.
Qed.

(** Jensen's inequality for the exponential, with the probabilities
    of the scores [s] as weights. *)
Lemma sum_exp_tangent K (s s' : vector) :
  (1 <= K)%nat ->
  sum_range K (fun k => exp (s k)) *
  exp (sum_range K (fun k => softmax K s k * (s' k - s k)))
  <= sum_range K (fun k => exp (s' k)).
Proof.
  intros HK.
  set (Z := sum_range K (fun k => exp (s k))).
  set (mu := sum_range K (fun k => softmax K s k * (s' k - s k))).
  assert (Hz : 0 < Z) by (apply sum_exp_pos; exact HK).
  assert (Hmu : sum_range K (fun k => exp (s k) * (s' k - s k)) = Z * mu).
  { unfold mu, softmax. fold Z. rewrite <- sum_range_scal_l.
    apply sum_range_ext. intros k _. field. lra. }
  apply Rle_trans
    with (sum_range K
            (fun k => exp mu * (exp (s k) + exp (s k) * (s' k - s k) -
                                mu * exp (s k)))).
  - rewrite sum_range_scal_l, sum_range_minus, sum_range_plus.
    rewrite sum_range_scal_l, Hmu. fold Z. apply Req_le. ring.
  - apply sum_range_le. intros k _.
    assert (H := exp_ineq1_le (s' k - s k - mu)).
    assert (He : exp (s' k) = exp (s k) * exp mu * exp (s' k - s k - mu)).
    { rewrite <- !exp_plus. apply f_equal. ring. }
    rewrite He.
    assert (H1 := exp_pos (s k)). assert (H2 := exp_pos mu).
    assert (H3 : 0 <= exp (s k) * exp mu)
      by (apply Rmult_le_pos; lra).
    assert (H4 := Rmult_le_compat_l _ _ _ H3 H). lra.
Qed.

Lemma softmax_sample_subgradient K D N W W' X y n :
  labels_in_bounds K N y -> (n < N)%nat ->
  softmax_sample_loss K D W X y n +
  sum_range K
    (fun k => (prob K D W X k n - onehot K y k n) *
              (scores D W' X k n - scores D W X k n))
  <= softmax_sample_loss K D W' X y n.
Proof.
  intros Hin Hn.
  assert (Hc : (row_of K y n < K)%nat) by (apply wrap_lt, Hin, Hn).
  assert (HK : (1 <= K)%nat) by lia.
  set (c := row_of K y n) in *.
  set (s := fun j => scores D W X j n).
  set (s' := fun j => scores D W' X j n).
  assert (Hsum : sum_range K
            (fun k => (prob K D W X k n - onehot K y k n) *
                      (scores D W' X k n - scores D W X k n)) =
          sum_range K (fun k => softmax K s k * (s' k - s k)) -
          (s' c - s c)).
  { rewrite <- (sum_range_single K c (fun k => s' k - s k) Hc).
    rewrite <- sum_range_minus. apply sum_range_ext. intros k _.
    unfold prob, onehot. fold c. fold s. fold (s' k) (s k).
    destruct (Nat.eqb k c); ring. }
  rewrite Hsum. unfold softmax_sample_loss, prob. fold c. fold s. fold s'.
  rewrite !ln_softmax by exact HK.
  assert (Hz := sum_exp_pos K s HK).
  assert (Hj := sum_exp_tangent K s s' HK).
  assert (Hl := ln_le _ _
                  ltac:(apply Rmult_lt_0_compat; [exact Hz|apply exp_pos]) Hj).
  rewrite ln_mult in Hl by (try exact Hz; apply exp_pos).
  rewrite ln_exp in Hl. lra.
Qed.

Lemma gt0_Rmax x : gt0 (Rmax 0 x) = gt0 x.
Proof.
  unfold gt0, Rmax. destruct (Rle_dec 0 x) as [H|H]; [reflexivity|].
  destruct (Rlt_dec 0 0); destruct (Rlt_dec 0 x); try reflexivity; lra.
Qed.

Lemma hinge_sample_subgradient K D N W W' X y n :
  labels_in_bounds K N y -> (n < N)%nat ->
  hinge_sample_loss K D W X y n +
  sum_range K
    (fun k => hinge_indicator K D W X y k n *
              (scores D W' X k n - scores D W X k n))
  <= hinge_sample_loss K D W' X y n.
Proof.
  intros Hin Hn.
  assert (Hc : (row_of K y n < K)%nat) by (apply wrap_lt, Hin, Hn).
  set (c := row_of K y n) in *.
  set (dl := fun k => scores D W' X k n - scores D W X k n).
  set (e := fun k => if Nat.eqb k c then 0
                     else if gt0 (hinge_margin K D W X y k n) then 1 else 0).
  assert (Hnum : INR (hinge_num_pos K D W X y n) = sum_range K e).
  { unfold hinge_num_pos. rewrite count_true_sum. apply sum_range_ext.
    intros k _. unfold e. fold c. destruct (Nat.eqb k c); reflexivity. }
  assert (Hsum : sum_range K
            (fun k => hinge_indicator K D W X y k n *
                      (scores D W' X k n - scores D W X k n)) =
          sum_range K (fun k => e k * (dl k - dl c))).
  { change (sum_range K (fun k => hinge_indicator K D W X y k n * dl k) =
            sum_range K (fun k => e k * (dl k - dl c))).
    rewrite (sum_range_ext K (fun k => e k * (dl k - dl c))
               (fun k => e k * dl k - e k * dl c))
      by (intros k _; ring).
    rewrite sum_range_minus, sum_range_scal_r, <- Hnum.
    rewrite <- (sum_range_single K c
                  (fun k => INR (hinge_num_pos K D W X y n) * dl k) Hc).
    rewrite <- sum_range_minus. apply sum_range_ext. intros k _.
    unfold hinge_indicator, e. fold c. destruct (Nat.eqb k c); ring. }
  rewrite Hsum. unfold hinge_sample_loss.
  rewrite <- sum_range_plus. apply sum_range_le. intros k _.
  unfold e, hinge_margin. fold c.
  destruct (Nat.eqb k c); [lra|].
  rewrite gt0_Rmax.
  replace (scores D W' X k n - scores D W' X c n + 1)
    with (scores D W X k n - scores D W X c n + 1 + (dl k - dl c))
    by (unfold dl; ring).
  set (m := scores D W X k n - scores D W X c n + 1).
  assert (Hl := Rmax_l 0 (m + (dl k - dl c))).
  assert (Hr := Rmax_r 0 (m + (dl k - dl c))).
  unfold gt0. destruct (Rlt_dec 0 m) as [Hm|Hm].
  - rewrite (Rmax_right 0 m) by lra. lra.
  - rewrite (Rmax_left 0 m) by lra. lra.
Qed.

(** X11.  The gradient that a softmax form returns at [W] bounds the
    loss at every other weight matrix [W'] from below, by the first-order
    inequality of a convex function: with [reg >= 0],
    [loss(W) + sum(grad(W) * (W' - W)) <= loss(W')].  Where the returned
    gradient is zero the returned loss is the least that any weights
    can reach. *)
Theorem softmax_subgradient K D N W W' X y reg :
  (1 <= N)%nat -> labels_in_bounds K N y -> 0 <= reg ->
  (exists loss g loss' g',
     loss_grad_softmax_naive K D N W X y reg = Returns (loss, g) /\
     loss_grad_softmax_naive K D N W' X y reg = Returns (loss', g') /\
     loss + inner K D g (fun k d => W' k d - W k d) <= loss') /\
  (exists loss g loss' g',
     loss_grad_softmax_vectorized K D N W X y reg = Returns (loss, g) /\
     loss_grad_softmax_vectorized K D N W' X y reg = Returns (loss', g') /\
     loss + inner K D g (fun k d => W' k d - W k d) <= loss').
Proof.
  intros HN Hin Hr.
  assert (H := subgradient_closed K D N W W' X reg
                 (softmax_sample_loss K D W X y)
                 (softmax_sample_loss K D W' X y)
                 (fun k n => prob K D W X k n - onehot K y k n) HN Hr
                 (fun n Hn =>
                    softmax_sample_subgradient K D N W W' X y n Hin Hn)).
  destruct (naive_spec K D N W X y reg HN Hin) as [g1 [E1 G1]].
  destruct (naive_spec K D N W' X y reg HN Hin) as [g1' [E1' _]].
  destruct (vectorized_spec K D N W X y reg HN Hin) as [g2 [E2 G2]].
  destruct (vectorized_spec K D N W' X y reg HN Hin) as [g2' [E2' _]].
  split.
  - exists (mean N (softmax_sample_loss K D W X y) + reg_loss K D W reg), g1,
      (mean N (softmax_sample_loss K D W' X y) + reg_loss K D W' reg), g1'.
    split; [exact E1|]. split; [exact E1'|].
    rewrite (inner_ext K D g1 _ _ G1). exact H.
  - exists (mean N (softmax_sample_loss K D W X y) + reg_loss K D W reg), g2,
      (mean N (softmax_sample_loss K D W' X y) + reg_loss K D W' reg), g2'.
    split; [exact E2|]. split; [exact E2'|].
    rewrite (inner_ext K D g2 _ _ G2). exact H.
Qed.

Lemma softmax_subgradient_witness :
  (1 <= 1)%nat /\ labels_in_bounds 3 1 y0 /\ 0 <= 0 /\
  exists loss g loss' g',
    loss_grad_softmax_vectorized 3 2 1 W0 X0 y0 0 = Returns (loss, g) /\
    loss_grad_softmax_vectorized 3 2 1 (fun _ _ => 0) X0 y0 0 =
      Returns (loss', g') /\
    loss + inner 3 2 g (fun k d => (fun _ _ => 0) k d - W0 k d) <= loss'.
Proof.
  assert (Hin : labels_in_bounds 3 1 y0) by (intros n _; reflexivity).
  split; [lia|]. split; [exact Hin|]. split; [lra|].
  apply (softmax_subgradient 3 2 1 W0 (fun _ _ => 0) X0 y0 0
           ltac:(lia) Hin ltac:(lra)).
Defined.

(** X12.  The gradient that the hinge form returns is a subgradient of
    its loss at every [W], also where a margin is exactly 0 and the loss
    has a kink: with [reg >= 0],
    [loss(W) + sum(grad(W) * (W' - W)) <= loss(W')] for every [W']. *)
Theorem hinge_subgradient K D N W W' X y reg :
  (1 <= N)%nat -> labels_in_bounds K N y -> 0 <= reg ->
  exists loss g loss' g',
    loss_grad_svm_vectorized K D N W X y reg = Returns (loss, g) /\
    loss_grad_svm_vectorized K D N W' X y reg = Returns (loss', g') /\
    loss + inner K D g (fun k d => W' k d - W k d) <= loss'.
Proof.
  intros HN Hin Hr.
  assert (H := subgradient_closed K D N W W' X reg
                 (hinge_sample_loss K D W X y)
                 (hinge_sample_loss K D W' X y)
                 (hinge_indicator K D W X y) HN Hr
                 (fun n Hn =>
                    hinge_sample_subgradient K D N W W' X y n Hin Hn)).
  destruct (svm_spec K D N W X y reg HN Hin) as [g [E G]].
  destruct (svm_spec K D N W' X y reg HN Hin) as [g' [E' _]].
  exists (mean N (hinge_sample_loss K D W X y) + reg_loss K D W reg), g,
    (mean N (hinge_sample_loss K D W' X y) + reg_loss K D W' reg), g'.
  split; [exact E|]. split; [exact E'|].
  rewrite (inner_ext K D g _ _ G). exact H.
Qed.

Lemma hinge_subgradient_witness :
  (1 <= 1)%nat /\ labels_in_bounds 3 1 y0 /\ 0 <= 0 /\
  exists loss g loss' g',
    loss_grad_svm_vectorized 3 2 1 W0 X0 y0 0 = Returns (loss, g) /\
    loss_grad_svm_vectorized 3 2 1 (fun _ _ => 0) X0 y0 0 =
      Returns (loss', g') /\
    loss + inner 3 2 g (fun k d => (fun _ _ => 0) k d - W0 k d) <= loss'.
Proof.
  assert (Hin : labels_in_bounds 3 1 y0) by (intros n _; reflexivity).
  split; [lia|]. split; [exact Hin|]. split; [lra|].
  apply (hinge_subgradient 3 2 1 W0 (fun _ _ => 0) X0 y0 0
           ltac:(lia) Hin ltac:(lra)).
Defined.

(** ** The returned gradient as a derivative *)

Lemma dlim_eq f x l l' :
  l = l' -> derivable_pt_lim f x l -> derivable_pt_lim f x l'.
Proof. intros ->. exact (fun H => H). Qed.

Lemma dlim_const a x : derivable_pt_lim (fun _ => a) x 0.
Proof. exact (derivable_pt_lim_const a x). Qed.

Lemma dlim_plus f g x l1 l2 :
  derivable_pt_lim f x l1 -> derivable_pt_lim g x l2 ->
  derivable_pt_lim (fun t => f t + g t) x (l1 + l2).
Proof. intros H1 H2. exact (derivable_pt_lim_plus f g x l1 l2 H1 H2). Qed.

Lemma dlim_minus f g x l1 l2 :
  derivable_pt_lim f x l1 -> derivable_pt_lim g x l2 ->
  derivable_pt_lim (fun t => f t - g t) x (l1 - l2).
Proof. intros H1 H2. exact (derivable_pt_lim_minus f g x l1 l2 H1 H2). Qed.

Lemma dlim_scal a f x l :
  derivable_pt_lim f x l -> derivable_pt_lim (fun t => a * f t) x (a * l).
Proof. intros H. exact (derivable_pt_lim_scal f a x l H). Qed.

Lemma dlim_mult f g x l1 l2 :
  derivable_pt_lim f x l1 -> derivable_pt_lim g x l2 ->
  derivable_pt_lim (fun t => f t * g t) x (l1 * g x + f x * l2).
Proof. intros H1 H2. exact (derivable_pt_lim_mult f g x l1 l2 H1 H2). Qed.

Lemma dlim_affine a b x : derivable_pt_lim (fun t => a + t * b) x b.
Proof.
  apply (dlim_eq _ _ (0 + (1 * b + x * 0))); [ring|].
  apply dlim_plus; [apply dlim_const|].
  apply (dlim_mult (fun t => t) (fun _ => b)).
  - exact (derivable_pt_lim_id x).
  - apply dlim_const.
Qed.

Lemma dlim_exp f x l :
  derivable_pt_lim f x l ->
  derivable_pt_lim (fun t => exp (f t)) x (exp (f x) * l).
Proof.
  intros H.
  exact (derivable_pt_lim_comp f exp x l (exp (f x)) H
           (derivable_pt_lim_exp (f x))).
Qed.

Lemma dlim_ln f x l :
  0 < f x -> derivable_pt_lim f x l ->
  derivable_pt_lim (fun t => ln (f t)) x (/ f x * l).
Proof.
  intros Hpos H.
  exact (derivable_pt_lim_comp f ln x l (/ f x) H
           (derivable_pt_lim_ln (f x) Hpos)).
Qed.

Lemma dlim_sum n (F : nat -> R -> R) (l : nat -> R) x :
  (forall i, (i < n)%nat -> derivable_pt_lim (F i) x (l i)) ->
  derivable_pt_lim (fun t => sum_range n (fun i => F i t)) x (sum_range n l).
Proof.
  induction n as [|n IH]; intros H; simpl.
  - apply dlim_const.
  - apply (dlim_plus (fun t => sum_range n (fun i => F i t)) (F n)).
    + apply IH. intros i Hi. apply H. lia.
    + apply H. lia.
Qed.

Lemma dlim_mean N (F : nat -> R -> R) (l : nat -> R) x :
  (forall n, (n < N)%nat -> derivable_pt_lim (F n) x (l n)) ->
  derivable_pt_lim (fun t => mean N (fun n => F n t)) x (mean N l).
Proof.
  intros H. unfold mean.
  apply (derivable_pt_lim_ext
           (fun t => / INR N * sum_range N (fun n => F n t))).
  - intros t. unfold Rdiv. ring.
  - apply (dlim_eq _ _ (/ INR N * sum_range N l));
      [unfold Rdiv; ring|].
    apply (dlim_scal (/ INR N) (fun t => sum_range N (fun n => F n t))).
    apply dlim_sum. exact H.
Qed.

(** The hinge [max(0, a + t * b)] away from its kink. *)
Lemma dlim_hinge a b x :
  a + x * b <> 0 ->
  derivable_pt_lim (fun t => Rmax 0 (a + t * b)) x
    (if gt0 (a + x * b) then b else 0).
Proof.
  intros Hne eps Heps.
  assert (HU : 0 < Rabs (a + x * b)) by (apply Rabs_pos_lt, Hne).
  assert (HB : 0 <= Rabs b) by apply Rabs_pos.
  assert (Hd : 0 < Rabs (a + x * b) / (Rabs b + 1)).
  { apply Rdiv_lt_0_compat; lra. }
  exists (mkposreal _ Hd). intros h Hh Hlt. simpl in Hlt.
  assert (Hbh : Rabs (h * b) < Rabs (a + x * b)).
  { rewrite Rabs_mult.
    assert (H0 := Rabs_pos h).
    assert (H1 : Rabs h * (Rabs b + 1) < Rabs (a + x * b)).
    { apply (Rmult_lt_compat_r (Rabs b + 1)) in Hlt; [|lra].
      unfold Rdiv in Hlt. rewrite Rmult_assoc, Rinv_l in Hlt; lra. }
    nra. }
  apply Rabs_def2 in Hbh. destruct Hbh as [Hb1 Hb2].
  replace (a + (x + h) * b) with (a + x * b + h * b) by ring.
  unfold gt0. destruct (Rlt_dec 0 (a + x * b)) as [Hpos|Hneg].
  - rewrite Rabs_right in Hb1, Hb2 by lra.
    rewrite !Rmax_right by lra.
    replace ((a + x * b + h * b - (a + x * b)) / h - b) with 0
      by (field; exact Hh).
    rewrite Rabs_R0. exact Heps.
  - assert (Hlt0 : a + x * b < 0) by lra.
    rewrite Rabs_left in Hb1, Hb2 by lra.
    rewrite !Rmax_left by lra.
    replace ((0 - 0) / h - 0) with 0 by (field; exact Hh).
    rewrite Rabs_R0. exact Heps.
Qed.

(** The scores along the line [W + t * V]. *)
Lemma scores_add_scaled D W V X t k n :
  scores D (add_scaled W V t) X k n =
  scores D W X k n + t * scores D V X k n.
Proof.
  unfold scores, dot, add_scaled.
  rewrite <- sum_range_scal_l, <- sum_range_plus.
  apply sum_range_ext. intros d _. ring.
Qed.

Lemma dlim_scores D W V X k n x :
  derivable_pt_lim (fun t => scores D (add_scaled W V t) X k n) x
    (scores D V X k n).
Proof.
  apply (derivable_pt_lim_ext
           (fun t => scores D W X k n + t * scores D V X k n)).
  - intros t. rewrite scores_add_scaled. reflexivity.
  - apply dlim_affine.
Qed.

Lemma dlim_reg_loss K D W V reg x :
  derivable_pt_lim (fun t => reg_loss K D (add_scaled W V t) reg) x
    (inner K D (reg_grad (add_scaled W V x) reg) V).
Proof.
  unfold reg_loss, sum_sq, np_sum2.
  apply (dlim_eq _ _
           (0.5 * reg *
            sum_range K (fun k => sum_range D (fun d =>
              2 * (W k d + x * V k d) * V k d)))).
  - unfold inner, np_sum2, reg_grad, add_scaled.
    rewrite <- sum_range_scal_l. apply sum_range_ext. intros k _.
    rewrite <- sum_range_scal_l. apply sum_range_ext. intros d _. lra.
  - apply (dlim_scal (0.5 * reg)
             (fun t => sum_range K (fun k => sum_range D (fun d =>
                add_scaled W V t k d * add_scaled W V t k d)))).
    apply (dlim_sum K
             (fun k t => sum_range D (fun d =>
                add_scaled W V t k d * add_scaled W V t k d))).
    intros k _.
    apply (dlim_sum D
             (fun d t => add_scaled W V t k d * add_scaled W V t k d)).
    intros d _. unfold add_scaled.
    apply (dlim_eq _ _ (V k d * (W k d + x * V k d) +
                        (W k d + x * V k d) * V k d)); [ring|].
    apply (dlim_mult (fun t => W k d + t * V k d)
             (fun t => W k d + t * V k d)); apply dlim_affine.
Qed.

Lemma dlim_softmax_sample_loss K D N W V X y n x :
  labels_in_bounds K N y -> (n < N)%nat ->
  derivable_pt_lim
    (fun t => softmax_sample_loss K D (add_scaled W V t) X y n) x
    (sum_range K
       (fun k => (prob K D (add_scaled W V x) X k n - onehot K y k n) *
                 scores D V X k n)).
Proof.
  intros Hin Hn.
  assert (Hc : (row_of K y n < K)%nat) by (apply wrap_lt, Hin, Hn).
  assert (HK : (1 <= K)%nat) by lia.
  set (c := row_of K y n) in *.
  set (s := fun t j => scores D (add_scaled W V t) X j n).
  set (b := fun j => scores D V X j n).
  assert (Hz : 0 < sum_range K (fun j => exp (s x j)))
    by (apply sum_exp_pos; exact HK).
  apply (derivable_pt_lim_ext
           (fun t => ln (sum_range K (fun j => exp (s t j))) - s t c)).
  { intros t. unfold softmax_sample_loss, prob. fold c.
    rewrite ln_softmax by exact HK. unfold s. ring. }
  apply (dlim_eq _ _
           (/ sum_range K (fun j => exp (s x j)) *
            sum_range K (fun j => exp (s x j) * b j) - b c)).
  { rewrite <- (sum_range_single K c b Hc).
    rewrite <- sum_range_scal_l, <- sum_range_minus.
    apply sum_range_ext. intros k _.
    unfold prob, onehot, softmax. fold c. unfold s, b in *.
    destruct (Nat.eqb k c); field; lra. }
  apply (dlim_minus
           (fun t => ln (sum_range K (fun j => exp (s t j))))
           (fun t => s t c)).
  - apply (dlim_ln (fun t => sum_range K (fun j => exp (s t j))));
      [exact Hz|].
    apply (dlim_sum K (fun j t => exp (s t j))).
    intros j _. apply (dlim_exp (fun t => s t j)).
    apply dlim_scores.
  - apply dlim_scores.
Qed.

Lemma hinge_indicator_weighted K D W X y n (dl : vector) :
  (row_of K y n < K)%nat ->
  sum_range K (fun k => hinge_indicator K D W X y k n * dl k) =
  sum_range K
    (fun k => (if Nat.eqb k (row_of K y n) then 0
               else if gt0 (hinge_margin K D W X y k n) then 1 else 0) *
              (dl k - dl (row_of K y n))).
Proof.
  intros Hc. set (c := row_of K y n) in *.
  set (e := fun k => if Nat.eqb k c then 0
                     else if gt0 (hinge_margin K D W X y k n) then 1 else 0).
  assert (Hnum : INR (hinge_num_pos K D W X y n) = sum_range K e).
  { unfold hinge_num_pos. rewrite count_true_sum. apply sum_range_ext.
    intros k _. unfold e. fold c. destruct (Nat.eqb k c); reflexivity. }
  change (sum_range K (fun k => hinge_indicator K D W X y k n * dl k) =
          sum_range K (fun k => e k * (dl k - dl c))).
  rewrite (sum_range_ext K (fun k => e k * (dl k - dl c))
             (fun k => e k * dl k - e k * dl c))
    by (intros k _; ring).
  rewrite sum_range_minus, sum_range_scal_r, <- Hnum.
  rewrite <- (sum_range_single K c
                (fun k => INR (hinge_num_pos K D W X y n) * dl k) Hc).
  rewrite <- sum_range_minus. apply sum_range_ext. intros k _.
  unfold hinge_indicator, e. fold c. destruct (Nat.eqb k c); ring.
Qed.

Lemma dlim_hinge_sample_loss K D N W V X y n x :
  labels_in_bounds K N y -> (n < N)%nat ->
  (forall k, (k < K)%nat -> k <> row_of K y n ->
     scores D (add_scaled W V x) X k n -
     scores D (add_scaled W V x) X (row_of K y n) n + 1 <> 0) ->
  derivable_pt_lim
    (fun t => hinge_sample_loss K D (add_scaled W V t) X y n) x
    (sum_range K
       (fun k => hinge_indicator K D (add_scaled W V x) X y k n *
                 scores D V X k n)).
Proof.
  intros Hin Hn Hne.
  assert (Hc : (row_of K y n < K)%nat) by (apply wrap_lt, Hin, Hn).
  rewrite (hinge_indicator_weighted K D (add_scaled W V x) X y n
             (fun k => scores D V X k n) Hc).
  set (c := row_of K y n) in *.
  unfold hinge_sample_loss.
  apply (dlim_sum K (fun k t => hinge_margin K D (add_scaled W V t) X y k n)).
  intros k Hk. unfold hinge_margin. fold c.
  destruct (Nat.eqb_spec k c) as [E|Hkc].
  - apply (dlim_eq _ _ 0); [ring|]. apply dlim_const.
  - rewrite gt0_Rmax.
    set (a := scores D W X k n - scores D W X c n + 1).
    set (b := scores D V X k n - scores D V X c n).
    assert (Hm : forall t,
               scores D (add_scaled W V t) X k n -
               scores D (add_scaled W V t) X c n + 1 = a + t * b).
    { intros t. rewrite !scores_add_scaled. unfold a, b. ring. }
    assert (Hx := Hne k Hk Hkc). rewrite Hm in Hx. rewrite Hm.
    apply (derivable_pt_lim_ext (fun t => Rmax 0 (a + t * b))).
    + intros t. rewrite Hm. reflexivity.
    + apply (dlim_eq _ _ (if gt0 (a + x * b) then b else 0)).
      * destruct (gt0 (a + x * b)); ring.
      * apply dlim_hinge. exact Hx.
Qed.

(** The derivative of a loss in closed form along [W + t * V]. *)
Lemma dlim_closed K D N W V X reg
  (sl : matrix -> nat -> R) (a : matrix -> matrix) x :
  (forall n, (n < N)%nat ->
     derivable_pt_lim (fun t => sl (add_scaled W V t) n) x
       (sum_range K (fun k => a (add_scaled W V x) k n * scores D V X k n))) ->
  derivable_pt_lim
    (fun t => mean N (sl (add_scaled W V t)) +
              reg_loss K D (add_scaled W V t) reg) x
    (inner K D
       (fun k d =>
          mean_grad N (fun n k d => a (add_scaled W V x) k n * X d n) k d +
          reg_grad (add_scaled W V x) reg k d) V).
Proof.
  intros H.
  rewrite (inner_plus K D
             (mean_grad N (fun n k d => a (add_scaled W V x) k n * X d n))
             (reg_grad (add_scaled W V x) reg)).
  rewrite inner_mean_grad.
  apply (dlim_plus (fun t => mean N (sl (add_scaled W V t)))
           (fun t => reg_loss K D (add_scaled W V t) reg)).
  - apply (dlim_mean N (fun n t => sl (add_scaled W V t) n)). exact H.
  - apply dlim_reg_loss.
Qed.

(** At [t = 0] the line [W + t * V] passes through [W]. *)
Lemma scores_add_scaled_0 D W V X k n :
  scores D (add_scaled W V 0) X k n = scores D W X k n.
Proof. rewrite scores_add_scaled. ring. Qed.

Lemma prob_add_scaled_0 K D W V X k n :
  prob K D (add_scaled W V 0) X k n = prob K D W X k n.
Proof.
  unfold prob. apply softmax_ext.
  - intros j _. apply scores_add_scaled_0.
  - apply scores_add_scaled_0.
Qed.

Lemma hinge_margin_add_scaled_0 K D W V X y k n :
  hinge_margin K D (add_scaled W V 0) X y k n = hinge_margin K D W X y k n.
Proof.
  unfold hinge_margin. rewrite !scores_add_scaled_0. reflexivity.
Qed.

Lemma hinge_indicator_add_scaled_0 K D W V X y k n :
  hinge_indicator K D (add_scaled W V 0) X y k n =
  hinge_indicator K D W X y k n.
Proof.
  unfold hinge_indicator, hinge_num_pos.
  rewrite hinge_margin_add_scaled_0.
  rewrite (count_true_ext K _
             (fun k => negb (Nat.eqb k (row_of K y n)) &&
                       gt0 (hinge_margin K D W X y k n))).
  - reflexivity.
  - intros j _. rewrite hinge_margin_add_scaled_0. reflexivity.
Qed.

Lemma closed_grad_add_scaled_0 K D N W V X reg (a : matrix -> matrix) :
  (forall k n, a (add_scaled W V 0) k n = a W k n) ->
  mat_eq K D
    (fun k d => mean_grad N (fun n k d => a W k n * X d n) k d +
                reg_grad W reg k d)
    (fun k d =>
       mean_grad N (fun n k d => a (add_scaled W V 0) k n * X d n) k d +
       reg_grad (add_scaled W V 0) reg k d).
Proof.
  intros Ha k d _ _. apply f_equal2.
  - unfold mean_grad. apply mean_ext. intros n _. rewrite Ha. reflexivity.
  - unfold reg_grad, add_scaled. ring.
Qed.

(** X13.  The gradient that a softmax form returns is the derivative of
    the loss that it returns: for every direction [V], a (K, D) array,
    the loss at [W + t * V] as a function of [t] has at [t = 0] the
    derivative [sum(grad * V)]; with [V] zero but for a 1 at [k, d] this
    is the partial derivative of the loss by [W[k, d]]. *)
Theorem softmax_gradient_derivative K D N W V X y reg :
  (1 <= N)%nat -> labels_in_bounds K N y ->
  (exists loss g,
     loss_grad_softmax_naive K D N W X y reg = Returns (loss, g) /\
     derivable_pt_lim
       (fun t => loss_of
                   (loss_grad_softmax_naive K D N (add_scaled W V t) X y reg))
       0 (inner K D g V)) /\
  (exists loss g,
     loss_grad_softmax_vectorized K D N W X y reg = Returns (loss, g) /\
     derivable_pt_lim
       (fun t => loss_of
                   (loss_grad_softmax_vectorized K D N (add_scaled W V t) X y
                      reg))
       0 (inner K D g V)).
Proof.
  intros HN Hin.
  assert (Hd := dlim_closed K D N W V X reg
                  (fun W => softmax_sample_loss K D W X y)
                  (fun W k n => prob K D W X k n - onehot K y k n) 0
                  (fun n Hn =>
                     dlim_softmax_sample_loss K D N W V X y n 0 Hin Hn)).
  assert (Hg := closed_grad_add_scaled_0 K D N W V X reg
                  (fun W k n => prob K D W X k n - onehot K y k n)
                  ltac:(intros k n; cbv beta; rewrite prob_add_scaled_0;
                        reflexivity)).
  cbv beta in Hd, Hg.
  destruct (naive_spec K D N W X y reg HN Hin) as [g1 [E1 G1]].
  destruct (vectorized_spec K D N W X y reg HN Hin) as [g2 [E2 G2]].
  split.
  - eexists. exists g1. split; [exact E1|].
    eapply dlim_eq.
    { symmetry. rewrite (inner_ext K D g1 _ V G1). apply inner_ext.
      exact Hg. }
    apply (derivable_pt_lim_ext
             (fun t => mean N (softmax_sample_loss K D (add_scaled W V t) X y)
                       + reg_loss K D (add_scaled W V t) reg)).
    + intros t.
      destruct (naive_spec K D N (add_scaled W V t) X y reg HN Hin)
        as [g [E _]].
      rewrite E. reflexivity.
    + exact Hd.
  - eexists. exists g2. split; [exact E2|].
    eapply dlim_eq.
    { symmetry. rewrite (inner_ext K D g2 _ V G2). apply inner_ext.
      exact Hg. }
    apply (derivable_pt_lim_ext
             (fun t => mean N (softmax_sample_loss K D (add_scaled W V t) X y)
                       + reg_loss K D (add_scaled W V t) reg)).
    + intros t.
      destruct (vectorized_spec K D N (add_scaled W V t) X y reg HN Hin)
        as [g [E _]].
      rewrite E. reflexivity.
    + exact Hd.
Qed.

Lemma softmax_gradient_derivative_witness :
  (1 <= 1)%nat /\ labels_in_bounds 3 1 y0 /\
  exists loss g,
    loss_grad_softmax_vectorized 3 2 1 W0 X0 y0 0 = Returns (loss, g) /\
    derivable_pt_lim
      (fun t => loss_of
                  (loss_grad_softmax_vectorized 3 2 1 (add_scaled W0 W0 t) X0
                     y0 0))
      0 (inner 3 2 g W0).
Proof.
  assert (Hin : labels_in_bounds 3 1 y0) by (intros n _; reflexivity).
  split; [lia|]. split; [exact Hin|].
  apply (softmax_gradient_derivative 3 2 1 W0 W0 X0 y0 0 ltac:(lia) Hin).
Defined.

(** X14.  Where no margin of another class is exactly 0, the gradient
    that the hinge form returns is the derivative of the loss that it
    returns: for every direction [V] the loss at [W + t * V] has at
    [t = 0] the derivative [sum(grad * V)].  At a margin that is exactly
    0 the loss has a kink, and the strict comparison of line 127 takes
    the slope on the side where the margin is met. *)
Theorem hinge_gradient_derivative K D N W V X y reg :
  (1 <= N)%nat -> labels_in_bounds K N y ->
  (forall n k, (n < N)%nat -> (k < K)%nat -> k <> row_of K y n ->
     scores D W X k n - scores D W X (row_of K y n) n + 1 <> 0) ->
  exists loss g,
    loss_grad_svm_vectorized K D N W X y reg = Returns (loss, g) /\
    derivable_pt_lim
      (fun t => loss_of
                  (loss_grad_svm_vectorized K D N (add_scaled W V t) X y reg))
      0 (inner K D g V).
Proof.
  intros HN Hin Hne.
  assert (Hd := dlim_closed K D N W V X reg
                  (fun W => hinge_sample_loss K D W X y)
                  (fun W => hinge_indicator K D W X y) 0
                  (fun n Hn =>
                     dlim_hinge_sample_loss K D N W V X y n 0 Hin Hn
                       ltac:(intros k Hk Hkc; rewrite !scores_add_scaled_0;
                             apply Hne; assumption))).
  assert (Hg := closed_grad_add_scaled_0 K D N W V X reg
                  (fun W => hinge_indicator K D W X y)
                  ltac:(intros k n; apply hinge_indicator_add_scaled_0)).
  cbv beta in Hd, Hg.
  destruct (svm_spec K D N W X y reg HN Hin) as [g [E G]].
  eexists. exists g. split; [exact E|].
  eapply dlim_eq.
  { symmetry. rewrite (inner_ext K D g _ V G). apply inner_ext. exact Hg. }
  apply (derivable_pt_lim_ext
           (fun t => mean N (hinge_sample_loss K D (add_scaled W V t) X y)
                     + reg_loss K D (add_scaled W V t) reg)).
  - intros t.
    destruct (svm_spec K D N (add_scaled W V t) X y reg HN Hin) as [g' [E' _]].
    rewrite E'. reflexivity.
  - exact Hd.
Qed.

Lemma margins_not_zero0 :
  forall n k, (n < 1)%nat -> (k < 3)%nat -> k <> row_of 3 y0 n ->
    scores 2 (fun _ _ => 0) X0 k n -
    scores 2 (fun _ _ => 0) X0 (row_of 3 y0 n) n + 1 <> 0.
Proof.
  intros n k _ _ _. unfold scores, dot. simpl. lra.
Qed.

Lemma hinge_gradient_derivative_witness :
  (1 <= 1)%nat /\ labels_in_bounds 3 1 y0 /\
  (forall n k, (n < 1)%nat -> (k < 3)%nat -> k <> row_of 3 y0 n ->
     scores 2 (fun _ _ => 0) X0 k n -
     scores 2 (fun _ _ => 0) X0 (row_of 3 y0 n) n + 1 <> 0) /\
  exists loss g,
    loss_grad_svm_vectorized 3 2 1 (fun _ _ => 0) X0 y0 0 =
      Returns (loss, g) /\
    derivable_pt_lim
      (fun t => loss_of
                  (loss_grad_svm_vectorized 3 2 1
                     (add_scaled (fun _ _ => 0) W0 t) X0 y0 0))
      0 (inner 3 2 g W0).
Proof.
  assert (Hin : labels_in_bounds 3 1 y0) by (intros n _; reflexivity).
  split; [lia|]. split; [exact Hin|]. split; [exact margins_not_zero0|].
  apply (hinge_gradient_derivative 3 2 1 (fun _ _ => 0) W0 X0 y0 0
           ltac:(lia) Hin margins_not_zero0).
Defined.

(** The hypothesis on the margins is needed.  With K = 2, D = 1, N = 1,
    W = [[1],[0]], X = [[1]], y = [0] the margin of class 1 is exactly 0;
    along the direction [[0],[1]] the loss is [max(0, t)], which has no
    derivative at 0. *)
Lemma hinge_kink :
  let V : matrix := fun k _ => if Nat.eqb k 1 then 1 else 0 in
  (forall t,
     loss_of (loss_grad_svm_vectorized 2 1 1 (add_scaled W1 V t) X1 y0 0) =
     Rmax 0 t) /\
  ~ exists l,
      derivable_pt_lim
        (fun t => loss_of
                    (loss_grad_svm_vectorized 2 1 1 (add_scaled W1 V t) X1 y0
                       0))
        0 l.
Proof.
  intros V.
  assert (Hin : labels_in_bounds 2 1 y0) by (intros n _; reflexivity).
  assert (Hl : forall t,
             loss_of (loss_grad_svm_vectorized 2 1 1 (add_scaled W1 V t) X1
                        y0 0) = Rmax 0 t).
  { intros t.
    destruct (svm_spec 2 1 1 (add_scaled W1 V t) X1 y0 0 ltac:(lia) Hin)
      as [g [E _]].
    rewrite E. simpl. unfold mean, reg_loss, hinge_sample_loss, hinge_margin.
    unfold scores, dot, add_scaled, W1, X1, V. simpl.
    replace (0 + (0 + t * 1) * 1 - (0 + (1 + t * 0) * 1) + 1) with t by ring.
    lra. }
  split; [exact Hl|].
  intros [l Hd].
  destruct (Hd (/ 2) ltac:(lra)) as [delta Hdelta].
  assert (Hpos := cond_pos delta).
  assert (H1 := Hdelta (delta / 2) ltac:(lra)
                  ltac:(rewrite Rabs_right; lra)).
  assert (H2 := Hdelta (- (delta / 2)) ltac:(lra)
                  ltac:(rewrite Rabs_left; lra)).
  rewrite !Hl in H1, H2. rewrite Rplus_0_l in H1, H2.
  rewrite (Rmax_left 0 0) in H1, H2 by lra.
  rewrite (Rmax_right 0 (delta / 2)) in H1 by lra.
  rewrite (Rmax_left 0 (- (delta / 2))) in H2 by lra.
  replace ((delta / 2 - 0) / (delta / 2)) with 1 in H1 by (field; lra).
  replace ((0 - 0) / - (delta / 2)) with 0 in H2 by (field; lra).
  apply Rabs_def2 in H1. apply Rabs_def2 in H2. lra.
Qed.

(** ** The order of the samples *)

(** A sum over [range(N)] taken in another order. *)
Lemma sum_range_reorder N (sigma tau : nat -> nat) f :
  (forall n, (n < N)%nat ->
     (sigma n < N)%nat /\ (tau n < N)%nat /\
     tau (sigma n) = n /\ sigma (tau n) = n) ->
  sum_range N (fun n => f (sigma n)) = sum_range N f.
Proof.
  intros H.
  rewrite (sum_range_ext N (fun n => f (sigma n))
             (fun n => sum_range N
                         (fun m => if Nat.eqb m (sigma n) then f m else 0))).
  - rewrite (sum_range_swap N N
               (fun n m => if Nat.eqb m (sigma n) then f m else 0)).
    apply sum_range_ext. intros m Hm.
    destruct (H m Hm) as [_ [Ht [_ Hst]]].
    transitivity
      (sum_range N (fun n => if Nat.eqb n (tau m) then f m else 0)).
    + apply sum_range_ext. intros n Hn.
      destruct (H n Hn) as [_ [_ [Hts _]]].
      destruct (Nat.eqb_spec m (sigma n)) as [E|Hne];
        destruct (Nat.eqb_spec n (tau m)) as [E'|Hne']; try reflexivity.
      * exfalso. apply Hne'. rewrite E, Hts. reflexivity.
      * exfalso. apply Hne. rewrite E', Hst. reflexivity.
    + apply (sum_range_single N (tau m) (fun _ => f m) Ht).
  - intros n Hn. destruct (H n Hn) as [Hs _].
    rewrite (sum_range_single N (sigma n) f Hs). reflexivity.
Qed.

Lemma mean_reorder N (sigma tau : nat -> nat) f :
  (forall n, (n < N)%nat ->
     (sigma n < N)%nat /\ (tau n < N)%nat /\
     tau (sigma n) = n /\ sigma (tau n) = n) ->
  mean N (fun n => f (sigma n)) = mean N f.
Proof.
  intros H. unfold mean. rewrite (sum_range_reorder N sigma tau f H).
  reflexivity.
Qed.

(** Two calls that return closed forms with the same means. *)
Lemma same_outcome_means K D N
  (sl sl' : nat -> R) (sg sg' : nat -> matrix) rl (rg : matrix)
  (o o' : outcome (R * matrix)) :
  mean N sl = mean N sl' ->
  (forall k d, (k < K)%nat -> (d < D)%nat ->
     mean_grad N sg k d = mean_grad N sg' k d) ->
  (exists g, o = Returns (mean N sl + rl, g) /\
             mat_eq K D g (fun k d => mean_grad N sg k d + rg k d)) ->
  (exists g, o' = Returns (mean N sl' + rl, g) /\
             mat_eq K D g (fun k d => mean_grad N sg' k d + rg k d)) ->
  same_outcome K D o o'.
Proof.
  intros Hl Hg [g [E G]] [g' [E' G']]. subst o o'. simpl. split.
  - rewrite Hl. reflexivity.
  - intros k d Hk Hd. rewrite G, G' by assumption.
    rewrite (Hg k d Hk Hd). reflexivity.
Qed.

Section Reordered.

Variables K D N : nat.
Variable W : matrix.
Variables X X' : matrix.
Variables y y' : nat -> Z.
Variables sigma tau : nat -> nat.

Hypothesis Hperm :
  forall n, (n < N)%nat ->
    (sigma n < N)%nat /\ (tau n < N)%nat /\
    tau (sigma n) = n /\ sigma (tau n) = n.
Hypothesis HX :
  forall n d, (n < N)%nat -> (d < D)%nat -> X' d n = X d (sigma n).
Hypothesis Hy : forall n, (n < N)%nat -> y' n = y (sigma n).

Lemma scores_reordered k n :
  (n < N)%nat -> scores D W X' k n = scores D W X k (sigma n).
Proof.
  intros Hn. unfold scores, dot. apply sum_range_ext. intros d Hd.
  rewrite HX by assumption. reflexivity.
Qed.

Lemma row_of_reordered n :
  (n < N)%nat -> row_of K y' n = row_of K y (sigma n).
Proof. intros Hn. unfold row_of. rewrite Hy by exact Hn. reflexivity. Qed.

Lemma prob_reordered k n :
  (n < N)%nat -> prob K D W X' k n = prob K D W X k (sigma n).
Proof.
  intros Hn. unfold prob. apply softmax_ext.
  - intros j _. apply scores_reordered. exact Hn.
  - apply scores_reordered. exact Hn.
Qed.

Lemma softmax_sample_loss_reordered n :
  (n < N)%nat ->
  softmax_sample_loss K D W X' y' n = softmax_sample_loss K D W X y (sigma n).
Proof.
  intros Hn. unfold softmax_sample_loss.
  rewrite row_of_reordered, prob_reordered by exact Hn. reflexivity.
Qed.

Lemma softmax_sample_grad_reordered n k d :
  (n < N)%nat -> (d < D)%nat ->
  softmax_sample_grad K D W X' y' n k d =
  softmax_sample_grad K D W X y (sigma n) k d.
Proof.
  intros Hn Hd. unfold softmax_sample_grad, onehot.
  rewrite row_of_reordered, prob_reordered, HX by assumption. reflexivity.
Qed.

Lemma hinge_margin_reordered k n :
  (n < N)%nat ->
  hinge_margin K D W X' y' k n = hinge_margin K D W X y k (sigma n).
Proof.
  intros Hn. unfold hinge_margin.
  rewrite row_of_reordered, !scores_reordered by exact Hn. reflexivity.
Qed.

Lemma hinge_sample_loss_reordered n :
  (n < N)%nat ->
  hinge_sample_loss K D W X' y' n = hinge_sample_loss K D W X y (sigma n).
Proof.
  intros Hn. unfold hinge_sample_loss. apply sum_range_ext. intros k _.
  apply hinge_margin_reordered. exact Hn.
Qed.

Lemma hinge_sample_grad_reordered n k d :
  (n < N)%nat -> (d < D)%nat ->
  hinge_sample_grad K D W X' y' n k d =
  hinge_sample_grad K D W X y (sigma n) k d.
Proof.
  intros Hn Hd. unfold hinge_sample_grad, hinge_indicator, hinge_num_pos.
  rewrite row_of_reordered, hinge_margin_reordered, HX by assumption.
  rewrite (count_true_ext K _
             (fun k => negb (Nat.eqb k (row_of K y (sigma n))) &&
                       gt0 (hinge_margin K D W X y k (sigma n)))).
  - reflexivity.
  - intros j _. rewrite hinge_margin_reordered by exact Hn. reflexivity.
Qed.

Lemma labels_in_bounds_reordered :
  labels_in_bounds K N y -> labels_in_bounds K N y'.
Proof.
  intros Hin n Hn. rewrite Hy by exact Hn. apply Hin. apply Hperm, Hn.
Qed.

Lemma out_of_bounds_reordered n :
  (n < N)%nat -> in_bounds K (y n) = false ->
  (tau n < N)%nat /\ in_bounds K (y' (tau n)) = false.
Proof.
  intros Hn Hout. destruct (Hperm n Hn) as [_ [Ht [_ Hst]]].
  split; [exact Ht|]. rewrite Hy, Hst by exact Ht. exact Hout.
Qed.

Lemma means_reordered (sl sl' : nat -> R) :
  (forall n, (n < N)%nat -> sl' n = sl (sigma n)) -> mean N sl = mean N sl'.
Proof.
  intros H. rewrite <- (mean_reorder N sigma tau sl Hperm).
  apply mean_ext. intros n Hn. rewrite H by exact Hn. reflexivity.
Qed.

End Reordered.

(** X15.  The order of the samples in the batch does not matter: for a
    batch [X'], [y'] that holds the samples of [X], [y] in another order,
    each of the three functions ends as it does on [X], [y], with the
    same loss and the same gradient or with the same exception. *)
Theorem batch_order_invariant K D N W X X' y y' reg (sigma tau : nat -> nat) :
  (forall n, (n < N)%nat ->
     (sigma n < N)%nat /\ (tau n < N)%nat /\
     tau (sigma n) = n /\ sigma (tau n) = n) ->
  (forall n d, (n < N)%nat -> (d < D)%nat -> X' d n = X d (sigma n)) ->
  (forall n, (n < N)%nat -> y' n = y (sigma n)) ->
  same_outcome K D
    (loss_grad_softmax_naive K D N W X y reg)
    (loss_grad_softmax_naive K D N W X' y' reg) /\
  same_outcome K D
    (loss_grad_softmax_vectorized K D N W X y reg)
    (loss_grad_softmax_vectorized K D N W X' y' reg) /\
  same_outcome K D
    (loss_grad_svm_vectorized K D N W X y reg)
    (loss_grad_svm_vectorized K D N W X' y' reg).
Proof.
  intros Hperm HX Hy.
  destruct (valid_dec K N y) as [[HN Hin]|Hno].
  - assert (Hin' := labels_in_bounds_reordered K N y y' sigma tau Hperm Hy Hin).
    assert (Hl := means_reordered N sigma tau Hperm
                    (softmax_sample_loss K D W X y)
                    (softmax_sample_loss K D W X' y')
                    (softmax_sample_loss_reordered K D N W X X' y y' sigma
                       HX Hy)).
    assert (Hg : forall k d, (k < K)%nat -> (d < D)%nat ->
               mean_grad N (softmax_sample_grad K D W X y) k d =
               mean_grad N (softmax_sample_grad K D W X' y') k d).
    { intros k d _ Hd. unfold mean_grad.
      apply (means_reordered N sigma tau Hperm
               (fun n => softmax_sample_grad K D W X y n k d)
               (fun n => softmax_sample_grad K D W X' y' n k d)).
      intros n Hn.
      apply (softmax_sample_grad_reordered K D N W X X' y y' sigma HX Hy);
        assumption. }
    assert (Hhl := means_reordered N sigma tau Hperm
                     (hinge_sample_loss K D W X y)
                     (hinge_sample_loss K D W X' y')
                     (hinge_sample_loss_reordered K D N W X X' y y' sigma
                        HX Hy)).
    assert (Hhg : forall k d, (k < K)%nat -> (d < D)%nat ->
               mean_grad N (hinge_sample_grad K D W X y) k d =
               mean_grad N (hinge_sample_grad K D W X' y') k d).
    { intros k d _ Hd. unfold mean_grad.
      apply (means_reordered N sigma tau Hperm
               (fun n => hinge_sample_grad K D W X y n k d)
               (fun n => hinge_sample_grad K D W X' y' n k d)).
      intros n Hn.
      apply (hinge_sample_grad_reordered K D N W X X' y y' sigma HX Hy);
        assumption. }
    split; [|split].
    + apply (same_outcome_means K D N _ _ _ _ (reg_loss K D W reg)
               (reg_grad W reg) _ _ Hl Hg);
        apply naive_spec; assumption.
    + apply (same_outcome_means K D N _ _ _ _ (reg_loss K D W reg)
               (reg_grad W reg) _ _ Hl Hg);
        apply vectorized_spec; assumption.
    + apply (same_outcome_means K D N _ _ _ _ (reg_loss K D W reg)
               (reg_grad W reg) _ _ Hhl Hhg);
        apply svm_spec; assumption.
  - destruct (not_valid_cases K N y Hno) as [->|[HN [n [Hn Hout]]]].
    + destruct (empty_batch K D W X y reg) as [E1 [E2 E3]].
      destruct (empty_batch K D W X' y' reg) as [E1' [E2' E3']].
      rewrite E1, E2, E3, E1', E2', E3'. repeat split.
    + destruct (out_of_bounds_reordered K N y y' sigma tau Hperm Hy n Hn Hout)
        as [Ht Hout'].
      split; [|split].
      * destruct (Nat.eq_dec K 0) as [->|HK].
        -- rewrite !naive_no_classes by exact HN. reflexivity.
        -- rewrite (naive_out_of_bounds K D N W X y reg n)
             by (assumption || lia).
           rewrite (naive_out_of_bounds K D N W X' y' reg (tau n))
             by (assumption || lia).
           reflexivity.
      * destruct (Nat.eq_dec K 0) as [->|HK].
        -- rewrite !vectorized_no_classes. reflexivity.
        -- rewrite (vectorized_out_of_bounds K D N W X y reg n)
             by (assumption || lia).
           rewrite (vectorized_out_of_bounds K D N W X' y' reg (tau n))
             by (assumption || lia).
           reflexivity.
      * rewrite (svm_out_of_bounds K D N W X y reg n) by assumption.
        rewrite (svm_out_of_bounds K D N W X' y' reg (tau n)) by assumption.
        reflexivity.
Qed.

Lemma batch_order_invariant_witness :
  (forall n, (n < 2)%nat ->
     ((1 - n) < 2)%nat /\ ((1 - n) < 2)%nat /\
     (1 - (1 - n))%nat = n /\ (1 - (1 - n))%nat = n) /\
  (forall n d, (n < 2)%nat -> (d < 2)%nat ->
     (fun d n => X0 d (1 - n)%nat) d n = X0 d (1 - n)%nat) /\
  (forall n, (n < 2)%nat -> y0 n = y0 (1 - n)%nat) /\
  same_outcome 3 2
    (loss_grad_softmax_naive 3 2 2 W0 X0 y0 0)
    (loss_grad_softmax_naive 3 2 2 W0 (fun d n => X0 d (1 - n)%nat) y0 0).
Proof.
  assert (Hperm : forall n, (n < 2)%nat ->
            ((1 - n) < 2)%nat /\ ((1 - n) < 2)%nat /\
            (1 - (1 - n))%nat = n /\ (1 - (1 - n))%nat = n)
    by (intros n Hn; lia).
  assert (HX : forall n d, (n < 2)%nat -> (d < 2)%nat ->
            (fun d n => X0 d (1 - n)%nat) d n = X0 d (1 - n)%nat)
    by reflexivity.
  assert (Hy : forall n, (n < 2)%nat -> y0 n = y0 (1 - n)%nat)
    by reflexivity.
  split; [exact Hperm|]. split; [exact HX|]. split; [exact Hy|].
  apply (batch_order_invariant 3 2 2 W0 X0 (fun d n => X0 d (1 - n)%nat)
           y0 y0 0 (fun n => (1 - n)%nat) (fun n => (1 - n)%nat)
           Hperm HX Hy).
Defined.

(** ** A small loss separates the classes *)

Lemma mean_ge_term N f n :
  (forall i, (i < N)%nat -> 0 <= f i) -> (n < N)%nat ->
  f n / INR N <= mean N f.
Proof.
  intros Hf Hn. unfold mean. assert (HI := INR_pos N ltac:(lia)).
  apply Rmult_le_compat_r; [left; apply Rinv_0_lt_compat, HI|].
  apply sum_range_le_term; assumption.
Qed.

Lemma sum_range_two_terms n f i j :
  (forall k, (k < n)%nat -> 0 <= f k) ->
  (i < n)%nat -> (j < n)%nat -> i <> j ->
  f i + f j <= sum_range n f.
Proof.
  intros Hf Hi Hj Hne.
  rewrite (sum_range_ext n f
             (fun k => (if Nat.eqb k i then f k else 0) +
                       (if Nat.eqb k i then 0 else f k)))
    by (intros k _; destruct (Nat.eqb k i); ring).
  rewrite sum_range_plus, (sum_range_single n i f Hi).
  assert (H := sum_range_le_term n
                 (fun k => if Nat.eqb k i then 0 else f k) j
                 ltac:(intros k Hk; cbv beta; destruct (Nat.eqb k i);
                       [lra|apply Hf, Hk]) Hj).
  cbv beta in H. destruct (Nat.eqb_spec j i) as [E|_]; [congruence|]. lra.
Qed.

Lemma hinge_sample_loss_not_separated K D N W X y n k :
  labels_in_bounds K N y -> (n < N)%nat -> (k < K)%nat ->
  k <> row_of K y n ->
  scores D W X (row_of K y n) n <= scores D W X k n ->
  1 <= hinge_sample_loss K D W X y n.
Proof.
  intros Hin Hn Hk Hne Hs. unfold hinge_sample_loss.
  eapply Rle_trans;
    [|apply (sum_range_le_term K (fun j => hinge_margin K D W X y j n) k);
      [intros j _; apply hinge_margin_nonneg|exact Hk]].
  unfold hinge_margin.
  destruct (Nat.eqb_spec k (row_of K y n)) as [E|_]; [contradiction|].
  eapply Rle_trans; [|apply Rmax_r]. lra.
Qed.

Lemma softmax_sample_loss_not_separated K D N W X y n k :
  labels_in_bounds K N y -> (n < N)%nat -> (k < K)%nat ->
  k <> row_of K y n ->
  scores D W X (row_of K y n) n <= scores D W X k n ->
  ln 2 <= softmax_sample_loss K D W X y n.
Proof.
  intros Hin Hn Hk Hne Hs.
  assert (Hc : (row_of K y n < K)%nat) by (apply wrap_lt, Hin, Hn).
  set (c := row_of K y n) in *. set (s := fun j => scores D W X j n).
  unfold softmax_sample_loss, prob. fold c. fold s.
  assert (Hp := softmax_pos K s c ltac:(lia)).
  assert (Hz := sum_exp_pos K s ltac:(lia)).
  assert (H2 := sum_range_two_terms K (fun j => exp (s j)) c k
                  ltac:(intros j _; left; apply exp_pos) Hc Hk
                  ltac:(intros E; apply Hne; symmetry; exact E)).
  simpl in H2.
  assert (He : exp (s c) <= exp (s k)).
  { destruct Hs as [Hlt|Heq]; [left; apply exp_increasing; exact Hlt|].
    unfold s. rewrite Heq. lra. }
  assert (Hhalf : softmax K s c <= / 2).
  { unfold softmax.
    apply (Rmult_le_reg_r (sum_range K (fun j => exp (s j)))); [exact Hz|].
    unfold Rdiv. rewrite Rmult_assoc, Rinv_l by lra. lra. }
  assert (Hl := ln_le _ _ Hp Hhalf).
  rewrite ln_Rinv in Hl by lra. lra.
Qed.

(** X16.  A hinge loss below [1 / N] certifies the batch: on a batch
    that is not empty, with every label in [0, K) and [reg >= 0], when
    [loss_grad_svm_vectorized] returns a loss below [1 / N], the score of
    the class of every sample is strictly above the score of every other
    class. *)
Theorem hinge_loss_small_separates K D N W X y reg :
  (1 <= N)%nat -> labels_in_range K N y -> 0 <= reg ->
  exists loss g,
    loss_grad_svm_vectorized K D N W X y reg = Returns (loss, g) /\
    (loss < / INR N ->
     forall n k, (n < N)%nat -> (k < K)%nat -> k <> label y n ->
       scores D W X k n < scores D W X (label y n) n).
Proof.
  intros HN Hy Hr.
  assert (Hin : labels_in_bounds K N y).
  { intros n Hn. apply in_bounds_label, Hy, Hn. }
  destruct (svm_spec K D N W X y reg HN Hin) as [g [E _]].
  eexists. exists g. split; [exact E|].
  intros Hsmall n k Hn Hk Hne.
  destruct (Rlt_le_dec (scores D W X k n) (scores D W X (label y n) n))
    as [Hlt|Hge]; [exact Hlt|exfalso].
  rewrite <- (row_of_label K N y n Hy Hn) in Hge, Hne.
  assert (H1 := hinge_sample_loss_not_separated K D N W X y n k
                  Hin Hn Hk Hne Hge).
  assert (H2 := mean_ge_term N (hinge_sample_loss K D W X y) n
                  ltac:(intros i _; apply hinge_sample_loss_nonneg) Hn).
  assert (H3 := reg_loss_nonneg K D W reg Hr).
  assert (HI := Rinv_0_lt_compat _ (INR_pos N HN)).
  assert (H4 : / INR N <= hinge_sample_loss K D W X y n / INR N).
  { unfold Rdiv. rewrite <- (Rmult_1_l (/ INR N)) at 1.
    apply Rmult_le_compat_r; lra. }
  lra.
Qed.

Lemma hinge_loss_small_separates_witness :
  (1 <= 1)%nat /\ labels_in_range 2 1 y0 /\ 0 <= 0 /\
  exists loss g,
    loss_grad_svm_vectorized 2 1 1 W1 X1 y0 0 = Returns (loss, g) /\
    (loss < / INR 1 ->
     forall n k, (n < 1)%nat -> (k < 2)%nat -> k <> label y0 n ->
       scores 1 W1 X1 k n < scores 1 W1 X1 (label y0 n) n).
Proof.
  assert (Hy : labels_in_range 2 1 y0) by (intros n _; unfold y0; lia).
  split; [lia|]. split; [exact Hy|]. split; [lra|].
  apply (hinge_loss_small_separates 2 1 1 W1 X1 y0 0 ltac:(lia) Hy
           ltac:(lra)).
Defined.

(** X17.  A softmax loss below [log(2) / N] certifies the batch in the
    same way: when a softmax form returns a loss below [log(2) / N], with
    [reg >= 0], the score of the class of every sample is strictly above
    the score of every other class. *)
Theorem softmax_loss_small_separates K D N W X y reg :
  (1 <= N)%nat -> labels_in_range K N y -> 0 <= reg ->
  (exists loss g,
     loss_grad_softmax_naive K D N W X y reg = Returns (loss, g) /\
     (loss < ln 2 / INR N ->
      forall n k, (n < N)%nat -> (k < K)%nat -> k <> label y n ->
        scores D W X k n < scores D W X (label y n) n)) /\
  (exists loss g,
     loss_grad_softmax_vectorized K D N W X y reg = Returns (loss, g) /\
     (loss < ln 2 / INR N ->
      forall n k, (n < N)%nat -> (k < K)%nat -> k <> label y n ->
        scores D W X k n < scores D W X (label y n) n)).
Proof.
  intros HN Hy Hr.
  assert (Hin : labels_in_bounds K N y).
  { intros n Hn. apply in_bounds_label, Hy, Hn. }
  assert (Hsep : mean N (softmax_sample_loss K D W X y) +
                 reg_loss K D W reg < ln 2 / INR N ->
                 forall n k, (n < N)%nat -> (k < K)%nat -> k <> label y n ->
                   scores D W X k n < scores D W X (label y n) n).
  { intros Hsmall n k Hn Hk Hne.
    destruct (Rlt_le_dec (scores D W X k n) (scores D W X (label y n) n))
      as [Hlt|Hge]; [exact Hlt|exfalso].
    rewrite <- (row_of_label K N y n Hy Hn) in Hge, Hne.
    assert (H1 := softmax_sample_loss_not_separated K D N W X y n k
                    Hin Hn Hk Hne Hge).
    assert (H2 := mean_ge_term N (softmax_sample_loss K D W X y) n
                    ltac:(intros i Hi;
                          apply (softmax_sample_loss_nonneg K D N);
                          assumption) Hn).
    assert (H3 := reg_loss_nonneg K D W reg Hr).
    assert (HI := Rinv_0_lt_compat _ (INR_pos N HN)).
    assert (H4 : ln 2 / INR N <= softmax_sample_loss K D W X y n / INR N).
    { unfold Rdiv. apply Rmult_le_compat_r; lra. }
    lra. }
  destruct (naive_spec K D N W X y reg HN Hin) as [g1 [E1 _]].
  destruct (vectorized_spec K D N W X y reg HN Hin) as [g2 [E2 _]].
  split; eexists; eexists; (split; [eassumption|exact Hsep]).
Qed.

Lemma softmax_loss_small_separates_witness :
  (1 <= 1)%nat /\ labels_in_range 2 1 y0 /\ 0 <= 0 /\
  exists loss g,
    loss_grad_softmax_naive 2 1 1 W1 X1 y0 0 = Returns (loss, g) /\
    (loss < ln 2 / INR 1 ->
     forall n k, (n < 1)%nat -> (k < 2)%nat -> k <> label y0 n ->
       scores 1 W1 X1 k n < scores 1 W1 X1 (label y0 n) n).
Proof.
  assert (Hy : labels_in_range 2 1 y0) by (intros n _; unfold y0; lia).
  split; [lia|]. split; [exact Hy|]. split; [lra|].
  apply (softmax_loss_small_separates 2 1 1 W1 X1 y0 0 ltac:(lia) Hy
           ltac:(lra)).
Defined.

(** ** What the shift by the maximum gives *)

Lemma max_range2_ge r c (A : matrix) i j :
  (i < r)%nat -> (j < c)%nat ->
  A i j <= max_range r (fun i => max_range c (A i)).
Proof.
  intros Hi Hj.
  eapply Rle_trans; [apply (max_range_ge c (A i) j Hj)|].
  apply (max_range_ge r (fun i => max_range c (A i)) i Hi).
Qed.

Lemma max_range2_attained r c (A : matrix) :
  (1 <= r)%nat -> (1 <= c)%nat ->
  exists i j, (i < r)%nat /\ (j < c)%nat /\
    max_range r (fun i => max_range c (A i)) = A i j.
Proof.
  intros Hr Hc.
  destruct (max_range_attained r (fun i => max_range c (A i)) Hr)
    as [i [Hi E]].
  destruct (max_range_attained c (A i) Hc) as [j [Hj E']].
  exists i, j. split; [exact Hi|]. split; [exact Hj|].
  rewrite E, E'. reflexivity.
Qed.

Lemma exp_nonpos_le_1 x : x <= 0 -> exp x <= 1.
Proof.
  intros [Hlt| ->]; [|rewrite exp_0; lra].
  rewrite <- exp_0. left. apply exp_increasing. exact Hlt.
Qed.

(** X18.  What the shift by the maximum gives, in exact arithmetic.  In
    the loop form (line 31) the shifted scores of a sample are at most 0
    and one of them is 0, so [sum_exp_scores], by which lines 36 and 40
    divide, lies in [1, K].  In the vectorized form (line 61) the shifted
    scores of the batch are at most 0 and one of them is 0, so every
    entry of [scores_exp] is at most 1 and every entry of
    [scores_exp_sum] at most K; [scores_exp_sum] is at least 1 in the
    column that holds the maximum of the batch, and in that column
    alone: the shift puts no lower bound on the other columns. *)
Theorem shifted_scores_nonpos K D N W X :
  (1 <= K)%nat -> (1 <= N)%nat ->
  (forall i, exists m,
     np_max K (naive_scores K D W X i) = Returns m /\
     (forall k, (k < K)%nat -> naive_scores K D W X i k - m <= 0) /\
     (exists k, (k < K)%nat /\ naive_scores K D W X i k - m = 0) /\
     1 <= sum_range K (fun k => exp (naive_scores K D W X i k - m))
       <= INR K) /\
  (exists m,
     np_max2 K N (dot D W X) = Returns m /\
     (forall k n, (k < K)%nat -> (n < N)%nat ->
        dot D W X k n - m <= 0 /\ exp (dot D W X k n - m) <= 1) /\
     (forall n, (n < N)%nat ->
        np_sum_axis0 K (fun k n => exp (dot D W X k n - m)) n <= INR K) /\
     (exists k n, (k < K)%nat /\ (n < N)%nat /\
        dot D W X k n - m = 0 /\
        1 <= np_sum_axis0 K (fun k n => exp (dot D W X k n - m)) n)).
Proof.
  intros HK HN. split.
  - intros i. exists (max_range K (naive_scores K D W X i)).
    assert (Hle : forall k, (k < K)%nat ->
              naive_scores K D W X i k -
              max_range K (naive_scores K D W X i) <= 0).
    { intros k Hk.
      assert (H := max_range_ge K (naive_scores K D W X i) k Hk). lra. }
    destruct (max_range_attained K (naive_scores K D W X i) HK)
      as [k0 [Hk0 E0]].
    split; [|split; [exact Hle|split]].
    + unfold np_max. destruct (Nat.eqb_spec K 0); [lia|reflexivity].
    + exists k0. split; [exact Hk0|]. rewrite E0. ring.
    + split.
      * eapply Rle_trans;
          [|apply (sum_range_le_term K
                     (fun k => exp (naive_scores K D W X i k -
                                    max_range K (naive_scores K D W X i)))
                     k0 ltac:(intros j _; left; apply exp_pos) Hk0)].
        simpl. rewrite E0. replace (naive_scores K D W X i k0 -
          naive_scores K D W X i k0) with 0 by ring.
        rewrite exp_0. lra.
      * rewrite <- (Rmult_1_r (INR K)), <- sum_range_const.
        apply sum_range_le. intros k Hk. apply exp_nonpos_le_1, Hle, Hk.
  - exists (max_range K (fun i => max_range N (dot D W X i))).
    assert (Hle : forall k n, (k < K)%nat -> (n < N)%nat ->
              dot D W X k n -
              max_range K (fun i => max_range N (dot D W X i)) <= 0).
    { intros k n Hk Hn.
      assert (H := max_range2_ge K N (dot D W X) k n Hk Hn). lra. }
    destruct (max_range2_attained K N (dot D W X) HK HN)
      as [k0 [n0 [Hk0 [Hn0 E0]]]].
    split; [|split; [|split]].
    + unfold np_max2. destruct (Nat.eqb_spec (K * N) 0); [nia|reflexivity].
    + intros k n Hk Hn. split; [apply Hle; assumption|].
      apply exp_nonpos_le_1, Hle; assumption.
    + intros n Hn. unfold np_sum_axis0.
      rewrite <- (Rmult_1_r (INR K)), <- sum_range_const.
      apply sum_range_le. intros k Hk.
      apply exp_nonpos_le_1, Hle; assumption.
    + exists k0, n0. split; [exact Hk0|]. split; [exact Hn0|].
      split; [rewrite E0; ring|]. unfold np_sum_axis0.
      eapply Rle_trans;
        [|apply (sum_range_le_term K
                   (fun k => exp (dot D W X k n0 -
                                  max_range K
                                    (fun i => max_range N (dot D W X i))))
                   k0 ltac:(intros j _; left; apply exp_pos) Hk0)].
      simpl. rewrite E0. replace (dot D W X k0 n0 - dot D W X k0 n0)
        with 0 by ring.
      rewrite exp_0. lra.
Qed.

Lemma shifted_scores_nonpos_witness :
  (1 <= 2)%nat /\ (1 <= 2)%nat /\
  exists m,
    np_max2 2 2 (dot 1 W1 X_far) = Returns m /\
    (forall k n, (k < 2)%nat -> (n < 2)%nat ->
       dot 1 W1 X_far k n - m <= 0 /\ exp (dot 1 W1 X_far k n - m) <= 1) /\
    (forall n, (n < 2)%nat ->
       np_sum_axis0 2 (fun k n => exp (dot 1 W1 X_far k n - m)) n <= INR 2) /\
    (exists k n, (k < 2)%nat /\ (n < 2)%nat /\
       dot 1 W1 X_far k n - m = 0 /\
       1 <= np_sum_axis0 2 (fun k n => exp (dot 1 W1 X_far k n - m)) n).
Proof.
  split; [lia|]. split; [lia|].
  apply (shifted_scores_nonpos 2 1 2 W1 X_far ltac:(lia) ltac:(lia)).
Defined.

(** * The three functions in binary64 *)

(** ** Where the batch maximum underflows a column *)

(** C1.  In binary64 the two softmax forms do not agree on every valid
    input.  With K = 2, D = 1, N = 2, W = [[1.0],[0.0]],
    X = [[1000.0, -2000.0]], y = [0, 1] and reg = 0.0 the scores are
    [[1000, -2000],[0, 0]].  The loop form shifts each sample by its own
    maximum (line 31): every [exp] is 1.0 or 0.0, each [sum_exp_scores]
    is 1.0, and it returns the loss 0.0 and a gradient of zeros.  The
    vectorized form shifts the batch by its one maximum 1000 (line 61):
    column 1 becomes [-3000, -1000], both entries of [scores_exp] in it
    are 0.0, [scores_exp_sum[1]] is 0.0, lines 65 and 69 divide 0.0 by
    0.0, and it returns the loss nan and a gradient of nan.  The same
    holds for the vectorized form at X = [[1000.0, 0.0]].  This is so
    whatever the libm returns inside its range. *)
Theorem vectorized_nan_where_naive_returns
  (libm_exp libm_log : F64.float -> F64.float) :
  labels_in_range 2 2 y01 /\
  (forall k d, F64.is_finite (F64.W_1_0 k d) = true) /\
  (forall d n, F64.is_finite (F64.X_far d n) = true) /\
  (forall d n, F64.is_finite (F64.X_1000_0 d n) = true) /\
  (forall k d, (k < 2)%nat -> (d < 1)%nat ->
     F64.result_at
       (F64.loss_grad_softmax_naive libm_exp libm_log 2 1 2
          F64.W_1_0 F64.X_far y01 F64.zero) k d =
     Returns (F64.zero, F64.zero)) /\
  (forall k d, (k < 2)%nat -> (d < 1)%nat ->
     F64.result_at
       (F64.loss_grad_softmax_vectorized libm_exp libm_log 2 1 2
          F64.W_1_0 F64.X_far y01 F64.zero) k d =
     Returns (F64.nan, F64.nan)) /\
  (forall k d, (k < 2)%nat -> (d < 1)%nat ->
     F64.result_at
       (F64.loss_grad_softmax_vectorized libm_exp libm_log 2 1 2
          F64.W_1_0 F64.X_1000_0 y01 F64.zero) k d =
     Returns (F64.nan, F64.nan)).
Proof.
  split; [intros n Hn; unfold y01; lia|].
  split; [intros [|k] d; reflexivity|].
  split; [intros d [|n]; reflexivity|].
  split; [intros d [|n]; reflexivity|].
  split; [|split]; intros k d Hk Hd;
    (assert (d = 0)%nat as -> by lia);
    (destruct k as [|[|k]]; [| |lia]); vm_compute; reflexivity.
Qed.

(** ** Where the squares of the weights overflow *)

(** C8 as the claim states it fails in binary64.  With a weight of
    1e200 the sum [np.sum(W * W)] is inf, and with [reg = 0.0] line 120
    adds [0.5 * 0.0 * inf], which is nan, to the loss: the hinge form
    returns the loss nan, which is not at least 0, on a valid input
    whose entries are all finite.  K = 2, D = 1, N = 1,
    W = [[1e200],[0.0]], X = [[1.0]], y = [0]. *)
Lemma hinge_loss_nan_on_overflow :
  labels_in_range 2 1 y0 /\
  (forall k d, F64.is_finite (F64.W_big k d) = true) /\
  (forall d n, F64.is_finite (F64.X_one d n) = true) /\
  F64.ge F64.zero F64.zero = true /\
  (forall k d, (k < 2)%nat -> (d < 1)%nat ->
     F64.result_at
       (F64.loss_grad_svm_vectorized 2 1 1 F64.W_big F64.X_one y0 F64.zero)
       k d =
     Returns (F64.nan, F64.zero)) /\
  F64.ge F64.nan F64.zero = false.
Proof.
  split; [intros n Hn; unfold y0; lia|].
  split; [intros [|k] d; reflexivity|].
  split; [intros d n; reflexivity|].
  split; [reflexivity|].
  split; [|reflexivity].
  intros k d Hk Hd. assert (d = 0)%nat as -> by lia.
  destruct k as [|[|k]]; [| |lia]; vm_compute; reflexivity.
Qed.

(** The two softmax forms return the loss nan on the same input, by
    line 48 and by line 67. *)
Lemma softmax_loss_nan_on_overflow
  (libm_exp libm_log : F64.float -> F64.float) :
  (forall k d, (k < 2)%nat -> (d < 1)%nat ->
     F64.result_at
       (F64.loss_grad_softmax_naive libm_exp libm_log 2 1 1
          F64.W_big F64.X_one y0 F64.zero) k d =
     Returns (F64.nan, F64.zero)) /\
  (forall k d, (k < 2)%nat -> (d < 1)%nat ->
     F64.result_at
       (F64.loss_grad_softmax_vectorized libm_exp libm_log 2 1 1
          F64.W_big F64.X_one y0 F64.zero) k d =
     Returns (F64.nan, F64.zero)).
Proof.
  split; intros k d Hk Hd; (assert (d = 0)%nat as -> by lia);
    (destruct k as [|[|k]]; [| |lia]); vm_compute; reflexivity.
Qed.
